(** * NHL Fantasy Helper: the mock-draft engine

    A shallow embedding of the draft engine of the fantasy-puck front end
    ([utils/draftEngine.ts], [utils/cpuDraftLogic.ts] and the reducer of
    [contexts/DraftContext.tsx]), of the callbacks that dispatch to the
    reducer and of the checks of the setup page, together with the
    properties its specification states about it and the invariants of a
    draft session.

    Conventions of the embedding:
    - a JavaScript [number] that counts something (capacities, filled
      counts, pick numbers, indices, seconds) is a [Z]: [NaN] is not
      modelled;
    - a [number] that is a measurement (the ADP of a player, a score, a
      weight) is an exact rational [Q]: rounding of doubles is not modelled;
    - an array is a [list], read with [!!] and written with [<[ _ := _ ]>];
    - a function that mutates its argument returns the mutated value next
      to its result;
    - [Math.random()] and [new Date()] are inputs of the function that
      calls them. *)

From Stdlib Require Import Ascii String ZArith QArith Qminmax Qabs Lia Lqa Sorted.
From stdpp Require Import base decidable option list sets strings pretty.

Local Open Scope Z_scope.

(** ** Data model ([types/draft.ts]) *)

(** [Position] is a union of eight string literals.  [parsePositions]
    casts the pieces of a position code to [Position] without a check, so a
    piece that is none of the eight literals stays in the list as it is:
    [Other] stands for such a piece. *)
Inductive Position : Type :=
  | C | LW | RW | D | G | F | UTIL | BENCH
  | Other (tok : string).

#[global] Instance Position_eq_dec : EqDecision Position.
Proof. solve_decision. Defined.

(** [Record<Position, number>]: the shape shared by [RosterConfig], by
    [TeamRoster.filledPositions] and by the result of
    [getPositionalNeeds]. *)
Record PositionCounts : Type := mkCounts {
  nC : Z; nLW : Z; nRW : Z; nD : Z; nG : Z; nF : Z; nUTIL : Z; nBENCH : Z
}.

Definition RosterConfig : Type := PositionCounts.

(** [counts[pos]]: [None] is JavaScript's [undefined], read for a key the
    object does not have. *)
Definition count_get (cs : PositionCounts) (pos : Position) : option Z :=
  match pos with
  | C => Some (nC cs) | LW => Some (nLW cs) | RW => Some (nRW cs)
  | D => Some (nD cs) | G => Some (nG cs) | F => Some (nF cs)
  | UTIL => Some (nUTIL cs) | BENCH => Some (nBENCH cs)
  | Other _ => None
  end.

(** [counts[pos]++].  The engine increments at the eight keys of the
    object only, so the case [Other] is never run. *)
Definition count_incr (cs : PositionCounts) (pos : Position) : PositionCounts :=
  match pos with
  | C => mkCounts (nC cs + 1) (nLW cs) (nRW cs) (nD cs) (nG cs) (nF cs) (nUTIL cs) (nBENCH cs)
  | LW => mkCounts (nC cs) (nLW cs + 1) (nRW cs) (nD cs) (nG cs) (nF cs) (nUTIL cs) (nBENCH cs)
  | RW => mkCounts (nC cs) (nLW cs) (nRW cs + 1) (nD cs) (nG cs) (nF cs) (nUTIL cs) (nBENCH cs)
  | D => mkCounts (nC cs) (nLW cs) (nRW cs) (nD cs + 1) (nG cs) (nF cs) (nUTIL cs) (nBENCH cs)
  | G => mkCounts (nC cs) (nLW cs) (nRW cs) (nD cs) (nG cs + 1) (nF cs) (nUTIL cs) (nBENCH cs)
  | F => mkCounts (nC cs) (nLW cs) (nRW cs) (nD cs) (nG cs) (nF cs + 1) (nUTIL cs) (nBENCH cs)
  | UTIL => mkCounts (nC cs) (nLW cs) (nRW cs) (nD cs) (nG cs) (nF cs) (nUTIL cs + 1) (nBENCH cs)
  | BENCH => mkCounts (nC cs) (nLW cs) (nRW cs) (nD cs) (nG cs) (nF cs) (nUTIL cs) (nBENCH cs + 1)
  | Other _ => cs
  end.

(** [a < b] on two reads: a comparison with [undefined] is false. *)
Definition lt_read (a b : option Z) : bool :=
  match a, b with
  | Some x, Some y => x <? y
  | _, _ => false
  end.

(** [a > 0] on a read. *)
Definition pos_read (a : option Z) : bool :=
  match a with
  | Some x => 0 <? x
  | None => false
  end.

(** The optional fields of [DraftPlayer] (fantasy points and the statistics
    shown in the tables) are read by no function of the engine and are left
    out. *)
Record DraftPlayer : Type := mkPlayer {
  playerId : string;
  skaterFullName : string;
  teamAbbrevs : string;
  positionCode : string;
  positions : list Position;
  espnADP : Q;
  espnPercentOwned : Q;
  espnTotalRanking : Q
}.

Record TeamRoster : Type := mkRoster {
  teamIndex : Z;
  teamName : string;
  isUser : bool;
  picks : list DraftPlayer;
  filledPositions : PositionCounts
}.

(** ** Roster model ([utils/draftEngine.ts]) *)

(** [arr.includes(x)] *)
Definition includes {A : Type} `{EqDecision A} (arr : list A) (x : A) : bool :=
  bool_decide (x ∈ arr).

(** [player.positions.some(p => ['C', 'LW', 'RW'].includes(p))] *)
Definition isForward (player : DraftPlayer) : bool :=
  existsb (λ p, includes [C; LW; RW] p) (positions player).

Definition canFillPosition (player : DraftPlayer) (position : Position) : bool :=
  match position with
  | F => isForward player
  | UTIL => true
  | _ => includes (positions player) position
  end.

Definition positionTypes : list Position := [C; LW; RW; D; G; F; UTIL].

Definition getAvailablePositionsForPlayer
    (player : DraftPlayer) (filled : PositionCounts) (rosterConfig : RosterConfig)
    : list Position :=
  let available :=
    List.filter
      (λ pos, canFillPosition player pos
              && lt_read (count_get filled pos) (count_get rosterConfig pos))
      positionTypes in
  if nBENCH filled <? nBENCH rosterConfig then available ++ [BENCH] else available.

Definition primaryPositions : list Position := [C; LW; RW; D; G].

(** [roster.filledPositions[pos]++] *)
Definition fill (roster : TeamRoster) (pos : Position) : TeamRoster :=
  mkRoster (teamIndex roster) (teamName roster) (isUser roster) (picks roster)
           (count_incr (filledPositions roster) pos).

(** The roster is mutated in place: the function returns the position (or
    [None] for [null]) together with the roster as the call leaves it. *)
Definition assignPlayerToRoster
    (player : DraftPlayer) (roster : TeamRoster) (rosterConfig : RosterConfig)
    : option Position * TeamRoster :=
  let available :=
    getAvailablePositionsForPlayer player (filledPositions roster) rosterConfig in
  match available with
  | [] => (None, roster)
  | assignedPos :: _ =>
    match List.find (λ pos, includes (positions player) pos && includes available pos)
                    primaryPositions with
    | Some pos => (Some pos, fill roster pos)
    | None =>
      if includes available F && isForward player then (Some F, fill roster F)
      else if includes available UTIL then (Some UTIL, fill roster UTIL)
      else if includes available BENCH then (Some BENCH, fill roster BENCH)
      else (Some assignedPos, fill roster assignedPos)
    end
  end.

Definition getPositionalNeeds (roster : TeamRoster) (rosterConfig : RosterConfig)
    : PositionCounts :=
  let f := filledPositions roster in
  mkCounts (Z.max 0 (nC rosterConfig - nC f))
           (Z.max 0 (nLW rosterConfig - nLW f))
           (Z.max 0 (nRW rosterConfig - nRW f))
           (Z.max 0 (nD rosterConfig - nD f))
           (Z.max 0 (nG rosterConfig - nG f))
           (Z.max 0 (nF rosterConfig - nF f))
           (Z.max 0 (nUTIL rosterConfig - nUTIL f))
           (Z.max 0 (nBENCH rosterConfig - nBENCH f)).

Definition criticalPosTypes : list Position := [C; LW; RW; D; G].

(** The [criticalPositions] field of the result; [hasNeeds] is
    [criticalPositions.length > 0]. *)
Definition criticalPositions (roster : TeamRoster) (rosterConfig : RosterConfig)
    : list Position :=
  let needs := getPositionalNeeds roster rosterConfig in
  List.filter (λ pos, pos_read (count_get needs pos)
                      && pos_read (count_get rosterConfig pos))
              criticalPosTypes.

Definition hasCriticalPositionalNeeds
    (roster : TeamRoster) (rosterConfig : RosterConfig) : bool * list Position :=
  let cps := criticalPositions roster rosterConfig in
  (0 <? Z.of_nat (length cps), cps).

Definition calculateTotalRounds (rosterConfig : RosterConfig) : Z :=
  nC rosterConfig + nLW rosterConfig + nRW rosterConfig + nD rosterConfig
  + nG rosterConfig + nF rosterConfig + nUTIL rosterConfig + nBENCH rosterConfig.

(** ** Draft order ([utils/draftEngine.ts]) *)

(** The record [DraftPick]; the module keeps its field names apart from
    those of [TeamRoster]. *)
Module DraftPick.
Record t : Type := mk {
  overallPick : Z;
  round : Z;
  pickInRound : Z;
  teamIndex : Z;
  player : option DraftPlayer;
  timestamp : option Z;
  isUserPick : bool
}.
End DraftPick.

(** The state of the two nested loops: the array built so far and the
    counter [overallPick]. *)
Definition OrderLoop : Type := (list DraftPick.t * Z)%type.

(** One run of the body of the inner loop. *)
Definition pickStep (numTeams userDraftPosition round : Z)
    (st : OrderLoop) (pickInRound : Z) : OrderLoop :=
  let isEvenRound := Z.rem round 2 =? 0 in
  let teamIndex := if isEvenRound then numTeams - pickInRound else pickInRound - 1 in
  (st.1 ++ [DraftPick.mk st.2 round pickInRound teamIndex None None
                         (teamIndex =? userDraftPosition - 1)],
   st.2 + 1).

(** One run of the body of the outer loop:
    [for (let pickInRound = 1; pickInRound <= numTeams; pickInRound++)]. *)
Definition roundStep (numTeams userDraftPosition : Z)
    (st : OrderLoop) (round : Z) : OrderLoop :=
  foldl (pickStep numTeams userDraftPosition round) st (seqZ 1 numTeams).

(** [for (let round = 1; round <= numRounds; round++)] from the empty array
    and [overallPick = 1]. *)
Definition generateSnakeDraftOrder (numTeams numRounds userDraftPosition : Z)
    : list DraftPick.t :=
  (foldl (roundStep numTeams userDraftPosition) ([], 1) (seqZ 1 numRounds)).1.

Definition emptyCounts : PositionCounts := mkCounts 0 0 0 0 0 0 0 0.

(** [for (let i = 0; i < numTeams; i++)] *)
Definition initializeTeamRosters (numTeams userDraftPosition : Z) : list TeamRoster :=
  (λ i : Z,
     let isUser := i =? userDraftPosition - 1 in
     mkRoster i (if isUser then "Your Team" else "Team " +:+ pretty (i + 1))
              isUser [] emptyCounts)
  <$> seqZ 0 numTeams.

(** [s.split('/')] *)
Fixpoint splitSlash (s : string) : list string :=
  match s with
  | EmptyString => [EmptyString]
  | String c s' =>
    if Ascii.eqb c "/"%char then EmptyString :: splitSlash s'
    else match splitSlash s' with
         | w :: ws => String c w :: ws
         | [] => [String c EmptyString]
         end
  end.

Fixpoint trimStart (s : string) : string :=
  match s with
  | String c s' => if Ascii.is_space c then trimStart s' else s
  | EmptyString => EmptyString
  end.

(** [p.trim()], on the ASCII white space. *)
Definition trim (s : string) : string :=
  String.rev (trimStart (String.rev (trimStart s))).

(** The cast [as Position]: the string is kept as it is. *)
Definition asPosition (s : string) : Position :=
  if String.eqb s "C" then C
  else if String.eqb s "LW" then LW
  else if String.eqb s "RW" then RW
  else if String.eqb s "D" then D
  else if String.eqb s "G" then G
  else if String.eqb s "F" then F
  else if String.eqb s "UTIL" then UTIL
  else if String.eqb s "BENCH" then BENCH
  else Other s.

Definition parsePositions (positionCode : string) : list Position :=
  (λ p, asPosition (trim p)) <$> splitSlash positionCode.

(** ** CPU decisions ([utils/cpuDraftLogic.ts]) *)

Local Open Scope Q_scope.

Record CPUDraftWeights : Type := mkWeights {
  adpWeight : Q;
  positionalNeedWeight : Q;
  valueWeight : Q;
  randomnessWeight : Q
}.

Definition DEFAULT_CPU_WEIGHTS : CPUDraftWeights :=
  mkWeights (5 # 10) (3 # 10) (15 # 100) (5 # 100).

(** [x < y] on measurements. *)
Definition Qltb (x y : Q) : bool := negb (Qle_bool y x).

(** Sections 1 to 4 of [scorePlayerForCPU]: the four weighted signals,
    summed.  [rnd] is the value [Math.random()] returns in this call. *)
Definition weightedScore (player : DraftPlayer) (roster : TeamRoster)
    (rosterConfig : RosterConfig) (currentPickNumber : Z)
    (weights : CPUDraftWeights) (rnd : Q) : Q :=
  let score := 0 in
  let adpDiff := Qabs (espnADP player - inject_Z currentPickNumber) in
  let adpScore := Qmax 0 (100 - adpDiff * 2) in
  let score := score + adpScore * adpWeight weights in
  let needs := getPositionalNeeds roster rosterConfig in
  let positionalScore :=
    foldl (λ positionalScore pos,
             match count_get needs pos with
             | Some n => if (0 <? n)%Z
                         then Qmax positionalScore (inject_Z n * 20)
                         else positionalScore
             | None => positionalScore
             end) 0 (positions player) in
  let positionalScore :=
    if (0 <? nF needs)%Z && isForward player
    then Qmax positionalScore (inject_Z (nF needs) * 15)
    else positionalScore in
  let positionalScore :=
    if (0 <? nUTIL needs)%Z
    then Qmax positionalScore (inject_Z (nUTIL needs) * 5)
    else positionalScore in
  let score := score + positionalScore * positionalNeedWeight weights in
  let valueScore := Qmax 0 (200 - espnADP player) in
  let score := score + valueScore * valueWeight weights in
  let randomScore := rnd * 100 in
  score + randomScore * randomnessWeight weights.

(** The two tests that guard [score *= 0.4] in section 5. *)
Definition goalieDiscountApplies (player : DraftPlayer) (roster : TeamRoster)
    (rosterConfig : RosterConfig) (currentPickNumber : Z) : bool :=
  let needs := getPositionalNeeds roster rosterConfig in
  includes (positions player) G
  && ((currentPickNumber <? 50)%Z && (nG needs <? nG rosterConfig)%Z).

(** The boosts of section 5 for centers and defensemen. *)
Definition earlyBoost (player : DraftPlayer) (currentPickNumber : Z) (score : Q) : Q :=
  if (currentPickNumber <? 30)%Z then
    let score := if includes (positions player) C then score * (11 # 10) else score in
    if includes (positions player) D then score * (105 # 100) else score
  else score.

Definition scorePlayerForCPU (player : DraftPlayer) (roster : TeamRoster)
    (rosterConfig : RosterConfig) (currentPickNumber : Z)
    (weights : CPUDraftWeights) (rnd : Q) : Q :=
  let score := weightedScore player roster rosterConfig currentPickNumber weights rnd in
  let score :=
    if goalieDiscountApplies player roster rosterConfig currentPickNumber
    then score * (4 # 10) else score in
  earlyBoost player currentPickNumber score.

(** [scoredPlayers.sort((a, b) => b.score - a.score)]: the sort of an
    array is stable, so an entry goes before the entries it does not score
    below and that came after it. *)
Fixpoint insertByScore (a : DraftPlayer * Q) (sorted : list (DraftPlayer * Q))
    : list (DraftPlayer * Q) :=
  match sorted with
  | [] => [a]
  | b :: rest =>
    if Qle_bool b.2 a.2 then a :: b :: rest else b :: insertByScore a rest
  end.

Definition sortByScore (scoredPlayers : list (DraftPlayer * Q))
    : list (DraftPlayer * Q) :=
  foldr insertByScore [] scoredPlayers.

(** [player.positions.some(pos => criticalPositions.includes(pos))] *)
Definition fillsCritical (cps : list Position) (player : DraftPlayer) : bool :=
  existsb (λ pos, includes cps pos) (positions player).

(** [picks / total > 0.5] for a length [picks] and an integer [total]: the
    quotient of a division by zero is [Infinity] or, for [0 / 0], [NaN]. *)
Definition overHalf (picks total : Z) : bool :=
  if (total =? 0)%Z then (0 <? picks)%Z
  else if (0 <? total)%Z then (total <? 2 * picks)%Z
  else false.

(** [rnd i] is the value [Math.random()] returns for the candidate at index
    [i] of [candidatePlayers]. *)
Definition selectCPUPick (availablePlayers : list DraftPlayer) (roster : TeamRoster)
    (rosterConfig : RosterConfig) (currentPickNumber : Z)
    (weights : CPUDraftWeights) (rnd : nat → Q) : option DraftPlayer :=
  match availablePlayers with
  | [] => None
  | _ =>
    let '(hasNeeds, cps) := hasCriticalPositionalNeeds roster rosterConfig in
    let draftCompletion :=
      overHalf (Z.of_nat (length (picks roster))) (calculateTotalRounds rosterConfig) in
    let needBasedPlayers := List.filter (fillsCritical cps) availablePlayers in
    let candidatePlayers :=
      if hasNeeds && draftCompletion && (0 <? Z.of_nat (length needBasedPlayers))%Z
      then needBasedPlayers else availablePlayers in
    let scoredPlayers :=
      imap (λ i player,
              (player, scorePlayerForCPU player roster rosterConfig
                                         currentPickNumber weights (rnd i)))
           candidatePlayers in
    match sortByScore scoredPlayers with
    | top :: _ => Some top.1
    | [] => None
    end
  end.

(** [rest.reduce((best, player) => ..., first)]: what [arr.reduce(f)]
    computes on the array [first :: rest]. *)
Definition reduceBestADP (first : DraftPlayer) (rest : list DraftPlayer) : DraftPlayer :=
  foldl (λ best player, if Qltb (espnADP player) (espnADP best) then player else best)
        first rest.

Definition selectAutoPick (availablePlayers : list DraftPlayer) (roster : TeamRoster)
    (rosterConfig : RosterConfig) : option DraftPlayer :=
  match availablePlayers with
  | [] => None
  | first :: rest =>
    let '(hasNeeds, cps) := hasCriticalPositionalNeeds roster rosterConfig in
    match (if hasNeeds then List.filter (fillsCritical cps) availablePlayers else []) with
    | n :: ns => Some (reduceBestADP n ns)
    | [] => Some (reduceBestADP first rest)
    end
  end.

Local Close Scope Q_scope.

(** ** Draft state machine ([contexts/DraftContext.tsx]) *)

Inductive DraftFormat : Type := snake.

Record LeagueSettings : Type := mkSettings {
  numTeams : Z;
  draftFormat : DraftFormat;
  userDraftPosition : Z;
  draftTimerSeconds : Z;
  rosterConfig : RosterConfig
}.

Inductive Tab : Type := available | my_team | draft_board.

Record DraftState : Type := mkState {
  leagueSettings : option LeagueSettings;
  allPlayers : list DraftPlayer;
  availablePlayers : list DraftPlayer;
  draftOrder : list DraftPick.t;
  currentPickIndex : Z;
  teams : list TeamRoster;
  pickTimerRemaining : Z;
  isTimerActive : bool;
  currentTab : Tab;
  isDraftStarted : bool;
  isDraftComplete : bool
}.

Inductive DraftAction : Type :=
  | INITIALIZE_LEAGUE (settings : LeagueSettings) (players : list DraftPlayer)
  | START_DRAFT
  | MAKE_PICK (player : DraftPlayer)
  | AUTO_PICK
  | UPDATE_TIMER (seconds : Z)
  | START_TIMER
  | STOP_TIMER
  | CHANGE_TAB (tab : Tab)
  | RESET_DRAFT.

Definition initialState : DraftState :=
  mkState None [] [] [] 0 [] 0 false available false false.

(** [arr[i]] for a number [i]: [undefined] below zero and from the length
    on. *)
Definition at_index {A : Type} (arr : list A) (i : Z) : option A :=
  if i <? 0 then None else arr !! Z.to_nat i.

(** [state.leagueSettings?.draftTimerSeconds || 0] *)
Definition timerSeconds (state : DraftState) : Z :=
  match leagueSettings state with
  | Some ls => if draftTimerSeconds ls =? 0 then 0 else draftTimerSeconds ls
  | None => 0
  end.

(** [pick?.isUserPick || false] *)
Definition userPickAt (pick : option DraftPick.t) : bool :=
  match pick with
  | Some p => DraftPick.isUserPick p
  | None => false
  end.

(** What a transition does: it returns the next state, or it raises the
    [TypeError] of a property read on [null] or [undefined]. *)
Inductive Outcome : Type :=
  | Next (state : DraftState)
  | Throws.

(** [{ ...team, picks: [...team.picks, player], filledPositions: { ...team.filledPositions } }] *)
Definition withPick (team : TeamRoster) (player : DraftPlayer) : TeamRoster :=
  mkRoster (teamIndex team) (teamName team) (isUser team)
           (picks team ++ [player]) (filledPositions team).

(** The callback of [state.teams.map] in [MAKE_PICK].  The read
    [state.leagueSettings!.rosterConfig] happens only for the team of the
    pick; [None] stands for the [TypeError] it raises on [null].  The result
    of [assignPlayerToRoster] is dropped: only the roster it mutated is
    kept. *)
Definition updateTeam (settings : option LeagueSettings) (currentPick : DraftPick.t)
    (player : DraftPlayer) (idx : nat) (team : TeamRoster) : option TeamRoster :=
  if bool_decide (Z.of_nat idx ≠ DraftPick.teamIndex currentPick) then Some team
  else
    let updatedTeam := withPick team player in
    match settings with
    | Some ls => Some (assignPlayerToRoster player updatedTeam (rosterConfig ls)).2
    | None => None
    end.

(** [{ ...currentPick, player, timestamp: new Date() }] *)
Definition filledSlot (currentPick : DraftPick.t) (player : DraftPlayer) (now : Z)
    : DraftPick.t :=
  DraftPick.mk (DraftPick.overallPick currentPick) (DraftPick.round currentPick)
               (DraftPick.pickInRound currentPick) (DraftPick.teamIndex currentPick)
               (Some player) (Some now) (DraftPick.isUserPick currentPick).

Definition makePick (now : Z) (state : DraftState) (player : DraftPlayer) : Outcome :=
  match at_index (draftOrder state) (currentPickIndex state) with
  | None => Next state
  | Some currentPick =>
    match DraftPick.player currentPick with
    | Some _ => Next state
    | None =>
      let newDraftOrder :=
        <[Z.to_nat (currentPickIndex state) := filledSlot currentPick player now]>
          (draftOrder state) in
      match mapM id (imap (updateTeam (leagueSettings state) currentPick player)
                          (teams state)) with
      | None => Throws
      | Some newTeams =>
        let newAvailablePlayers :=
          filter (λ p, playerId p ≠ playerId player) (availablePlayers state) in
        let nextPickIndex := currentPickIndex state + 1 in
        let isDraftComplete := Z.of_nat (length (draftOrder state)) <=? nextPickIndex in
        let nextPick := at_index (draftOrder state) nextPickIndex in
        Next (mkState (leagueSettings state) (allPlayers state) newAvailablePlayers
                      newDraftOrder nextPickIndex newTeams (timerSeconds state)
                      (userPickAt nextPick) (currentTab state)
                      (isDraftStarted state) isDraftComplete)
      end
    end
  end.

(** [selectAutoPick(state.availablePlayers, team, ...)] where [team] may be
    [undefined]: the function returns [null] for an empty pool before it
    reads the roster, and raises on [roster.filledPositions] otherwise. *)
Definition autoPickPlayer (pool : list DraftPlayer) (team : option TeamRoster)
    (cfg : RosterConfig) : option (option DraftPlayer) :=
  match team with
  | Some roster => Some (selectAutoPick pool roster cfg)
  | None => match pool with [] => Some None | _ => None end
  end.

Definition autoPick (now : Z) (state : DraftState) : Outcome :=
  match at_index (draftOrder state) (currentPickIndex state) with
  | None => Next state
  | Some currentPick =>
    match DraftPick.player currentPick with
    | Some _ => Next state
    | None =>
      let team := at_index (teams state) (DraftPick.teamIndex currentPick) in
      match leagueSettings state with
      | None => Throws
      | Some ls =>
        match autoPickPlayer (availablePlayers state) team (rosterConfig ls) with
        | None => Throws
        | Some None => Next state
        | Some (Some player) => makePick now state player
        end
      end
    end
  end.

(** [now] is the value of [new Date()] during the transition. *)
Definition draftReducer (now : Z) (state : DraftState) (action : DraftAction) : Outcome :=
  match action with
  | INITIALIZE_LEAGUE settings players =>
    let numRounds := calculateTotalRounds (rosterConfig settings) in
    let order :=
      generateSnakeDraftOrder (numTeams settings) numRounds (userDraftPosition settings) in
    let rosters := initializeTeamRosters (numTeams settings) (userDraftPosition settings) in
    let playersWithPositions :=
      (λ p, mkPlayer (playerId p) (skaterFullName p) (teamAbbrevs p) (positionCode p)
                     (parsePositions (positionCode p))
                     (espnADP p) (espnPercentOwned p) (espnTotalRanking p))
      <$> players in
    Next (mkState (Some settings) playersWithPositions playersWithPositions order 0
                  rosters (pickTimerRemaining state) (isTimerActive state)
                  available false false)
  | START_DRAFT =>
    Next (mkState (leagueSettings state) (allPlayers state) (availablePlayers state)
                  (draftOrder state) (currentPickIndex state) (teams state)
                  (timerSeconds state) (userPickAt (draftOrder state !! 0%nat))
                  (currentTab state) true (isDraftComplete state))
  | MAKE_PICK player => makePick now state player
  | AUTO_PICK => autoPick now state
  | UPDATE_TIMER seconds =>
    Next (mkState (leagueSettings state) (allPlayers state) (availablePlayers state)
                  (draftOrder state) (currentPickIndex state) (teams state)
                  seconds (isTimerActive state)
                  (currentTab state) (isDraftStarted state) (isDraftComplete state))
  | START_TIMER =>
    Next (mkState (leagueSettings state) (allPlayers state) (availablePlayers state)
                  (draftOrder state) (currentPickIndex state) (teams state)
                  (pickTimerRemaining state) true
                  (currentTab state) (isDraftStarted state) (isDraftComplete state))
  | STOP_TIMER =>
    Next (mkState (leagueSettings state) (allPlayers state) (availablePlayers state)
                  (draftOrder state) (currentPickIndex state) (teams state)
                  (pickTimerRemaining state) false
                  (currentTab state) (isDraftStarted state) (isDraftComplete state))
  | CHANGE_TAB tab =>
    Next (mkState (leagueSettings state) (allPlayers state) (availablePlayers state)
                  (draftOrder state) (currentPickIndex state) (teams state)
                  (pickTimerRemaining state) (isTimerActive state)
                  tab (isDraftStarted state) (isDraftComplete state))
  | RESET_DRAFT => Next initialState
  end.

(** The states of a session: [useReducer(draftReducer, initialState)]
    starts from [initialState] and every later state is what the reducer
    returned for some action. *)
Inductive reachable : DraftState → Prop :=
  | reachable_init : reachable initialState
  | reachable_step (now : Z) (state : DraftState) (action : DraftAction)
                   (state' : DraftState) :
      reachable state →
      draftReducer now state action = Next state' →
      reachable state'.

(** ** The specification's wording, for comparison with the code *)

(** The player holds [pos] natively: [pos] is in the parsed position
    list. *)
Definition holds (player : DraftPlayer) (pos : Position) : bool :=
  includes (positions player) pos.

(** The filled-count of [pos] is strictly below its capacity. *)
Definition hasCapacity (roster : TeamRoster) (cfg : RosterConfig) (pos : Position) : bool :=
  lt_read (count_get (filledPositions roster) pos) (count_get cfg pos).

(** Section 4.2, step 2 of the specification: the slots in priority order,
    each kept when its condition holds; the assignment is the first one
    kept. *)
Definition specCandidates (player : DraftPlayer) (roster : TeamRoster)
    (cfg : RosterConfig) : list Position :=
  List.filter (λ pos, holds player pos && hasCapacity roster cfg pos) [C; LW; RW; D; G]
  ++ (if (holds player C || holds player LW || holds player RW)
         && hasCapacity roster cfg F then [F] else [])
  ++ (if hasCapacity roster cfg UTIL then [UTIL] else [])
  ++ (if hasCapacity roster cfg BENCH then [BENCH] else []).

Definition specAssign (player : DraftPlayer) (roster : TeamRoster)
    (cfg : RosterConfig) : option Position :=
  head (specCandidates player roster cfg).

(** The critical goalie need, as section 4.3 defines a critical need: the
    G capacity is positive and the G filled-count is below it. *)
Definition goalieNeedCritical (roster : TeamRoster) (cfg : RosterConfig) : bool :=
  (0 <? nG cfg) && (nG (filledPositions roster) <? nG cfg).

(** The goalie discount as the specification words it. *)
Definition specGoalieDiscount (player : DraftPlayer) (roster : TeamRoster)
    (cfg : RosterConfig) (currentPickNumber : Z) : bool :=
  holds player G && (currentPickNumber <? 50) && negb (goalieNeedCritical roster cfg).

(** [p] is the lowest-ADP player of [l]; among players of equal ADP, the
    one that comes first. *)
Definition firstLowestADP (l : list DraftPlayer) (p : DraftPlayer) : Prop :=
  ∃ before after,
    l = before ++ p :: after
    ∧ (∀ q, q ∈ before → (espnADP p < espnADP q)%Q)
    ∧ (∀ q, q ∈ after → (espnADP p <= espnADP q)%Q).

(** The position list of [player] intersects [cps]. *)
Definition intersects (cps : list Position) (player : DraftPlayer) : Prop :=
  ∃ pos, pos ∈ positions player ∧ pos ∈ cps.

(** The player has a non-empty set of positions to fill, given the
    remaining capacities of the roster. *)
Definition eligible (player : DraftPlayer) (roster : TeamRoster) (cfg : RosterConfig)
    : Prop :=
  getAvailablePositionsForPlayer player (filledPositions roster) cfg ≠ [].

(** The eight slots of a roster, and the total of the filled-counts. *)
Definition slots : list Position := [C; LW; RW; D; G; F; UTIL; BENCH].

Definition sumCounts (cs : PositionCounts) : Z :=
  nC cs + nLW cs + nRW cs + nD cs + nG cs + nF cs + nUTIL cs + nBENCH cs.

(** The invariant of [TeamRoster]: no filled-count above its capacity. *)
Definition withinCapacity (filled : PositionCounts) (cfg : RosterConfig) : Prop :=
  nC filled ≤ nC cfg ∧ nLW filled ≤ nLW cfg ∧ nRW filled ≤ nRW cfg
  ∧ nD filled ≤ nD cfg ∧ nG filled ≤ nG cfg ∧ nF filled ≤ nF cfg
  ∧ nUTIL filled ≤ nUTIL cfg ∧ nBENCH filled ≤ nBENCH cfg.

(** [assignPlayerToRoster] called for each player in turn on one roster:
    the results of the calls and the roster after the last one. *)
Fixpoint assignAll (players : list DraftPlayer) (roster : TeamRoster)
    (cfg : RosterConfig) : list (option Position) * TeamRoster :=
  match players with
  | [] => ([], roster)
  | p :: ps =>
    let r := assignPlayerToRoster p roster cfg in
    let rs := assignAll ps r.2 cfg in
    (r.1 :: rs.1, rs.2)
  end.

(** The number of calls that returned a position. *)
Definition placed (results : list (option Position)) : Z :=
  Z.of_nat (length (filter is_Some results)).

(** The guard of [MAKE_PICK] and [AUTO_PICK]: there is no current slot, or
    it is filled already. *)
Definition staleSlot (state : DraftState) : Prop :=
  match at_index (draftOrder state) (currentPickIndex state) with
  | None => True
  | Some currentPick => is_Some (DraftPick.player currentPick)
  end.

(** The current slot is in range and unfilled. *)
Definition onTheClock (state : DraftState) (currentPick : DraftPick.t) : Prop :=
  at_index (draftOrder state) (currentPickIndex state) = Some currentPick
  ∧ DraftPick.player currentPick = None.

(** The team sequence of round [r]: the team indices of the picks of that
    round, in the order of the picks. *)
Definition roundTeams (order : list DraftPick.t) (r : Z) : list Z :=
  DraftPick.teamIndex <$> filter (λ p, DraftPick.round p = r) order.

(** ** Closed forms used in the proofs *)

(** The outcome of an assignment as a cascade of tests. *)
Definition cascade (player : DraftPlayer) (roster : TeamRoster) (cfg : RosterConfig)
    : option Position :=
  if holds player C && hasCapacity roster cfg C then Some C
  else if holds player LW && hasCapacity roster cfg LW then Some LW
  else if holds player RW && hasCapacity roster cfg RW then Some RW
  else if holds player D && hasCapacity roster cfg D then Some D
  else if holds player G && hasCapacity roster cfg G then Some G
  else if isForward player && hasCapacity roster cfg F then Some F
  else if hasCapacity roster cfg UTIL then Some UTIL
  else if hasCapacity roster cfg BENCH then Some BENCH
  else None.

(** The pick at place [pickInRound] of round [round]. *)
Definition teamOf (numTeams round pickInRound : Z) : Z :=
  if Z.rem round 2 =? 0 then numTeams - pickInRound else pickInRound - 1.

Definition slotOf (numTeams userDraftPosition round pickInRound : Z) : DraftPick.t :=
  DraftPick.mk ((round - 1) * numTeams + pickInRound) round pickInRound
               (teamOf numTeams round pickInRound) None None
               (teamOf numTeams round pickInRound =? userDraftPosition - 1).

Definition roundSlots (numTeams userDraftPosition round : Z) : list DraftPick.t :=
  slotOf numTeams userDraftPosition round <$> seqZ 1 numTeams.

(** The teams and the state after a pick on an open slot, when the league
    settings are in place. *)
Definition teamsAfterPick (cfg : RosterConfig) (currentPick : DraftPick.t)
    (player : DraftPlayer) (rosters : list TeamRoster) : list TeamRoster :=
  imap (λ idx team,
          if bool_decide (Z.of_nat idx ≠ DraftPick.teamIndex currentPick) then team
          else (assignPlayerToRoster player (withPick team player) cfg).2)
       rosters.

Definition stateAfterPick (now : Z) (state : DraftState) (ls : LeagueSettings)
    (currentPick : DraftPick.t) (player : DraftPlayer) : DraftState :=
  mkState (leagueSettings state) (allPlayers state)
          (filter (λ p, playerId p ≠ playerId player) (availablePlayers state))
          (<[Z.to_nat (currentPickIndex state) := filledSlot currentPick player now]>
             (draftOrder state))
          (currentPickIndex state + 1)
          (teamsAfterPick (rosterConfig ls) currentPick player (teams state))
          (draftTimerSeconds ls)
          (userPickAt (at_index (draftOrder state) (currentPickIndex state + 1)))
          (currentTab state) (isDraftStarted state)
          (Z.of_nat (length (draftOrder state)) <=? currentPickIndex state + 1).

(** The candidates [selectCPUPick] scores: the players that fill a critical
    need when there are critical needs, more than half of the picks are made
    and such players exist, else the whole pool. *)
Definition cpuCandidates (pool : list DraftPlayer) (roster : TeamRoster)
    (cfg : RosterConfig) : list DraftPlayer :=
  let those := List.filter (fillsCritical (criticalPositions roster cfg)) pool in
  if (hasCriticalPositionalNeeds roster cfg).1
     && overHalf (Z.of_nat (length (picks roster))) (calculateTotalRounds cfg)
     && (0 <? Z.of_nat (length those))
  then those else pool.

(** The order the sort leaves the scored players in: no entry scores
    above an entry before it. *)
Definition scoredBelow (a b : DraftPlayer * Q) : Prop := (b.2 <= a.2)%Q.

(** A session: the actions dispatched, each with the time of its
    transition, run from [initialState]. *)
Fixpoint runActions (state : DraftState) (actions : list (Z * DraftAction)) : Outcome :=
  match actions with
  | [] => Next state
  | (now, action) :: rest =>
    match draftReducer now state action with
    | Next state' => runActions state' rest
    | Throws => Throws
    end
  end.

Definition sessionAfter (actions : list (Z * DraftAction)) : DraftState :=
  match runActions initialState actions with
  | Next state => state
  | Throws => initialState
  end.

(** ** Concrete players, rosters and sessions *)

Definition dualCenter : DraftPlayer :=
  mkPlayer "8478402" "Connor McDavid" "EDM" "C/LW" [C; LW] (11 # 10) 99 1.
Definition centerA : DraftPlayer :=
  mkPlayer "8477492" "Nathan MacKinnon" "COL" "C" [C] (2 # 1) 99 2.
Definition centerB : DraftPlayer :=
  mkPlayer "8479318" "Auston Matthews" "TOR" "C" [C] (3 # 1) 99 3.
Definition goalieA : DraftPlayer :=
  mkPlayer "8476883" "Andrei Vasilevskiy" "TBL" "G" [G] (30 # 1) 98 30.
Definition goalieB : DraftPlayer :=
  mkPlayer "8478009" "Ilya Sorokin" "NYI" "G" [G] (41 # 1) 97 41.

(** A roster with its one C slot filled and an open LW slot. *)
Definition centerFilled : TeamRoster :=
  mkRoster 0 "Your Team" true [] (mkCounts 1 0 0 0 0 0 0 0).
Definition smallConfig : RosterConfig := mkCounts 1 1 0 0 0 1 1 1.

(** Two rounds: one center and one goalie per team. *)
Definition centerGoalieConfig : RosterConfig := mkCounts 1 0 0 0 1 0 0 0.
Definition emptyRoster : TeamRoster := mkRoster 1 "Team 2" false [] emptyCounts.

(** A team that has drafted one goalie into its G slot. *)
Definition goalieTeam : TeamRoster :=
  mkRoster 1 "Team 2" false [goalieA] (mkCounts 0 0 0 0 1 0 0 0).

(** The default roster of the setup page, with two G slots, and the same
    roster without a G slot. *)
Definition defaultConfig : RosterConfig := mkCounts 2 2 2 4 2 1 1 5.
Definition noGoalieConfig : RosterConfig := mkCounts 2 2 2 4 0 1 1 5.

(** A league of two teams with the user at position 1; the order of the
    four picks is team 0, team 1, team 1, team 0. *)
Definition duelSettings : LeagueSettings :=
  mkSettings 2 snake 1 60 centerGoalieConfig.

Definition duelStart : list (Z * DraftAction) :=
  [(0, INITIALIZE_LEAGUE duelSettings [centerA; centerB; goalieA; goalieB]);
   (1, START_DRAFT)].

Definition firstSlot : DraftPick.t := DraftPick.mk 1 1 1 0 None None true.
Definition secondSlot : DraftPick.t := DraftPick.mk 2 1 2 1 None None false.
Definition thirdSlot : DraftPick.t := DraftPick.mk 3 2 1 1 None None false.

Definition duelFinished : list (Z * DraftAction) :=
  duelStart ++ [(2, MAKE_PICK centerA); (3, MAKE_PICK goalieA);
                (4, MAKE_PICK centerB); (5, MAKE_PICK goalieB)].

Definition emptyPoolStart : list (Z * DraftAction) :=
  [(0, INITIALIZE_LEAGUE duelSettings [])].

(** Team 1 has taken a goalie, is [goalieTeam] now, and is on the clock
    again. *)
Definition duelTwoPicks : list (Z * DraftAction) :=
  duelStart ++ [(2, MAKE_PICK centerA); (3, MAKE_PICK goalieA)].

(** The user has taken [centerA] and team 1 is on the clock. *)
Definition duelOnePick : list (Z * DraftAction) :=
  duelStart ++ [(2, MAKE_PICK centerA)].

(** Team 1, a CPU team, has taken a center and is on the clock again. *)
Definition cpuTurn : list (Z * DraftAction) :=
  duelStart ++ [(2, MAKE_PICK goalieB); (3, MAKE_PICK centerA)].
Definition cpuTeam : TeamRoster :=
  mkRoster 1 "Team 2" false [centerA] (mkCounts 1 0 0 0 0 0 0 0).

Definition autoPool : list DraftPlayer := [centerB; goalieB; centerA].

(** Three rounds, two of them made: the goalie is the critical need. *)
Definition flexConfig : RosterConfig := mkCounts 1 0 0 0 1 1 0 0.
Definition flexTeam : TeamRoster :=
  mkRoster 1 "Team 2" false [centerA; centerB] (mkCounts 1 0 0 0 0 1 0 0).
Definition flexPool : list DraftPlayer := [dualCenter; goalieA].

(** The end-to-end scenario of the specification: four teams, one center
    and one defenseman each, the user at position 1. *)
Definition fourTeamSettings : LeagueSettings :=
  mkSettings 4 snake 1 60 (mkCounts 1 0 0 1 0 0 0 0).

Definition fourTeamStart (pool : list DraftPlayer) : DraftState :=
  sessionAfter [(0, INITIALIZE_LEAGUE fourTeamSettings pool)].

Definition picksOf (drafted : list DraftPlayer) : list (Z * DraftAction) :=
  (λ p, (1, MAKE_PICK p)) <$> drafted.

(** ** The rest of the engine ([utils/draftEngine.ts]) *)

(** [totalSpots > 0 ? (filledSpots / totalSpots) * 100 : 0] *)
Definition getRosterCompletion (roster : TeamRoster) (rosterConfig : RosterConfig) : Q :=
  let totalSpots := calculateTotalRounds rosterConfig in
  let filledSpots := Z.of_nat (length (picks roster)) in
  if 0 <? totalSpots
  then (inject_Z filledSpots / inject_Z totalSpots * 100)%Q
  else 0%Q.

(** What [slice] makes of an index: a negative one counts from the end,
    and both ends are clipped to the array. *)
Definition sliceIndex (len i : Z) : Z :=
  if i <? 0 then Z.max (len + i) 0 else Z.min i len.

(** [arr.slice(start, end)] *)
Definition slice {A : Type} (arr : list A) (start stop : Z) : list A :=
  let len := Z.of_nat (length arr) in
  let k := sliceIndex len start in
  let final := sliceIndex len stop in
  take (Z.to_nat (final - k)) (drop (Z.to_nat k) arr).

Module PickInfo.
Record t : Type := mk {
  currentPick : option DraftPick.t;
  nextPicks : list DraftPick.t;
  isUserTurn : bool
}.
End PickInfo.

Definition getCurrentPickInfo (currentPickIndex : Z) (draftOrder : list DraftPick.t)
    : PickInfo.t :=
  let currentPick := at_index draftOrder currentPickIndex in
  let nextPicks := slice draftOrder (currentPickIndex + 1) (currentPickIndex + 4) in
  PickInfo.mk currentPick nextPicks (userPickAt currentPick).

(** ** Recommendations ([utils/cpuDraftLogic.ts]) *)

(** A position as the string it is. *)
Definition positionString (pos : Position) : string :=
  match pos with
  | C => "C" | LW => "LW" | RW => "RW" | D => "D" | G => "G"
  | F => "F" | UTIL => "UTIL" | BENCH => "BENCH"
  | Other tok => tok
  end.

(** [positions.join(', ')] *)
Definition joinComma (ps : list Position) : string :=
  String.concat ", " (positionString <$> ps).

Module Recommendation.
Record t : Type := mk {
  player : DraftPlayer;
  reason : string;
  score : Q
}.
End Recommendation.

(** The reason of a recommendation, by the precedence of the source. *)
Definition recommendationReason (player : DraftPlayer) (needs : PositionCounts)
    (cps : list Position) (currentPickNumber : Z) : string :=
  if fillsCritical cps player
  then "Fills critical need: "
       +:+ joinComma (List.filter (λ pos, includes (positions player) pos) cps)
  else if Qle_bool (espnADP player) (inject_Z (currentPickNumber + 10))
  then "Best available (great value)"
  else if Qle_bool (espnADP player) (inject_Z (currentPickNumber + 20))
  then "Good value at this pick"
  else
    let filledPositions :=
      List.filter (λ pos, pos_read (count_get needs pos)) (positions player) in
    if 0 <? Z.of_nat (length filledPositions)
    then "Fills need: " +:+ joinComma filledPositions
    else "Best available".

(** [scoredPlayers.sort((a, b) => b.score - a.score)] on recommendations:
    the stable sort of [sortByScore]. *)
Fixpoint insertRecommendation (a : Recommendation.t) (sorted : list Recommendation.t)
    : list Recommendation.t :=
  match sorted with
  | [] => [a]
  | b :: rest =>
    if Qle_bool (Recommendation.score b) (Recommendation.score a)
    then a :: b :: rest else b :: insertRecommendation a rest
  end.

Definition sortRecommendations (scoredPlayers : list Recommendation.t)
    : list Recommendation.t :=
  foldr insertRecommendation [] scoredPlayers.

(** [rnd i] is the value of [Math.random()] in the call of
    [scorePlayerForCPU] for the player at index [i]. *)
Definition getDraftRecommendations (availablePlayers : list DraftPlayer)
    (roster : TeamRoster) (rosterConfig : RosterConfig) (currentPickNumber : Z)
    (count : Z) (rnd : nat → Q) : list Recommendation.t :=
  match availablePlayers with
  | [] => []
  | _ =>
    let needs := getPositionalNeeds roster rosterConfig in
    let cps := (hasCriticalPositionalNeeds roster rosterConfig).2 in
    let scoredPlayers :=
      imap (λ i player,
              let score := scorePlayerForCPU player roster rosterConfig
                             currentPickNumber DEFAULT_CPU_WEIGHTS (rnd i) in
              Recommendation.mk player
                (recommendationReason player needs cps currentPickNumber) score)
           availablePlayers in
    slice (sortRecommendations scoredPlayers) 0 count
  end.

(** ** The callers of the reducer *)

(** What a callback does with the reducer: it dispatches an action or
    nothing, or it raises ([DraftContext.tsx], [processCPUPick]). *)
Inductive Dispatch : Type :=
  | Dispatches (action : option DraftAction)
  | Raises.

Definition processCPUPick (state : DraftState) (rnd : nat → Q) : Dispatch :=
  match at_index (draftOrder state) (currentPickIndex state) with
  | None => Dispatches None
  | Some currentPick =>
    match DraftPick.player currentPick with
    | Some _ => Dispatches None
    | None =>
      let team := at_index (teams state) (DraftPick.teamIndex currentPick) in
      match leagueSettings state with
      | None => Raises
      | Some ls =>
        match team with
        | Some roster =>
          Dispatches (MAKE_PICK <$> selectCPUPick (availablePlayers state) roster
                                     (rosterConfig ls)
                                     (DraftPick.overallPick currentPick)
                                     DEFAULT_CPU_WEIGHTS rnd)
        | None =>
          match availablePlayers state with
          | [] => Dispatches None
          | _ => Raises
          end
        end
      end
    end
  end.

(** The condition under which the provider schedules [processCPUPick]. *)
Definition cpuOnTheClock (state : DraftState) : bool :=
  isDraftStarted state && negb (isDraftComplete state)
  && (currentPickIndex state <? Z.of_nat (length (draftOrder state)))
  && match at_index (draftOrder state) (currentPickIndex state) with
     | Some currentPick =>
       negb (DraftPick.isUserPick currentPick)
       && match DraftPick.player currentPick with None => true | Some _ => false end
     | None => false
     end.

(** [AvailablePlayers.tsx], [handleDraftPlayer]. *)
Definition handleDraftPlayer (state : DraftState) (player : DraftPlayer)
    : option DraftAction :=
  let info := getCurrentPickInfo (currentPickIndex state) (draftOrder state) in
  if negb (PickInfo.isUserTurn info) || isDraftComplete state then None
  else Some (MAKE_PICK player).

(** [DraftBoard.tsx], [teamStats]: the filled slots of a team and their
    number. *)
Definition teamPicks (order : list DraftPick.t) (team : TeamRoster) : list DraftPick.t :=
  filter (λ p, DraftPick.teamIndex p = teamIndex team ∧ is_Some (DraftPick.player p))
         order.

Definition pickCount (order : list DraftPick.t) (team : TeamRoster) : Z :=
  Z.of_nat (length (teamPicks order team)).

(** [MyTeam.tsx]: [draftOrder.filter(p => p.isUserPick && !p.player).length] *)
Definition remainingUserPicks (order : list DraftPick.t) : Z :=
  Z.of_nat (length (filter (λ p, DraftPick.isUserPick p = true
                                 ∧ DraftPick.player p = None) order)).

(** [DraftSetup.tsx], [validateSettings]: the message of the first check
    that fails, or [None] for [null]. *)
Definition validateSettings (numTeams userDraftPosition : Z) (rosterConfig : RosterConfig)
    : option string :=
  let totalRounds := calculateTotalRounds rosterConfig in
  if (numTeams <? 2) || (16 <? numTeams)
  then Some "Number of teams must be between 2 and 16"
  else if (userDraftPosition <? 1) || (numTeams <? userDraftPosition)
  then Some ("Draft position must be between 1 and " +:+ pretty numTeams)
  else if totalRounds <? 1
  then Some "Roster must have at least 1 position"
  else if 30 <? totalRounds
  then Some "Roster size is too large (max 30 rounds)"
  else None.

(** ** Invariants of a session *)

(** A slot with its pick taken out. *)
Definition eraseSlot (p : DraftPick.t) : DraftPick.t :=
  DraftPick.mk (DraftPick.overallPick p) (DraftPick.round p) (DraftPick.pickInRound p)
               (DraftPick.teamIndex p) None None (DraftPick.isUserPick p).

(** What never changes of a team. *)
Definition teamHeader (team : TeamRoster) : Z * string * bool :=
  (teamIndex team, teamName team, isUser team).

(** The players drafted in the slots of team [t], in the order of the
    slots. *)
Definition playersOf (order : list DraftPick.t) (t : Z) : list DraftPlayer :=
  omap DraftPick.player (filter (λ p, DraftPick.teamIndex p = t) order).

(** Before [INITIALIZE_LEAGUE] and after [RESET_DRAFT]. *)
Definition unconfigured (state : DraftState) : Prop :=
  leagueSettings state = None ∧ draftOrder state = [] ∧ teams state = []
  ∧ allPlayers state = [] ∧ availablePlayers state = []
  ∧ currentPickIndex state = 0 ∧ isDraftComplete state = false.

(** From [INITIALIZE_LEAGUE] on. *)
Record configured (ls : LeagueSettings) (state : DraftState) : Prop := mkConfigured {
  cfg_settings : leagueSettings state = Some ls;
  cfg_order :
    eraseSlot <$> draftOrder state
    = generateSnakeDraftOrder (numTeams ls) (calculateTotalRounds (rosterConfig ls))
                              (userDraftPosition ls);
  cfg_teams :
    teamHeader <$> teams state
    = teamHeader <$> initializeTeamRosters (numTeams ls) (userDraftPosition ls);
  cfg_index : 0 ≤ currentPickIndex state ≤ Z.of_nat (length (draftOrder state));
  cfg_filled : ∀ (i : nat) p,
    draftOrder state !! i = Some p →
    (is_Some (DraftPick.player p) ↔ Z.of_nat i < currentPickIndex state);
  cfg_stamped : ∀ p,
    p ∈ draftOrder state →
    (is_Some (DraftPick.timestamp p) ↔ is_Some (DraftPick.player p));
  cfg_picks : ∀ (t : nat) team,
    teams state !! t = Some team →
    picks team = playersOf (draftOrder state) (Z.of_nat t);
  cfg_counts : ∀ team,
    team ∈ teams state →
    withinCapacity emptyCounts (filledPositions team)
    ∧ sumCounts (filledPositions team) ≤ Z.of_nat (length (picks team))
    ∧ (withinCapacity emptyCounts (rosterConfig ls) →
       withinCapacity (filledPositions team) (rosterConfig ls));
  cfg_pool : availablePlayers state `sublist_of` allPlayers state;
  cfg_drafted : ∀ slot p q,
    slot ∈ draftOrder state → DraftPick.player slot = Some p →
    q ∈ availablePlayers state → playerId q ≠ playerId p;
  cfg_parsed :
    Forall (λ p, positions p = parsePositions (positionCode p)) (allPlayers state);
  cfg_complete :
    isDraftComplete state = true
    ↔ 0 < currentPickIndex state
      ∧ Z.of_nat (length (draftOrder state)) ≤ currentPickIndex state
}.

Definition sessionInvariant (state : DraftState) : Prop :=
  unconfigured state ∨ ∃ ls, configured ls state.

(** The order the sort leaves the recommendations in. *)
Definition rankedBelow (a b : Recommendation.t) : Prop :=
  (Recommendation.score b <= Recommendation.score a)%Q.

(** A recommendation as the scored player [selectCPUPick] sorts. *)
Definition scoredPlayer (r : Recommendation.t) : DraftPlayer * Q :=
  (Recommendation.player r, Recommendation.score r).

(** ** The setup page ([components/MockDraft/DraftSetup.tsx]) *)

(** [{ ...prev, [position]: value }]: the form calls it with the eight
    keys of the object only, so the case [Other] is never run. *)
Definition count_set (cs : PositionCounts) (pos : Position) (v : Z) : PositionCounts :=
  match pos with
  | C => mkCounts v (nLW cs) (nRW cs) (nD cs) (nG cs) (nF cs) (nUTIL cs) (nBENCH cs)
  | LW => mkCounts (nC cs) v (nRW cs) (nD cs) (nG cs) (nF cs) (nUTIL cs) (nBENCH cs)
  | RW => mkCounts (nC cs) (nLW cs) v (nD cs) (nG cs) (nF cs) (nUTIL cs) (nBENCH cs)
  | D => mkCounts (nC cs) (nLW cs) (nRW cs) v (nG cs) (nF cs) (nUTIL cs) (nBENCH cs)
  | G => mkCounts (nC cs) (nLW cs) (nRW cs) (nD cs) v (nF cs) (nUTIL cs) (nBENCH cs)
  | F => mkCounts (nC cs) (nLW cs) (nRW cs) (nD cs) (nG cs) v (nUTIL cs) (nBENCH cs)
  | UTIL => mkCounts (nC cs) (nLW cs) (nRW cs) (nD cs) (nG cs) (nF cs) v (nBENCH cs)
  | BENCH => mkCounts (nC cs) (nLW cs) (nRW cs) (nD cs) (nG cs) (nF cs) (nUTIL cs) v
  | Other _ => cs
  end.

(** [value] is the integer read from the field; the [NaN] of a field left
    empty is not modelled. *)
Definition handleRosterChange (prev : RosterConfig) (position : Position) (value : Z)
    : RosterConfig :=
  count_set prev position (Z.max 0 value).

(** The roster the form holds after a series of changes, from the default
    roster on. *)
Definition rosterAfter (changes : list (Position * Z)) : RosterConfig :=
  foldl (λ prev change, handleRosterChange prev change.1 change.2) defaultConfig changes.




(** * Properties *)

(** Case analysis on the tests of a cascade of conditionals. *)
Ltac case_ifs :=
  repeat match goal with
         | |- context [if ?b then _ else _] => destruct b eqn:?; try reflexivity
         end.

(** ** Roster assignment *)

Lemma includes_true {A : Type} `{EqDecision A} (arr : list A) (x : A) :
  includes arr x = true ↔ x ∈ arr.
Proof. unfold includes. apply bool_decide_eq_true. Qed.

Section RosterAssignment.
Variables (player : DraftPlayer) (roster : TeamRoster) (cfg : RosterConfig).

Lemma isForward_holds :
  isForward player = holds player C || holds player LW || holds player RW.
Proof.
  unfold isForward, holds.
  apply eq_true_iff_eq. rewrite existsb_exists, !orb_true_iff, !includes_true.
  split.
  - intros (p & Hin & Hp). apply list_elem_of_In in Hin. apply includes_true in Hp.
    repeat (apply elem_of_cons in Hp as [->|Hp]); [tauto..|inversion Hp].
  - intros [[H|H]|H]; eexists; (split; [apply list_elem_of_In, H|]);
      reflexivity.
Qed.

(** What [available.includes(pos)] tests. *)
Lemma includes_available (pos : Position) :
  includes (getAvailablePositionsForPlayer player (filledPositions roster) cfg) pos =
  match pos with
  | BENCH => hasCapacity roster cfg BENCH
  | Other _ => false
  | _ => canFillPosition player pos && hasCapacity roster cfg pos
  end.
Proof.
  unfold getAvailablePositionsForPlayer.
  set (keep := λ pos, _ && _).
  assert (Hf : ∀ p, p ∈ List.filter keep positionTypes ↔ p ∈ positionTypes ∧ keep p = true).
  { intros p. rewrite !list_elem_of_In. apply filter_In. }
  apply eq_true_iff_eq. rewrite includes_true.
  change (hasCapacity roster cfg BENCH)
    with (nBENCH (filledPositions roster) <? nBENCH cfg).
  assert (Hin : ∀ p, p ∈ positionTypes ↔
                     p = C ∨ p = LW ∨ p = RW ∨ p = D ∨ p = G ∨ p = F ∨ p = UTIL).
  { intros p. unfold positionTypes. rewrite !elem_of_cons, elem_of_nil. tauto. }
  destruct (nBENCH (filledPositions roster) <? nBENCH cfg);
    rewrite ?elem_of_app, Hf, Hin, ?list_elem_of_singleton;
    unfold keep, hasCapacity; destruct pos; simpl;
    intuition (discriminate || auto 10).
Qed.

Lemma assign_cascade :
  assignPlayerToRoster player roster cfg =
  (cascade player roster cfg,
   from_option (fill roster) roster (cascade player roster cfg)).
Proof.
  unfold assignPlayerToRoster, cascade.
  pose proof includes_available as Hav.
  set (av := getAvailablePositionsForPlayer _ _ _) in *.
  assert (Hnil : av = [] → ∀ pos, includes av pos = false).
  { intros -> pos. reflexivity. }
  assert (Hhd : ∀ a l, av = a :: l → includes av a = true).
  { intros a l ->. apply includes_true. left. }
  unfold primaryPositions, List.find.
  fold (holds player C) (holds player LW) (holds player RW)
       (holds player D) (holds player G).
  destruct av as [|a l] eqn:Eav.
  - specialize (Hnil eq_refl).
    pose proof (Hav C) as HC; pose proof (Hav LW) as HLW; pose proof (Hav RW) as HRW;
    pose proof (Hav D) as HD; pose proof (Hav G) as HG; pose proof (Hav F) as HF;
    pose proof (Hav UTIL) as HU; pose proof (Hav BENCH) as HB.
    rewrite Hnil in HC, HLW, HRW, HD, HG, HF, HU, HB. simpl in *.
    fold (holds player C) in HC. fold (holds player LW) in HLW.
    fold (holds player RW) in HRW. fold (holds player D) in HD.
    fold (holds player G) in HG.
    rewrite <- HC, <- HLW, <- HRW, <- HD, <- HG, <- HF, <- HU, <- HB. reflexivity.
  - specialize (Hhd a l eq_refl). rewrite <- Eav in *. clear Hnil.
    rewrite !Hav. rewrite Hav in Hhd. simpl canFillPosition.
    fold (holds player C) (holds player LW) (holds player RW)
         (holds player D) (holds player G).
    assert (Hand : ∀ b c : bool, b && (b && c) = b && c) by (intros [] []; reflexivity).
    rewrite !Hand.
    assert (Hfwd : ∀ b c : bool, b && c && b = b && c) by (intros [] []; reflexivity).
    rewrite Hfwd, andb_true_l.
    destruct (holds player C && hasCapacity roster cfg C) eqn:EC; [reflexivity|].
    destruct (holds player LW && hasCapacity roster cfg LW) eqn:ELW; [reflexivity|].
    destruct (holds player RW && hasCapacity roster cfg RW) eqn:ERW; [reflexivity|].
    destruct (holds player D && hasCapacity roster cfg D) eqn:ED; [reflexivity|].
    destruct (holds player G && hasCapacity roster cfg G) eqn:EG; [reflexivity|].
    destruct (isForward player && hasCapacity roster cfg F) eqn:EF; [reflexivity|].
    destruct (hasCapacity roster cfg UTIL) eqn:EU; [reflexivity|].
    destruct (hasCapacity roster cfg BENCH) eqn:EB; [reflexivity|].
    destruct a; simpl in Hhd; unfold holds in *; congruence.
Qed.

Lemma cascade_spec : cascade player roster cfg = specAssign player roster cfg.
Proof.
  unfold cascade, specAssign, specCandidates. rewrite isForward_holds.
  simpl List.filter. case_ifs.
Qed.

Lemma cascade_None :
  cascade player roster cfg = None ↔
  (∀ pos, pos ∈ primaryPositions → holds player pos = true →
          hasCapacity roster cfg pos = false)
  ∧ (holds player C || holds player LW || holds player RW = true →
     hasCapacity roster cfg F = false)
  ∧ hasCapacity roster cfg UTIL = false
  ∧ hasCapacity roster cfg BENCH = false.
Proof.
  unfold cascade. rewrite isForward_holds. split.
  - intros Hc.
    destruct (holds player C && _) eqn:EC; [discriminate|].
    destruct (holds player LW && _) eqn:ELW; [discriminate|].
    destruct (holds player RW && _) eqn:ERW; [discriminate|].
    destruct (holds player D && _) eqn:ED; [discriminate|].
    destruct (holds player G && _) eqn:EG; [discriminate|].
    destruct (_ && hasCapacity roster cfg F) eqn:EF; [discriminate|].
    destruct (hasCapacity roster cfg UTIL) eqn:EU; [discriminate|].
    destruct (hasCapacity roster cfg BENCH) eqn:EB; [discriminate|].
    repeat split; try reflexivity.
    + intros pos Hin Hh. unfold primaryPositions in Hin.
      repeat (apply elem_of_cons in Hin as [->|Hin]);
        try (rewrite Hh in *; simpl in *; assumption).
      inversion Hin.
    + intros Hf. rewrite Hf in EF. exact EF.
  - intros (Hprim & HF & -> & ->).
    assert (Hp : ∀ pos, pos ∈ primaryPositions →
                        holds player pos && hasCapacity roster cfg pos = false).
    { intros pos Hin. destruct (holds player pos) eqn:Hh; [|reflexivity].
      simpl. apply Hprim; assumption. }
    rewrite !Hp by (unfold primaryPositions; rewrite !elem_of_cons; tauto).
    destruct (holds player C || holds player LW || holds player RW) eqn:Hf.
    + rewrite HF; reflexivity.
    + reflexivity.
Qed.

Lemma cascade_slot pos :
  cascade player roster cfg = Some pos →
  pos ∈ slots ∧ hasCapacity roster cfg pos = true.
Proof.
  unfold cascade, slots.
  case_ifs; intros [= <-]; (split; [rewrite !elem_of_cons; tauto|]);
    repeat match goal with
           | H : _ && _ = true |- _ => apply andb_true_iff in H as [? ?]
           end; assumption.
Qed.

(** One call: a position with room is returned and the roster is filled
    there, or no slot is returned and the roster is left as it was. *)
Lemma assign_one :
  match (assignPlayerToRoster player roster cfg).1 with
  | Some pos =>
      pos ∈ slots
      ∧ hasCapacity roster cfg pos = true
      ∧ (assignPlayerToRoster player roster cfg).2 = fill roster pos
  | None => (assignPlayerToRoster player roster cfg).2 = roster
  end.
Proof.
  rewrite assign_cascade. simpl.
  destruct (cascade player roster cfg) as [pos|] eqn:Ec; [|reflexivity].
  apply cascade_slot in Ec as [? ?]. auto.
Qed.

Lemma picks_assign : picks (assignPlayerToRoster player roster cfg).2 = picks roster.
Proof.
  rewrite assign_cascade. simpl. destruct (cascade player roster cfg); reflexivity.
Qed.

End RosterAssignment.

(** C1: for every player and roster, [assignPlayerToRoster] returns the
    first slot of the priority order C, LW, RW, D, G (each only when the
    player holds it and its filled-count is below its capacity), then F
    (when the player holds one of C, LW, RW and F has room), then UTIL, then
    BENCH (when they have room); it returns no slot exactly when none of
    these has room for the player; a player who holds C and LW, with C full
    and LW open, is assigned LW. *)
Theorem assignPlayerToRoster_priority player roster cfg :
  (assignPlayerToRoster player roster cfg).1 = specAssign player roster cfg
  ∧ ((assignPlayerToRoster player roster cfg).1 = None ↔
       (∀ pos, pos ∈ primaryPositions → holds player pos = true →
               hasCapacity roster cfg pos = false)
       ∧ (holds player C || holds player LW || holds player RW = true →
          hasCapacity roster cfg F = false)
       ∧ hasCapacity roster cfg UTIL = false
       ∧ hasCapacity roster cfg BENCH = false)
  ∧ (holds player C = true → holds player LW = true →
     hasCapacity roster cfg C = false → hasCapacity roster cfg LW = true →
     (assignPlayerToRoster player roster cfg).1 = Some LW).
Proof.
  rewrite assign_cascade. simpl. split; [apply cascade_spec|].
  split; [apply cascade_None|].
  intros HC HLW HcC HcLW. unfold cascade. rewrite HC, HLW, HcC, HcLW. reflexivity.
Qed.

Lemma assignPlayerToRoster_priority_witness :
  (assignPlayerToRoster dualCenter centerFilled smallConfig).1 = Some LW.
Proof.
  apply (assignPlayerToRoster_priority dualCenter centerFilled smallConfig);
    reflexivity.
Defined.

Lemma sumCounts_incr cs pos :
  pos ∈ slots → sumCounts (count_incr cs pos) = sumCounts cs + 1.
Proof.
  unfold slots. intros Hin.
  repeat (apply elem_of_cons in Hin as [->|Hin]);
    [unfold sumCounts; simpl; lia ..|inversion Hin].
Qed.

Lemma count_get_incr cs pos q :
  count_get (count_incr cs pos) q =
  if decide (q = pos) then Z.succ <$> count_get cs q else count_get cs q.
Proof.
  destruct (decide (q = pos)) as [->|Hne].
  - destruct pos; reflexivity.
  - destruct pos, q; try reflexivity; congruence.
Qed.

Lemma withinCapacity_fill roster cfg pos :
  hasCapacity roster cfg pos = true →
  withinCapacity (filledPositions roster) cfg →
  withinCapacity (filledPositions (fill roster pos)) cfg.
Proof.
  unfold hasCapacity, withinCapacity.
  destruct pos; simpl; rewrite ?Z.ltb_lt; intros; try discriminate; lia.
Qed.

Lemma assignAll_counts players : ∀ roster cfg,
  sumCounts (filledPositions (assignAll players roster cfg).2)
  = sumCounts (filledPositions roster) + placed (assignAll players roster cfg).1
  ∧ placed (assignAll players roster cfg).1 ≤ Z.of_nat (length players)
  ∧ (withinCapacity (filledPositions roster) cfg →
     withinCapacity (filledPositions (assignAll players roster cfg).2) cfg).
Proof.
  induction players as [|p ps IH]; intros roster cfg.
  - unfold placed. simpl. split; [lia|]. split; [lia|auto].
  - simpl assignAll. cbn [fst snd].
    pose proof (assign_one p roster cfg) as H1.
    destruct (IH (assignPlayerToRoster p roster cfg).2 cfg) as (IHs & IHn & IHw).
    rewrite IHs. unfold placed in *.
    destruct (assignPlayerToRoster p roster cfg).1 as [pos|].
    + destruct H1 as (Hin & Hcap & Hr). rewrite Hr in *.
      rewrite filter_cons_True by eauto. cbn [length fill filledPositions].
      rewrite (sumCounts_incr _ _ Hin).
      split; [lia|]. split; [lia|].
      intros Hw. apply IHw. apply (withinCapacity_fill roster cfg pos Hcap Hw).
    + rewrite H1 in *. rewrite filter_cons_False by (intros [? [=]]).
      cbn [length]. split; [lia|]. split; [lia|]. exact IHw.
Qed.

(** One count through one call: it grows by at most one and does not pass
    a capacity it was within. *)
Lemma assign_per_count player roster cfg pos x c :
  count_get (filledPositions roster) pos = Some x →
  count_get cfg pos = Some c → x ≤ c →
  ∃ x', count_get (filledPositions (assignPlayerToRoster player roster cfg).2) pos
        = Some x'
        ∧ x ≤ x' ≤ c.
Proof.
  intros Hx Hc Hle. pose proof (assign_one player roster cfg) as Hone.
  destruct (assignPlayerToRoster player roster cfg).1 as [pos0|].
  - destruct Hone as (_ & Hcap & ->). cbn [fill filledPositions].
    rewrite count_get_incr. destruct (decide (pos = pos0)) as [->|Hne].
    + unfold hasCapacity in Hcap. rewrite Hx, Hc in Hcap. simpl in Hcap.
      apply Z.ltb_lt in Hcap. rewrite Hx. exists (Z.succ x). split; [reflexivity|lia].
    + exists x. split; [exact Hx|lia].
  - rewrite Hone. exists x. split; [exact Hx|lia].
Qed.

Lemma assignAll_per_count players : ∀ roster cfg pos x c,
  count_get (filledPositions roster) pos = Some x →
  count_get cfg pos = Some c → x ≤ c →
  ∃ x', count_get (filledPositions (assignAll players roster cfg).2) pos = Some x'
        ∧ x ≤ x' ≤ c.
Proof.
  induction players as [|p ps IH]; intros roster cfg pos x c Hx Hc Hle.
  - exists x. split; [exact Hx|lia].
  - simpl assignAll. cbn [snd].
    destruct (assign_per_count p roster cfg pos x c Hx Hc Hle) as (x1 & Hx1 & Hb1).
    destruct (IH (assignPlayerToRoster p roster cfg).2 cfg pos x1 c Hx1 Hc ltac:(lia))
      as (x2 & Hx2 & Hb2).
    exists x2. split; [exact Hx2|lia].
Qed.

(** C9, as stated, fails: with one C slot and one G slot, two centers are
    assigned in turn; the second call finds no slot and increments no
    count, so after two calls the filled-counts add up to one. *)
Lemma assign_without_slot_adds_nothing :
  (assignAll [centerA; centerB] emptyRoster centerGoalieConfig).1 = [Some C; None]
  ∧ sumCounts (filledPositions
                 (assignAll [centerA; centerB] emptyRoster centerGoalieConfig).2) = 1
  ∧ Z.of_nat (length [centerA; centerB]) = 2
  ∧ (assignPlayerToRoster centerB
       (assignPlayerToRoster centerA emptyRoster centerGoalieConfig).2
       centerGoalieConfig).2
    = (assignPlayerToRoster centerA emptyRoster centerGoalieConfig).2.
Proof. repeat split. Qed.

(** C9, amended: a call of [assignPlayerToRoster] that returns a position
    increments the filled-count of exactly that position by exactly 1 and
    changes no other count; a call that returns no slot changes nothing.  So
    after N calls on a roster that starts with all counts at zero, the sum
    of the filled-counts is the number of calls that returned a position,
    which is at most N; and, count by count, every filled-count that was
    at most its capacity before the calls is so after them (and is not
    lower than before), whatever the other counts are. *)
Theorem assign_counts players roster cfg :
  (∀ player,
     match (assignPlayerToRoster player roster cfg).1 with
     | Some pos =>
         pos ∈ slots
         ∧ ∀ q, count_get (filledPositions (assignPlayerToRoster player roster cfg).2) q
                = if decide (q = pos)
                  then Z.succ <$> count_get (filledPositions roster) q
                  else count_get (filledPositions roster) q
     | None => (assignPlayerToRoster player roster cfg).2 = roster
     end)
  ∧ (filledPositions roster = emptyCounts →
     sumCounts (filledPositions (assignAll players roster cfg).2)
     = placed (assignAll players roster cfg).1
     ∧ placed (assignAll players roster cfg).1 ≤ Z.of_nat (length players))
  ∧ (∀ pos x c,
       count_get (filledPositions roster) pos = Some x →
       count_get cfg pos = Some c → x ≤ c →
       ∃ x', count_get (filledPositions (assignAll players roster cfg).2) pos = Some x'
             ∧ x ≤ x' ≤ c)
  ∧ (withinCapacity (filledPositions roster) cfg →
     withinCapacity (filledPositions (assignAll players roster cfg).2) cfg).
Proof.
  split; [|split; [|split]].
  - intros player. pose proof (assign_one player roster cfg) as H1.
    destruct (assignPlayerToRoster player roster cfg).1 as [pos|]; [|exact H1].
    destruct H1 as (Hin & _ & ->). split; [exact Hin|].
    intros q. apply count_get_incr.
  - intros Hzero.
    destruct (assignAll_counts players roster cfg) as (Hsum & Hle & _).
    rewrite Hsum, Hzero. split; [reflexivity|exact Hle].
  - apply assignAll_per_count.
  - apply assignAll_counts.
Qed.

Lemma assign_counts_witness :
  (sumCounts (filledPositions
                (assignAll [centerA; centerB] emptyRoster centerGoalieConfig).2)
   = placed (assignAll [centerA; centerB] emptyRoster centerGoalieConfig).1
   ∧ placed (assignAll [centerA; centerB] emptyRoster centerGoalieConfig).1
     ≤ Z.of_nat (length [centerA; centerB]))
  ∧ (∃ x', count_get (filledPositions
                        (assignAll [centerA; centerB] emptyRoster centerGoalieConfig).2) C
           = Some x'
           ∧ 0 ≤ x' ≤ 1)
  ∧ withinCapacity
      (filledPositions (assignAll [centerA; centerB] emptyRoster centerGoalieConfig).2)
      centerGoalieConfig.
Proof.
  destruct (assign_counts [centerA; centerB] emptyRoster centerGoalieConfig)
    as (_ & Hsum & Hcount & Hcap).
  split; [|split].
  - apply Hsum. reflexivity.
  - apply (Hcount C 0 1); [reflexivity|reflexivity|lia].
  - apply Hcap. unfold withinCapacity. simpl. lia.
Defined.

(** ** Draft order *)

Lemma join_cons' {A : Type} (x : list A) (ls : list (list A)) :
  mjoin (x :: ls) = x ++ mjoin ls.
Proof. reflexivity. Qed.

Section SnakeOrder.
Variables (numTeams userDraftPosition : Z).

(** The inner loop over any list of values of [pickInRound]. *)
Lemma pickStep_foldl round (l : list Z) : ∀ st : OrderLoop,
  foldl (pickStep numTeams userDraftPosition round) st l =
  (st.1 ++ imap (λ j i, DraftPick.mk (st.2 + Z.of_nat j) round i
                          (teamOf numTeams round i) None None
                          (teamOf numTeams round i =? userDraftPosition - 1)) l,
   st.2 + Z.of_nat (length l)).
Proof.
  induction l as [|i l IH]; intros [acc k]; simpl.
  - rewrite app_nil_r. f_equal. lia.
  - rewrite IH. unfold pickStep at 1. simpl. rewrite <- app_assoc. simpl.
    f_equal; [|lia]. f_equal. f_equal.
    + unfold teamOf. rewrite Z.add_0_r. reflexivity.
    + apply imap_ext. intros j x _. simpl. unfold teamOf. f_equal. lia.
Qed.

Lemma length_roundSlots r :
  length (roundSlots numTeams userDraftPosition r) = Z.to_nat numTeams.
Proof. unfold roundSlots. rewrite length_fmap. apply length_seqZ. Qed.

Lemma length_rounds (n : nat) (m : Z) :
  length (mjoin (roundSlots numTeams userDraftPosition <$> seqZ m (Z.of_nat n)))
  = (n * Z.to_nat numTeams)%nat.
Proof.
  revert m. induction n as [|n IH]; intros m; [reflexivity|].
  rewrite seqZ_cons by lia. rewrite fmap_cons, join_cons', length_app.
  replace (Z.pred (Z.of_nat (S n))) with (Z.of_nat n) by lia.
  rewrite IH, length_roundSlots. lia.
Qed.

Lemma filter_roundSlots_same r :
  filter (λ p, DraftPick.round p = r) (roundSlots numTeams userDraftPosition r)
  = roundSlots numTeams userDraftPosition r.
Proof.
  unfold roundSlots. induction (seqZ 1 numTeams) as [|i l IH]; [reflexivity|].
  rewrite fmap_cons, filter_cons_True by reflexivity. f_equal. exact IH.
Qed.

Lemma filter_roundSlots_other r r' :
  r' ≠ r →
  filter (λ p, DraftPick.round p = r) (roundSlots numTeams userDraftPosition r') = [].
Proof.
  intros Hne. unfold roundSlots. induction (seqZ 1 numTeams) as [|i l IH]; [reflexivity|].
  rewrite fmap_cons, filter_cons_False by (simpl; exact Hne). exact IH.
Qed.

Lemma filter_rounds_absent (rounds : list Z) r :
  r ∉ rounds →
  filter (λ p, DraftPick.round p = r)
         (mjoin (roundSlots numTeams userDraftPosition <$> rounds)) = [].
Proof.
  induction rounds as [|r' rounds IH]; intros Hnotin; [reflexivity|].
  apply not_elem_of_cons in Hnotin as [Hne Hnotin].
  rewrite fmap_cons, join_cons', filter_app.
  rewrite filter_roundSlots_other by congruence. apply IH. exact Hnotin.
Qed.

(** The picks of round [r] are the block of that round. *)
Lemma filter_rounds (rounds : list Z) r :
  NoDup rounds → r ∈ rounds →
  filter (λ p, DraftPick.round p = r)
         (mjoin (roundSlots numTeams userDraftPosition <$> rounds))
  = roundSlots numTeams userDraftPosition r.
Proof.
  induction rounds as [|r' rounds IH]; intros Hnd Hin; [inversion Hin|].
  apply NoDup_cons in Hnd as [Hnotin Hnd].
  rewrite fmap_cons, join_cons', filter_app.
  destruct (decide (r' = r)) as [->|Hne].
  - rewrite filter_roundSlots_same, filter_rounds_absent by assumption.
    apply app_nil_r.
  - rewrite filter_roundSlots_other by assumption. simpl.
    apply IH; [assumption|].
    apply elem_of_cons in Hin as [->|Hin]; [congruence|assumption].
Qed.

Lemma teamIndex_roundSlots r :
  DraftPick.teamIndex <$> roundSlots numTeams userDraftPosition r
  = teamOf numTeams r <$> seqZ 1 numTeams.
Proof. unfold roundSlots. rewrite <- list_fmap_compose. reflexivity. Qed.

Lemma ascending_teams : (λ i, i - 1) <$> seqZ 1 numTeams = seqZ 0 numTeams.
Proof.
  rewrite <- (fmap_add_seqZ (-1) 1). apply list_fmap_ext. intros _ i _. lia.
Qed.

Lemma descending_teams :
  (λ i, numTeams - i) <$> seqZ 1 numTeams = reverse (seqZ 0 numTeams).
Proof.
  apply list_eq. intros j.
  rewrite list_lookup_fmap.
  destruct (decide (Z.of_nat j < numTeams)) as [Hlt|Hge].
  - rewrite lookup_seqZ_lt by assumption. simpl.
    rewrite reverse_lookup by (rewrite length_seqZ; lia).
    rewrite length_seqZ, lookup_seqZ_lt by lia. f_equal. lia.
  - rewrite lookup_seqZ_ge by lia. simpl. symmetry.
    apply lookup_ge_None. rewrite length_reverse, length_seqZ. lia.
Qed.

Lemma teamOf_odd r : Z.rem r 2 ≠ 0 → teamOf numTeams r = λ i, i - 1.
Proof. intros H. unfold teamOf. apply Z.eqb_neq in H. rewrite H. reflexivity. Qed.

Lemma teamOf_even r : Z.rem r 2 = 0 → teamOf numTeams r = λ i, numTeams - i.
Proof. intros H. unfold teamOf. rewrite H. reflexivity. Qed.

Hypothesis numTeams_nonneg : 0 ≤ numTeams.

(** One round, entered with the counter at the first pick of the round. *)
Lemma roundStep_closed (acc : list DraftPick.t) (round : Z) :
  roundStep numTeams userDraftPosition (acc, (round - 1) * numTeams + 1) round =
  (acc ++ roundSlots numTeams userDraftPosition round, round * numTeams + 1).
Proof.
  unfold roundStep. rewrite pickStep_foldl. simpl.
  rewrite length_seqZ. f_equal; [|lia].
  f_equal. unfold roundSlots. apply list_eq. intros j.
  rewrite list_lookup_imap, list_lookup_fmap.
  destruct (seqZ 1 numTeams !! j) as [i|] eqn:Hj; [|reflexivity].
  apply lookup_seqZ in Hj as [-> _]. simpl. unfold slotOf. do 2 f_equal. lia.
Qed.

Lemma rounds_foldl (n : nat) :
  foldl (roundStep numTeams userDraftPosition) ([], 1) (seqZ 1 (Z.of_nat n)) =
  (mjoin (roundSlots numTeams userDraftPosition <$> seqZ 1 (Z.of_nat n)),
   Z.of_nat n * numTeams + 1).
Proof.
  induction n as [|n IH].
  - reflexivity.
  - rewrite seqZ_S, foldl_app, IH. simpl.
    replace (Z.of_nat n * numTeams + 1) with ((1 + Z.of_nat n - 1) * numTeams + 1) by lia.
    rewrite roundStep_closed. rewrite fmap_app, join_app. simpl.
    rewrite app_nil_r. f_equal. lia.
Qed.

(** The order is the rounds one after the other, each a block of
    [numTeams] picks. *)
Lemma generateSnakeDraftOrder_closed (numRounds : Z) :
  generateSnakeDraftOrder numTeams numRounds userDraftPosition =
  mjoin (roundSlots numTeams userDraftPosition <$> seqZ 1 numRounds).
Proof.
  unfold generateSnakeDraftOrder.
  destruct (Z_le_gt_dec 0 numRounds) as [Hr|Hr].
  - rewrite <- (Z2Nat.id numRounds Hr), rounds_foldl. reflexivity.
  - rewrite seqZ_nil by lia. reflexivity.
Qed.

Lemma overallPick_roundSlots r :
  DraftPick.overallPick <$> roundSlots numTeams userDraftPosition r
  = seqZ ((r - 1) * numTeams + 1) numTeams.
Proof.
  unfold roundSlots. rewrite <- list_fmap_compose.
  rewrite <- (fmap_add_seqZ ((r - 1) * numTeams) 1).
  apply list_fmap_ext. intros _ i _. reflexivity.
Qed.

Lemma overallPick_rounds (n : nat) :
  DraftPick.overallPick
    <$> mjoin (roundSlots numTeams userDraftPosition <$> seqZ 1 (Z.of_nat n))
  = seqZ 1 (numTeams * Z.of_nat n).
Proof.
  induction n as [|n IH].
  - rewrite Z.mul_0_r. reflexivity.
  - rewrite seqZ_S, fmap_app, join_app, fmap_app, IH. simpl.
    rewrite app_nil_r, overallPick_roundSlots.
    replace (numTeams * Z.of_nat (S n)) with (numTeams * Z.of_nat n + numTeams) by lia.
    rewrite seqZ_app by lia. do 2 f_equal. lia.
Qed.

Lemma roundTeams_generate numRounds r :
  1 ≤ r ≤ numRounds →
  roundTeams (generateSnakeDraftOrder numTeams numRounds userDraftPosition) r
  = if Z.odd r then seqZ 0 numTeams else reverse (seqZ 0 numTeams).
Proof.
  intros Hr. unfold roundTeams.
  rewrite generateSnakeDraftOrder_closed.
  rewrite filter_rounds; [|apply NoDup_seqZ|apply elem_of_seqZ; lia].
  rewrite teamIndex_roundSlots.
  assert (Hrem : Z.rem r 2 = r mod 2) by (apply Z.rem_mod_nonneg; lia).
  destruct (Z.odd r) eqn:Hodd.
  - rewrite teamOf_odd; [apply ascending_teams|].
    rewrite Hrem, Zmod_odd, Hodd. discriminate.
  - rewrite teamOf_even; [apply descending_teams|].
    rewrite Hrem, Zmod_odd, Hodd. reflexivity.
Qed.

End SnakeOrder.

(** C2: for numTeams ≥ 2, numRounds ≥ 1 and a user position in
    [1, numTeams], [generateSnakeDraftOrder] returns numTeams·numRounds
    picks whose [overallPick] numbers are 1, 2, ..., numTeams·numRounds in
    this order; the team indices of an odd round are 0, ..., numTeams-1
    ascending and those of an even round the same descending, so the team
    sequence of round r+1 is the reverse of that of round r; [isUserPick] of
    every pick is [teamIndex == userPosition - 1].  The order is a function
    of the three inputs. *)
Theorem generateSnakeDraftOrder_snake numTeams numRounds userPosition :
  2 ≤ numTeams → 1 ≤ numRounds → 1 ≤ userPosition ≤ numTeams →
  let order := generateSnakeDraftOrder numTeams numRounds userPosition in
  length order = Z.to_nat (numTeams * numRounds)
  ∧ DraftPick.overallPick <$> order = seqZ 1 (numTeams * numRounds)
  ∧ (∀ r, 1 ≤ r ≤ numRounds →
          roundTeams order r
          = if Z.odd r then seqZ 0 numTeams else reverse (seqZ 0 numTeams))
  ∧ (∀ r, 1 ≤ r → r + 1 ≤ numRounds →
          roundTeams order (r + 1) = reverse (roundTeams order r))
  ∧ Forall (λ p, DraftPick.isUserPick p
                 = (DraftPick.teamIndex p =? userPosition - 1)) order.
Proof.
  intros Hn Hr Hu order.
  assert (Hn0 : 0 ≤ numTeams) by lia.
  assert (Hcl := generateSnakeDraftOrder_closed numTeams userPosition Hn0 numRounds).
  fold order in Hcl.
  repeat split.
  - rewrite Hcl, <- (Z2Nat.id numRounds) by lia. rewrite length_rounds. lia.
  - rewrite Hcl, <- (Z2Nat.id numRounds) by lia. apply overallPick_rounds. lia.
  - intros r Hr'. apply roundTeams_generate; lia.
  - intros r Hr1 Hr2. unfold order.
    rewrite !roundTeams_generate by lia.
    rewrite Z.odd_add. simpl.
    destruct (Z.odd r); simpl; [reflexivity|]. symmetry. apply reverse_involutive.
  - rewrite Hcl. apply Forall_forall. intros p Hp.
    apply list_elem_of_join in Hp as (blk & Hp & Hblk).
    apply list_elem_of_fmap in Hblk as (r & -> & _).
    unfold roundSlots in Hp.
    apply list_elem_of_fmap in Hp as (i & -> & _). reflexivity.
Qed.

Lemma generateSnakeDraftOrder_snake_witness :
  roundTeams (generateSnakeDraftOrder 4 2 1) 1 = [0; 1; 2; 3]
  ∧ roundTeams (generateSnakeDraftOrder 4 2 1) 2 = [3; 2; 1; 0]
  ∧ DraftPick.overallPick <$> generateSnakeDraftOrder 4 2 1 = [1; 2; 3; 4; 5; 6; 7; 8].
Proof.
  destruct (generateSnakeDraftOrder_snake 4 2 1) as (_ & Hov & Hteams & _ & _);
    [lia | lia | lia |].
  split; [exact (Hteams 1 ltac:(lia))|].
  split; [exact (Hteams 2 ltac:(lia))|].
  exact Hov.
Defined.

(** ** Draft state machine *)

Lemma at_index_Some {A : Type} (arr : list A) (i : Z) (x : A) :
  at_index arr i = Some x ↔ 0 ≤ i < Z.of_nat (length arr) ∧ arr !! Z.to_nat i = Some x.
Proof.
  unfold at_index. destruct (Z.ltb_spec i 0) as [Hneg|Hpos].
  - split; [discriminate|lia].
  - split.
    + intros H. split; [|exact H]. apply lookup_lt_Some in H. lia.
    + intros [_ H]. exact H.
Qed.

Lemma at_index_insert_eq {A : Type} (arr : list A) (i : Z) (x y : A) :
  at_index arr i = Some y → at_index (<[Z.to_nat i := x]> arr) i = Some x.
Proof.
  intros H. apply at_index_Some in H as [Hi Hy]. apply at_index_Some.
  rewrite length_insert. split; [assumption|].
  apply list_lookup_insert_eq. lia.
Qed.

Lemma at_index_insert_ne {A : Type} (arr : list A) (i j : Z) (x : A) :
  0 ≤ i → j ≠ i → at_index (<[Z.to_nat i := x]> arr) j = at_index arr j.
Proof.
  intros Hi Hne. unfold at_index. destruct (Z.ltb_spec j 0); [reflexivity|].
  apply list_lookup_insert_ne. lia.
Qed.

Lemma filter_all {A : Type} (P : A → Prop) `{∀ x, Decision (P x)} (l : list A) :
  (∀ x, x ∈ l → P x) → filter P l = l.
Proof.
  induction l as [|x l IH]; intros Hall; [reflexivity|].
  rewrite filter_cons_True by (apply Hall; left).
  f_equal. apply IH. intros y Hy. apply Hall. right. exact Hy.
Qed.

(** With the settings in place no team raises. *)
Lemma mapM_updateTeam ls cur player (rosters : list TeamRoster) :
  mapM id (imap (updateTeam (Some ls) cur player) rosters)
  = Some (teamsAfterPick (rosterConfig ls) cur player rosters).
Proof.
  apply mapM_Some. unfold teamsAfterPick.
  apply Forall2_same_length_lookup. split.
  - rewrite !length_imap. reflexivity.
  - intros i x y. rewrite !list_lookup_imap.
    destruct (rosters !! i) as [team|]; simpl; [|discriminate].
    intros [= <-] [= <-]. unfold updateTeam.
    destruct (bool_decide _); reflexivity.
Qed.

Lemma at_index_teamsAfterPick cfg cur player rosters (i : Z) :
  at_index (teamsAfterPick cfg cur player rosters) i
  = (λ team, if decide (i = DraftPick.teamIndex cur)
             then (assignPlayerToRoster player (withPick team player) cfg).2
             else team) <$> at_index rosters i.
Proof.
  unfold at_index, teamsAfterPick.
  destruct (Z.ltb_spec i 0) as [Hneg|Hpos]; [reflexivity|].
  rewrite list_lookup_imap. destruct (rosters !! Z.to_nat i) as [team|]; [|reflexivity].
  simpl. f_equal. rewrite Z2Nat.id by assumption.
  destruct (decide (i = _)) as [->|Hne].
  - rewrite bool_decide_eq_false_2; [reflexivity|]. intros H. apply H. reflexivity.
  - rewrite bool_decide_eq_true_2; [reflexivity|assumption].
Qed.

Section Reducer.
Variables (now : Z) (state : DraftState).

Lemma timerSeconds_settings ls :
  leagueSettings state = Some ls → timerSeconds state = draftTimerSeconds ls.
Proof.
  unfold timerSeconds. intros ->.
  destruct (Z.eqb_spec (draftTimerSeconds ls) 0) as [->|]; reflexivity.
Qed.

(** A pick on an open slot with the settings in place. *)
Lemma makePick_Next ls cur player :
  leagueSettings state = Some ls → onTheClock state cur →
  makePick now state player = Next (stateAfterPick now state ls cur player).
Proof.
  intros Hls [Hcur Hopen]. unfold makePick.
  rewrite Hcur, Hopen, Hls, mapM_updateTeam.
  unfold stateAfterPick. rewrite (timerSeconds_settings ls Hls), Hls. reflexivity.
Qed.

Lemma makePick_stale player : staleSlot state → makePick now state player = Next state.
Proof.
  unfold staleSlot, makePick.
  destruct (at_index _ _) as [cur|]; [|reflexivity].
  intros [p ->]. reflexivity.
Qed.

Lemma autoPick_stale : staleSlot state → autoPick now state = Next state.
Proof.
  unfold staleSlot, autoPick.
  destruct (at_index _ _) as [cur|]; [|reflexivity].
  intros [p ->]. reflexivity.
Qed.

Lemma autoPick_empty_pool ls :
  leagueSettings state = Some ls → availablePlayers state = [] →
  autoPick now state = Next state.
Proof.
  intros Hls Hpool. unfold autoPick.
  destruct (at_index (draftOrder state) _) as [cur|]; [|reflexivity].
  destruct (DraftPick.player cur); [reflexivity|].
  rewrite Hls, Hpool. unfold autoPickPlayer.
  destruct (at_index (teams state) _); reflexivity.
Qed.

(** What a pick can do to the settings and to the length of the order. *)
Lemma makePick_shape player state' :
  makePick now state player = Next state' →
  leagueSettings state' = leagueSettings state
  ∧ length (draftOrder state') = length (draftOrder state).
Proof.
  unfold makePick.
  destruct (at_index _ _) as [cur|]; [|intros [= <-]; auto].
  destruct (DraftPick.player cur); [intros [= <-]; auto|].
  destruct (mapM _ _); [|discriminate].
  intros [= <-]. simpl. split; [reflexivity|apply length_insert].
Qed.

Lemma autoPick_shape state' :
  autoPick now state = Next state' →
  leagueSettings state' = leagueSettings state
  ∧ length (draftOrder state') = length (draftOrder state).
Proof.
  unfold autoPick.
  destruct (at_index _ _) as [cur|]; [|intros [= <-]; auto].
  destruct (DraftPick.player cur); [intros [= <-]; auto|].
  destruct (leagueSettings state) as [ls|] eqn:Hls; [|discriminate].
  destruct (autoPickPlayer _ _ _) as [[p|]|]; [| intros [= <-]; auto | discriminate].
  intros H. apply makePick_shape in H. rewrite Hls in H. exact H.
Qed.

End Reducer.

(** Every state of a session that has a draft order has its league
    settings: the two are set together by [INITIALIZE_LEAGUE] and cleared
    together by [RESET_DRAFT]. *)
Lemma reachable_settings state :
  reachable state → draftOrder state ≠ [] → is_Some (leagueSettings state).
Proof.
  induction 1 as [|now state action state' Hreach IH Hstep]; [intros []; reflexivity|].
  assert (Hkeep : leagueSettings state' = leagueSettings state
                  ∧ length (draftOrder state') = length (draftOrder state) →
                  draftOrder state' ≠ [] → is_Some (leagueSettings state')).
  { intros [-> Hlen] Hne. apply IH. intros Heq. rewrite Heq in Hlen.
    destruct (draftOrder state'); [congruence|discriminate]. }
  destruct action; simpl in Hstep;
    try (injection Hstep as <-; simpl; first [ eauto | exact IH ]; fail).
  - apply Hkeep. eapply makePick_shape; eassumption.
  - apply Hkeep. eapply autoPick_shape; eassumption.
  - injection Hstep as <-. intros []. reflexivity.
Qed.

Lemma reachable_onTheClock state cur :
  reachable state → onTheClock state cur → is_Some (leagueSettings state).
Proof.
  intros Hreach [Hcur _]. apply reachable_settings; [assumption|].
  intros Hnil. rewrite Hnil in Hcur. unfold at_index in Hcur.
  destruct (_ <? 0); [discriminate|]. rewrite lookup_nil in Hcur. discriminate.
Qed.

Lemma runActions_reachable actions : ∀ state state',
  reachable state → runActions state actions = Next state' → reachable state'.
Proof.
  induction actions as [|[now action] rest IH]; intros state state' Hreach; simpl.
  - intros [= <-]. exact Hreach.
  - destruct (draftReducer now state action) as [mid|] eqn:Hstep; [|discriminate].
    apply IH. eapply reachable_step; eassumption.
Qed.

Lemma sessionAfter_reachable actions : reachable (sessionAfter actions).
Proof.
  unfold sessionAfter.
  destruct (runActions initialState actions) as [state|] eqn:Hrun.
  - eapply runActions_reachable; [apply reachable_init|exact Hrun].
  - apply reachable_init.
Qed.

Lemma userPickAt_true pick :
  userPickAt pick = true
  ↔ ∃ next, pick = Some next ∧ DraftPick.isUserPick next = true.
Proof.
  destruct pick as [p|]; simpl.
  - split; [eauto|]. intros (next & [= <-] & H). exact H.
  - split; [discriminate|]. intros (next & [=] & _).
Qed.

(** C3: in a state of a session whose current slot is in range and
    unfilled, [MAKE_PICK] returns a state in which the slot holds the player
    and the time of the pick, with its numbers, team and user flag as they
    were, and every other slot is as before; the team of
    the pick has the player appended to its picks and has been through the
    roster assignment, every other team is as before; the pool has lost the
    players with the identifier of the player; the pick index is one more;
    [isDraftComplete] is true exactly when the new index is the length of
    the order; the timer is back at the configured duration; and the
    timer-active flag is set exactly when there is a next slot and it is a
    user pick. *)
Theorem makePick_transition now state player cur :
  reachable state → onTheClock state cur →
  ∃ ls state',
    leagueSettings state = Some ls
    ∧ draftReducer now state (MAKE_PICK player) = Next state'
    ∧ at_index (draftOrder state') (currentPickIndex state)
      = Some (DraftPick.mk (DraftPick.overallPick cur) (DraftPick.round cur)
                          (DraftPick.pickInRound cur) (DraftPick.teamIndex cur)
                          (Some player) (Some now) (DraftPick.isUserPick cur))
    ∧ (∀ i, i ≠ currentPickIndex state →
            at_index (draftOrder state') i = at_index (draftOrder state) i)
    ∧ (∀ i, at_index (teams state') i
            = (λ team, if decide (i = DraftPick.teamIndex cur)
                       then (assignPlayerToRoster player (withPick team player)
                                                  (rosterConfig ls)).2
                       else team) <$> at_index (teams state) i)
    ∧ (∀ team, picks (assignPlayerToRoster player (withPick team player)
                                           (rosterConfig ls)).2
               = picks team ++ [player])
    ∧ availablePlayers state'
      = filter (λ p, playerId p ≠ playerId player) (availablePlayers state)
    ∧ currentPickIndex state' = currentPickIndex state + 1
    ∧ (isDraftComplete state' = true
       ↔ currentPickIndex state' = Z.of_nat (length (draftOrder state)))
    ∧ pickTimerRemaining state' = draftTimerSeconds ls
    ∧ (isTimerActive state' = true
       ↔ ∃ next, at_index (draftOrder state) (currentPickIndex state + 1) = Some next
                 ∧ DraftPick.isUserPick next = true).
Proof.
  intros Hreach Hclock.
  destruct (reachable_onTheClock state cur Hreach Hclock) as [ls Hls].
  exists ls, (stateAfterPick now state ls cur player).
  pose proof Hclock as [Hcur Hopen].
  pose proof (proj1 (at_index_Some _ _ _) Hcur) as [Hrange _].
  split; [exact Hls|].
  split; [apply makePick_Next; assumption|].
  cbn [draftOrder teams availablePlayers currentPickIndex isDraftComplete
       pickTimerRemaining isTimerActive stateAfterPick].
  split; [exact (at_index_insert_eq _ _ _ _ Hcur)|].
  split; [intros i Hne; apply at_index_insert_ne; [lia|assumption]|].
  split; [intros i; apply at_index_teamsAfterPick|].
  split; [intros team; rewrite picks_assign; reflexivity|].
  split; [reflexivity|]. split; [reflexivity|].
  split; [rewrite Z.leb_le; lia|].
  split; [reflexivity|].
  apply userPickAt_true.
Qed.

Lemma makePick_transition_witness :
  ∃ ls state',
    leagueSettings (sessionAfter duelTwoPicks) = Some ls
    ∧ draftReducer 4 (sessionAfter duelTwoPicks) (MAKE_PICK centerB) = Next state'
    ∧ at_index (draftOrder state') 2
      = Some (DraftPick.mk 3 2 1 1 (Some centerB) (Some 4) false)
    ∧ currentPickIndex state' = 3
    ∧ pickTimerRemaining state' = 60
    ∧ isTimerActive state' = true.
Proof.
  destruct (makePick_transition 4 (sessionAfter duelTwoPicks) centerB thirdSlot)
    as (ls & state' & Hls & Hstep & Hslot & _ & _ & _ & _ & Hidx & _ & Htimer & Hflag).
  - apply sessionAfter_reachable.
  - split; reflexivity.
  - exists ls, state'. split; [exact Hls|]. split; [exact Hstep|].
    split; [exact Hslot|]. split; [exact Hidx|]. split.
    + rewrite Htimer. injection Hls as <-. reflexivity.
    + apply Hflag. exists (DraftPick.mk 4 2 2 0 None None true). split; reflexivity.
Defined.

(** One pick of the scenario below: the slot on the clock is one of the
    eight of the order. *)
Ltac pick_at cur :=
  rewrite (makePick_Next _ _ fourTeamSettings cur); [|reflexivity|split; reflexivity].

Ltac pick_step :=
  first [ pick_at (DraftPick.mk 1 1 1 0 None None true)
        | pick_at (DraftPick.mk 2 1 2 1 None None false)
        | pick_at (DraftPick.mk 3 1 3 2 None None false)
        | pick_at (DraftPick.mk 4 1 4 3 None None false)
        | pick_at (DraftPick.mk 5 2 1 3 None None false)
        | pick_at (DraftPick.mk 6 2 2 2 None None false)
        | pick_at (DraftPick.mk 7 2 3 1 None None false)
        | pick_at (DraftPick.mk 8 2 4 0 None None true) ].

(** The end-to-end scenario: after [INITIALIZE_LEAGUE] and [k] picks of
    any players, the draft is complete exactly when [k] is 8, and then each
    of the four teams has two picks. *)
Lemma four_team_draft_completes pool p1 p2 p3 p4 p5 p6 p7 p8 (k : nat) :
  (k ≤ 8)%nat →
  ∃ state,
    runActions (fourTeamStart pool) (picksOf (take k [p1; p2; p3; p4; p5; p6; p7; p8]))
    = Next state
    ∧ (isDraftComplete state = true ↔ k = 8%nat)
    ∧ (k = 8%nat → Forall (λ team, length (picks team) = 2%nat) (teams state)).
Proof.
  intros Hk.
  do 8 (destruct k as [|k];
        [eexists; split;
         [cbn [take picksOf fmap list_fmap runActions draftReducer];
          repeat pick_step; reflexivity|];
         split; [split; [discriminate|lia]|lia]|]).
  destruct k as [|k]; [|lia].
  eexists. split.
  - cbn [take picksOf fmap list_fmap runActions draftReducer].
    repeat pick_step. reflexivity.
  - split; [split; reflexivity|]. intros _.
    cbn -[assignPlayerToRoster initializeTeamRosters].
    let rosters := eval vm_compute in (initializeTeamRosters 4 1) in
    change (initializeTeamRosters 4 1) with rosters.
    cbn -[assignPlayerToRoster bool_decide].
    repeat match goal with
           | |- context [bool_decide ?P] =>
             let b := eval vm_compute in (bool_decide P) in
             change (bool_decide P) with b
           end.
    cbv iota.
    repeat (constructor; [rewrite !picks_assign; cbn; rewrite ?picks_assign; reflexivity|]).
    constructor.
Qed.

(** C4: [MAKE_PICK] and [AUTO_PICK] return the state they were given, and
    raise nothing, when the current slot is filled already or the pick index
    is out of range; in a state of a session [AUTO_PICK] does so as well
    when the available pool is empty. *)
Theorem stale_pick_is_noop now state player :
  (staleSlot state →
   draftReducer now state (MAKE_PICK player) = Next state
   ∧ draftReducer now state AUTO_PICK = Next state)
  ∧ (reachable state → availablePlayers state = [] →
     draftReducer now state AUTO_PICK = Next state).
Proof.
  split.
  - intros Hstale. split; [apply makePick_stale|apply autoPick_stale]; assumption.
  - intros Hreach Hpool. simpl.
    destruct (at_index (draftOrder state) (currentPickIndex state)) as [cur|] eqn:Hat;
      [|apply autoPick_stale; unfold staleSlot; rewrite Hat; exact I].
    destruct (DraftPick.player cur) as [p|] eqn:Hp;
      [apply autoPick_stale; unfold staleSlot; rewrite Hat, Hp; eauto|].
    assert (Hcur : onTheClock state cur) by (split; assumption).
    destruct (reachable_onTheClock state cur Hreach Hcur) as [ls Hls].
    eapply autoPick_empty_pool; eassumption.
Qed.

Lemma stale_pick_is_noop_witness :
  (draftReducer 6 (sessionAfter duelFinished) (MAKE_PICK centerA)
   = Next (sessionAfter duelFinished)
   ∧ draftReducer 6 (sessionAfter duelFinished) AUTO_PICK
     = Next (sessionAfter duelFinished))
  ∧ draftReducer 1 (sessionAfter emptyPoolStart) AUTO_PICK
    = Next (sessionAfter emptyPoolStart).
Proof.
  split.
  - apply (stale_pick_is_noop 6 (sessionAfter duelFinished) centerA). exact I.
  - apply (stale_pick_is_noop 1 (sessionAfter emptyPoolStart) centerA).
    + apply sessionAfter_reachable.
    + reflexivity.
Defined.

(** C8, as stated, fails: team 1 has its one G slot filled and no flex,
    utility or bench slot; a second goalie picked for it finds no slot, and
    [MAKE_PICK] still returns a next state, with the goalie in the slot and
    in the picks of the team, the filled-counts of the team as they were,
    and the draft one pick further. *)
Lemma full_roster_pick_recorded :
  onTheClock (sessionAfter duelTwoPicks) thirdSlot
  ∧ at_index (teams (sessionAfter duelTwoPicks)) 1 = Some goalieTeam
  ∧ (assignPlayerToRoster goalieB (withPick goalieTeam goalieB) centerGoalieConfig).1
    = None
  ∧ ∃ state',
      draftReducer 4 (sessionAfter duelTwoPicks) (MAKE_PICK goalieB) = Next state'
      ∧ at_index (draftOrder state') 2
        = Some (DraftPick.mk 3 2 1 1 (Some goalieB) (Some 4) false)
      ∧ at_index (teams state') 1
        = Some (mkRoster 1 "Team 2" false [goalieA; goalieB] (mkCounts 0 0 0 0 1 0 0 0))
      ∧ currentPickIndex state' = 3.
Proof.
  split; [split; reflexivity|].
  split; [reflexivity|].
  split; [reflexivity|].
  eexists. split; [reflexivity|]. split; [reflexivity|]. split; reflexivity.
Qed.

(** C8, amended: when the roster assignment finds no slot for the player,
    it returns the no-slot signal and leaves the roster as it was, and
    [MAKE_PICK] takes no notice: it raises nothing, records the player and
    the time of the pick in the slot, appends the player to the picks of the
    team, leaves the filled-counts, the index, the name and the user flag
    of the team unchanged and advances the pick index. *)
Theorem makePick_absorbs_full_roster now state player cur ls team :
  onTheClock state cur →
  leagueSettings state = Some ls →
  at_index (teams state) (DraftPick.teamIndex cur) = Some team →
  (assignPlayerToRoster player (withPick team player) (rosterConfig ls)).1 = None →
  (∀ roster cfg,
     (assignPlayerToRoster player roster cfg).1 = None →
     (assignPlayerToRoster player roster cfg).2 = roster)
  ∧ ∃ state',
      draftReducer now state (MAKE_PICK player) = Next state'
      ∧ at_index (draftOrder state') (currentPickIndex state)
        = Some (DraftPick.mk (DraftPick.overallPick cur) (DraftPick.round cur)
                            (DraftPick.pickInRound cur) (DraftPick.teamIndex cur)
                            (Some player) (Some now) (DraftPick.isUserPick cur))
      ∧ at_index (teams state') (DraftPick.teamIndex cur)
        = Some (mkRoster (teamIndex team) (teamName team) (isUser team)
                         (picks team ++ [player]) (filledPositions team))
      ∧ (∀ i, i ≠ DraftPick.teamIndex cur →
              at_index (teams state') i = at_index (teams state) i)
      ∧ currentPickIndex state' = currentPickIndex state + 1.
Proof.
  intros Hclock Hls Hteam Hfull.
  assert (Hnone : ∀ roster cfg,
            (assignPlayerToRoster player roster cfg).1 = None →
            (assignPlayerToRoster player roster cfg).2 = roster).
  { intros roster cfg Hno. pose proof (assign_one player roster cfg) as Hone.
    rewrite Hno in Hone. exact Hone. }
  split; [exact Hnone|].
  exists (stateAfterPick now state ls cur player).
  split; [apply makePick_Next; assumption|].
  destruct Hclock as [Hcur Hopen].
  cbn [draftOrder teams currentPickIndex stateAfterPick].
  split; [exact (at_index_insert_eq _ _ _ _ Hcur)|].
  split; [|split; [|reflexivity]].
  - rewrite at_index_teamsAfterPick, Hteam. simpl.
    rewrite decide_True by reflexivity. rewrite (Hnone _ _ Hfull). reflexivity.
  - intros i Hne. rewrite at_index_teamsAfterPick.
    destruct (at_index (teams state) i); [|reflexivity].
    simpl. rewrite decide_False by exact Hne. reflexivity.
Qed.

Lemma makePick_absorbs_full_roster_witness :
  ∃ state',
    draftReducer 4 (sessionAfter duelTwoPicks) (MAKE_PICK goalieB) = Next state'
    ∧ at_index (draftOrder state') 2
      = Some (DraftPick.mk 3 2 1 1 (Some goalieB) (Some 4) false)
    ∧ at_index (teams state') 1
      = Some (mkRoster 1 "Team 2" false [goalieA; goalieB] (mkCounts 0 0 0 0 1 0 0 0)).
Proof.
  destruct (makePick_absorbs_full_roster 4 (sessionAfter duelTwoPicks) goalieB
              thirdSlot duelSettings goalieTeam)
    as (_ & state' & Hstep & Hslot & Hteam & _).
  - split; reflexivity.
  - reflexivity.
  - reflexivity.
  - reflexivity.
  - exists state'. split; [exact Hstep|]. split; [exact Hslot|exact Hteam].
Defined.

(** C10: [MAKE_PICK] does not ask that the player be in the available
    pool.  In a state of a session whose current slot is in range and
    unfilled, the pick of any player at all succeeds: the player and the
    time of the pick are in the slot, whose numbers, team and user flag
    are as before, the player is at the end of the picks of the team of the
    slot, and when no
    player of the pool has the identifier of the player the pool is
    unchanged.  So there is a session after which one player is in the picks
    of two different teams. *)
Theorem makePick_accepts_any_player :
  (∀ now state player cur,
     reachable state → onTheClock state cur →
     ∃ state',
       draftReducer now state (MAKE_PICK player) = Next state'
       ∧ at_index (draftOrder state') (currentPickIndex state)
         = Some (DraftPick.mk (DraftPick.overallPick cur) (DraftPick.round cur)
                             (DraftPick.pickInRound cur) (DraftPick.teamIndex cur)
                             (Some player) (Some now) (DraftPick.isUserPick cur))
       ∧ (∀ team, at_index (teams state) (DraftPick.teamIndex cur) = Some team →
                  ∃ team', at_index (teams state') (DraftPick.teamIndex cur) = Some team'
                           ∧ picks team' = picks team ++ [player])
       ∧ ((∀ p, p ∈ availablePlayers state → playerId p ≠ playerId player) →
          availablePlayers state' = availablePlayers state))
  ∧ (∃ state i j teamI teamJ player,
       reachable state ∧ i ≠ j
       ∧ at_index (teams state) i = Some teamI
       ∧ at_index (teams state) j = Some teamJ
       ∧ player ∈ picks teamI ∧ player ∈ picks teamJ).
Proof.
  split.
  - intros now state player cur Hreach Hclock.
    destruct (reachable_onTheClock state cur Hreach Hclock) as [ls Hls].
    exists (stateAfterPick now state ls cur player).
    split; [apply makePick_Next; assumption|].
    destruct Hclock as [Hcur Hopen].
    cbn [draftOrder teams availablePlayers stateAfterPick].
    split; [exact (at_index_insert_eq _ _ _ _ Hcur)|]. split.
    + intros team Hteam. rewrite at_index_teamsAfterPick, Hteam. simpl.
      rewrite decide_True by reflexivity. eexists. split; [reflexivity|].
      apply picks_assign.
    + intros Hfresh. apply filter_all. exact Hfresh.
  - exists (sessionAfter (duelOnePick ++ [(3, MAKE_PICK centerA)])).
    exists 0, 1.
    eexists. eexists. exists centerA.
    split; [apply sessionAfter_reachable|].
    split; [lia|].
    split; [reflexivity|]. split; [reflexivity|].
    split; simpl; left.
Qed.

Lemma makePick_accepts_any_player_witness :
  ∃ state',
    draftReducer 3 (sessionAfter duelOnePick) (MAKE_PICK centerA) = Next state'
    ∧ at_index (draftOrder state') 1
      = Some (DraftPick.mk 2 1 2 1 (Some centerA) (Some 3) false)
    ∧ availablePlayers state' = availablePlayers (sessionAfter duelOnePick).
Proof.
  destruct makePick_accepts_any_player as [Hany _].
  destruct (Hany 3 (sessionAfter duelOnePick) centerA secondSlot)
    as (state' & Hstep & Hslot & _ & Hpool).
  - apply sessionAfter_reachable.
  - split; reflexivity.
  - exists state'. split; [exact Hstep|]. split; [exact Hslot|].
    apply Hpool. intros p Hp. vm_compute in Hp.
    repeat (apply elem_of_cons in Hp as [->|Hp]); [discriminate..|inversion Hp].
Defined.

(** ** CPU decisions *)

Lemma Qltb_lt x y : Qltb x y = true ↔ (x < y)%Q.
Proof.
  unfold Qltb. rewrite negb_true_iff, <- not_true_iff_false, Qle_bool_iff.
  split; [apply Qnot_le_lt|apply Qlt_not_le].
Qed.

Lemma Qltb_ge x y : Qltb x y = false ↔ (y <= x)%Q.
Proof. unfold Qltb. rewrite negb_false_iff. apply Qle_bool_iff. Qed.

(** C5, as stated, fails, in both directions.  With two G slots of which
    one is filled the goalie need is critical, and before pick 50 the score
    of a goalie is multiplied by 0.4 all the same; with no G slot at all the
    need is not critical, and the score of a goalie is not multiplied. *)
Lemma goalie_discount_with_open_need :
  (goalieNeedCritical goalieTeam defaultConfig = true
   ∧ specGoalieDiscount goalieB goalieTeam defaultConfig 10 = false
   ∧ goalieDiscountApplies goalieB goalieTeam defaultConfig 10 = true
   ∧ (scorePlayerForCPU goalieB goalieTeam defaultConfig 10 DEFAULT_CPU_WEIGHTS 0
      == (4 # 10) * weightedScore goalieB goalieTeam defaultConfig 10
                                  DEFAULT_CPU_WEIGHTS 0)%Q
   ∧ ¬ (scorePlayerForCPU goalieB goalieTeam defaultConfig 10 DEFAULT_CPU_WEIGHTS 0
        == weightedScore goalieB goalieTeam defaultConfig 10 DEFAULT_CPU_WEIGHTS 0)%Q)
  ∧ (goalieNeedCritical emptyRoster noGoalieConfig = false
     ∧ specGoalieDiscount goalieB emptyRoster noGoalieConfig 10 = true
     ∧ goalieDiscountApplies goalieB emptyRoster noGoalieConfig 10 = false
     ∧ (scorePlayerForCPU goalieB emptyRoster noGoalieConfig 10 DEFAULT_CPU_WEIGHTS 0
        == weightedScore goalieB emptyRoster noGoalieConfig 10 DEFAULT_CPU_WEIGHTS 0)%Q).
Proof.
  split.
  - split; [reflexivity|]. split; [reflexivity|]. split; [reflexivity|].
    split; [reflexivity|].
    intros H. apply Qeq_bool_iff in H. vm_compute in H. discriminate.
  - repeat split.
Qed.

(** C5, amended: the summed weighted score of a player whose position
    list includes G is multiplied by 0.4 exactly when the current pick
    number is below 50 and the remaining goalie need max(0, capacity −
    filled) is below the configured G capacity, that is, when the G capacity
    is positive and at least one G slot is filled already. *)
Theorem goalie_discount_condition player roster cfg pick weights rnd :
  goalieDiscountApplies player roster cfg pick
  = holds player G && (pick <? 50)
    && ((0 <? nG cfg) && (0 <? nG (filledPositions roster)))
  ∧ scorePlayerForCPU player roster cfg pick weights rnd
    = earlyBoost player pick
        (if holds player G && (pick <? 50)
            && ((0 <? nG cfg) && (0 <? nG (filledPositions roster)))
         then (weightedScore player roster cfg pick weights rnd * (4 # 10))%Q
         else weightedScore player roster cfg pick weights rnd).
Proof.
  assert (Hcond : goalieDiscountApplies player roster cfg pick
                  = holds player G && (pick <? 50)
                    && ((0 <? nG cfg) && (0 <? nG (filledPositions roster)))).
  { unfold goalieDiscountApplies, holds. simpl. rewrite <- andb_assoc. do 2 f_equal.
    apply eq_true_iff_eq. rewrite andb_true_iff, !Z.ltb_lt. lia. }
  split; [exact Hcond|].
  unfold scorePlayerForCPU. rewrite Hcond. reflexivity.
Qed.

Lemma reduceBestADP_snoc first rest x :
  reduceBestADP first (rest ++ [x])
  = if Qltb (espnADP x) (espnADP (reduceBestADP first rest))
    then x else reduceBestADP first rest.
Proof. unfold reduceBestADP. rewrite foldl_app. reflexivity. Qed.

(** The reduction keeps the first player of lowest ADP. *)
Lemma reduceBestADP_lowest first rest :
  firstLowestADP (first :: rest) (reduceBestADP first rest).
Proof.
  induction rest as [|x rest IH] using rev_ind.
  - exists [], []. split; [reflexivity|]. split; intros q Hq; inversion Hq.
  - rewrite reduceBestADP_snoc.
    destruct IH as (before & after & Hsplit & Hbefore & Hafter).
    set (best := reduceBestADP first rest) in *.
    destruct (Qltb (espnADP x) (espnADP best)) eqn:Hcmp.
    + apply Qltb_lt in Hcmp.
      exists (first :: rest), []. split; [reflexivity|].
      split; [|intros q Hq; inversion Hq].
      intros q Hq. rewrite Hsplit in Hq.
      apply elem_of_app in Hq as [Hq|Hq].
      * specialize (Hbefore q Hq). lra.
      * apply elem_of_cons in Hq as [->|Hq]; [assumption|].
        specialize (Hafter q Hq). lra.
    + apply Qltb_ge in Hcmp.
      exists before, (after ++ [x]). split.
      * rewrite app_comm_cons, Hsplit, <- app_assoc. reflexivity.
      * split; [assumption|]. intros q Hq.
        apply elem_of_app in Hq as [Hq|Hq]; [auto|].
        apply list_elem_of_singleton in Hq as ->. assumption.
Qed.

(** The first player of lowest ADP is one player. *)
Lemma firstLowestADP_unique l p q :
  firstLowestADP l p → firstLowestADP l q → p = q.
Proof.
  intros (b1 & a1 & H1 & Hb1 & Ha1) (b2 & a2 & H2 & Hb2 & Ha2).
  rewrite H1 in H2. clear H1.
  revert b2 H2 Hb2. induction b1 as [|x b1 IH]; intros b2 H2 Hb2.
  - destruct b2 as [|y b2]; simpl in H2.
    + congruence.
    + injection H2 as Hy Hrest. subst y.
      assert (Hq : q ∈ a1) by (rewrite Hrest; apply elem_of_app; right; left).
      specialize (Ha1 q Hq). specialize (Hb2 p (list_elem_of_here _ _)). lra.
  - destruct b2 as [|y b2]; simpl in H2.
    + injection H2 as Hx Hrest. subst x.
      assert (Hp : p ∈ a2) by (rewrite <- Hrest; apply elem_of_app; right; left).
      specialize (Ha2 p Hp). specialize (Hb1 q (list_elem_of_here _ _)). lra.
    + injection H2 as Hx Hrest. subst y.
      apply (IH ltac:(intros; apply Hb1; right; assumption) b2 Hrest).
      intros; apply Hb2; right; assumption.
Qed.

Lemma fillsCritical_intersects cps player :
  fillsCritical cps player = true ↔ intersects cps player.
Proof.
  unfold fillsCritical, intersects. rewrite existsb_exists.
  split; intros (pos & H1 & H2); exists pos.
  - split; [apply list_elem_of_In, H1|apply includes_true, H2].
  - split; [apply list_elem_of_In, H1|apply includes_true, H2].
Qed.

Lemma elem_of_need_players cps pool p :
  p ∈ List.filter (fillsCritical cps) pool ↔ p ∈ pool ∧ intersects cps p.
Proof.
  rewrite list_elem_of_In, filter_In, <- list_elem_of_In, fillsCritical_intersects.
  reflexivity.
Qed.

(** C6: [selectAutoPick] is a function of its inputs.  When the roster
    has critical needs and the position list of some available player
    intersects the critical positions, it returns the lowest-ADP player
    among the available players that do (the first of them, on equal ADP);
    otherwise, for a pool that is not empty, the lowest-ADP player of the
    whole pool; it returns none exactly when the pool is empty. *)
Theorem selectAutoPick_policy pool roster cfg :
  let cps := criticalPositions roster cfg in
  let those := List.filter (fillsCritical cps) pool in
  (∀ p, p ∈ those ↔ p ∈ pool ∧ intersects cps p)
  ∧ ((hasCriticalPositionalNeeds roster cfg).1 = true
     ∧ (∃ p, p ∈ pool ∧ intersects cps p) →
     ∃ best, selectAutoPick pool roster cfg = Some best ∧ firstLowestADP those best)
  ∧ (¬ ((hasCriticalPositionalNeeds roster cfg).1 = true
        ∧ ∃ p, p ∈ pool ∧ intersects cps p) →
     pool ≠ [] →
     ∃ best, selectAutoPick pool roster cfg = Some best ∧ firstLowestADP pool best)
  ∧ (selectAutoPick pool roster cfg = None ↔ pool = []).
Proof.
  intros cps those.
  assert (Hthose : ∀ p, p ∈ those ↔ p ∈ pool ∧ intersects cps p)
    by (intros p; apply elem_of_need_players).
  split; [exact Hthose|].
  unfold selectAutoPick. fold cps.
  change (hasCriticalPositionalNeeds roster cfg)
    with ((0 <? Z.of_nat (length cps)), cps). cbn [fst].
  fold those.
  split; [|split].
  - intros [Hneeds (p & Hp)].
    destruct pool as [|first rest] eqn:Hpool; [destruct Hp as [Hp _]; inversion Hp|].
    rewrite Hneeds.
    destruct those as [|n ns] eqn:Hn.
    + apply Hthose in Hp. inversion Hp.
    + eexists. split; [reflexivity|]. apply reduceBestADP_lowest.
  - intros Hnot Hne.
    destruct pool as [|first rest] eqn:Hpool; [congruence|].
    destruct (0 <? Z.of_nat (length cps)) eqn:Hneeds.
    + destruct those as [|n ns] eqn:Hn.
      * eexists. split; [reflexivity|]. apply reduceBestADP_lowest.
      * exfalso. apply Hnot. split; [reflexivity|].
        exists n. apply Hthose. left.
    + eexists. split; [reflexivity|]. apply reduceBestADP_lowest.
  - destruct pool as [|first rest]; [split; reflexivity|].
    split; [|discriminate].
    destruct (if 0 <? Z.of_nat (length cps) then those else []); discriminate.
Qed.

Lemma selectAutoPick_policy_witness :
  ∃ best,
    selectAutoPick autoPool goalieTeam centerGoalieConfig = Some best
    ∧ firstLowestADP
        (List.filter (fillsCritical (criticalPositions goalieTeam centerGoalieConfig))
                     autoPool) best.
Proof.
  apply (selectAutoPick_policy autoPool goalieTeam centerGoalieConfig).
  split; [reflexivity|].
  exists centerB. split; [left|]. exists C. split; left.
Defined.

Lemma weightedScore_rnd player roster cfg pick weights rnd :
  (weightedScore player roster cfg pick weights rnd
   == weightedScore player roster cfg pick weights 0
      + rnd * 100 * randomnessWeight weights)%Q.
Proof. unfold weightedScore. ring. Qed.

(** At pick 3 the center outscores the goalie whatever [Math.random()]
    returns for the two. *)
Lemma cpu_scores (x y : Q) :
  (0 <= x < 1)%Q → (0 <= y < 1)%Q →
  (scorePlayerForCPU goalieA cpuTeam centerGoalieConfig 3 DEFAULT_CPU_WEIGHTS y
   <= scorePlayerForCPU centerB cpuTeam centerGoalieConfig 3 DEFAULT_CPU_WEIGHTS x)%Q.
Proof.
  intros Hx Hy. unfold scorePlayerForCPU.
  change (goalieDiscountApplies goalieA cpuTeam centerGoalieConfig 3) with false.
  change (goalieDiscountApplies centerB cpuTeam centerGoalieConfig 3) with false.
  cbv iota.
  change (earlyBoost goalieA 3) with (λ s : Q, s).
  change (earlyBoost centerB 3) with (λ s : Q, (s * (11 # 10))%Q).
  cbv beta.
  rewrite (weightedScore_rnd goalieA), (weightedScore_rnd centerB).
  assert (Hg : (weightedScore goalieA cpuTeam centerGoalieConfig 3 DEFAULT_CPU_WEIGHTS 0
                == 545 # 10)%Q) by reflexivity.
  assert (Hc : (weightedScore centerB cpuTeam centerGoalieConfig 3 DEFAULT_CPU_WEIGHTS 0
                == 7955 # 100)%Q) by reflexivity.
  rewrite Hg, Hc. simpl randomnessWeight. lra.
Qed.

(** The selection below does not hang on the random term. *)
Lemma cpu_pick_whatever_random (rnd : nat → Q) :
  (∀ i, (0 <= rnd i < 1)%Q) →
  selectCPUPick [centerB; goalieA] cpuTeam centerGoalieConfig 3 DEFAULT_CPU_WEIGHTS rnd
  = Some centerB.
Proof.
  intros Hrnd. unfold selectCPUPick.
  change (hasCriticalPositionalNeeds cpuTeam centerGoalieConfig) with (true, [G]).
  cbv zeta iota beta.
  change (overHalf _ _) with false.
  rewrite andb_false_r. cbn [andb imap sortByScore foldr insertByScore fst snd].
  unfold compose. cbv beta. cbn [snd].
  rewrite (proj2 (Qle_bool_iff _ _) (cpu_scores (rnd 0%nat) (rnd 1%nat) (Hrnd _) (Hrnd _))).
  reflexivity.
Qed.

(** C7, as stated, fails: team 1 has its one C slot filled, its G slot
    open and no other slot; the pool holds a center and a goalie; the goalie
    has a slot to fill and the center has none; at pick 3 [selectCPUPick]
    returns the center. *)
Lemma cpu_pick_without_slot :
  at_index (teams (sessionAfter cpuTurn)) 1 = Some cpuTeam
  ∧ availablePlayers (sessionAfter cpuTurn) = [centerB; goalieA]
  ∧ onTheClock (sessionAfter cpuTurn) thirdSlot
  ∧ eligible goalieA cpuTeam centerGoalieConfig
  ∧ selectCPUPick (availablePlayers (sessionAfter cpuTurn)) cpuTeam centerGoalieConfig
                  (DraftPick.overallPick thirdSlot) DEFAULT_CPU_WEIGHTS (λ _, 0%Q)
    = Some centerB
  ∧ ¬ eligible centerB cpuTeam centerGoalieConfig.
Proof.
  split; [reflexivity|]. split; [reflexivity|]. split; [split; reflexivity|].
  split; [discriminate|]. split; [reflexivity|].
  intros H. apply H. reflexivity.
Qed.

Lemma insertByScore_elem a b sorted :
  b ∈ insertByScore a sorted ↔ b = a ∨ b ∈ sorted.
Proof.
  induction sorted as [|c rest IH]; simpl.
  - rewrite list_elem_of_singleton, elem_of_nil. tauto.
  - destruct (Qle_bool c.2 a.2); rewrite !elem_of_cons, ?IH; tauto.
Qed.

Lemma sortByScore_elem b scored : b ∈ sortByScore scored ↔ b ∈ scored.
Proof.
  induction scored as [|a rest IH]; simpl; [reflexivity|].
  rewrite insertByScore_elem, IH, elem_of_cons. reflexivity.
Qed.

Lemma sortByScore_nil scored : sortByScore scored = [] → scored = [].
Proof.
  destruct scored as [|a rest]; [reflexivity|]. intros H.
  assert (Ha : a ∈ sortByScore (a :: rest)) by (apply sortByScore_elem; left).
  rewrite H in Ha. inversion Ha.
Qed.

Lemma insertByScore_sorted a sorted :
  StronglySorted scoredBelow sorted → StronglySorted scoredBelow (insertByScore a sorted).
Proof.
  induction 1 as [|b rest Hsorted IH Hb]; simpl.
  - constructor; constructor.
  - destruct (Qle_bool b.2 a.2) eqn:Hcmp.
    + apply Qle_bool_iff in Hcmp.
      constructor; [constructor; assumption|].
      constructor; [exact Hcmp|].
      eapply Forall_impl; [exact Hb|]. unfold scoredBelow. intros c Hc. simpl in *. lra.
    + assert (Hlt : (a.2 < b.2)%Q).
      { apply Qnot_le_lt. intros Hle. apply Qle_bool_iff in Hle. congruence. }
      constructor; [exact IH|].
      apply Forall_forall. intros c Hc. apply insertByScore_elem in Hc as [->|Hc].
      * unfold scoredBelow. lra.
      * rewrite Forall_forall in Hb. apply Hb. exact Hc.
Qed.

Lemma sortByScore_sorted scored : StronglySorted scoredBelow (sortByScore scored).
Proof.
  induction scored as [|a rest IH]; simpl; [constructor|].
  apply insertByScore_sorted. exact IH.
Qed.

(** The entry at the head of the sorted array has the highest score. *)
Lemma sortByScore_head top rest scored :
  sortByScore scored = top :: rest → ∀ b, b ∈ scored → (b.2 <= top.2)%Q.
Proof.
  intros Hsort b Hb. apply sortByScore_elem in Hb. rewrite Hsort in Hb.
  pose proof (sortByScore_sorted scored) as Hs. rewrite Hsort in Hs.
  apply StronglySorted_inv in Hs as [_ Hall].
  apply elem_of_cons in Hb as [->|Hb]; [lra|].
  rewrite Forall_forall in Hall. apply Hall. exact Hb.
Qed.

(** The player returned is a candidate of highest score. *)
Lemma selectCPUPick_top_score pool roster cfg pick weights rnd chosen :
  selectCPUPick pool roster cfg pick weights rnd = Some chosen →
  ∃ i, cpuCandidates pool roster cfg !! i = Some chosen
       ∧ ∀ j q, cpuCandidates pool roster cfg !! j = Some q →
                (scorePlayerForCPU q roster cfg pick weights (rnd j)
                 <= scorePlayerForCPU chosen roster cfg pick weights (rnd i))%Q.
Proof.
  unfold selectCPUPick. destruct pool as [|first rest] eqn:Hpool; [discriminate|].
  rewrite <- Hpool.
  change (hasCriticalPositionalNeeds roster cfg)
    with ((hasCriticalPositionalNeeds roster cfg).1, criticalPositions roster cfg).
  cbv beta iota zeta.
  match goal with
  | |- context [imap ?f ?l] => change l with (cpuCandidates pool roster cfg)
  end.
  set (cands := cpuCandidates pool roster cfg).
  match goal with
  | |- context [imap ?f cands] => set (scored := imap f cands)
  end.
  destruct (sortByScore scored) as [|top sorted] eqn:Hsort; [discriminate|].
  intros [= <-].
  assert (Hin : top ∈ scored) by (apply sortByScore_elem; rewrite Hsort; left).
  unfold scored in Hin. apply elem_of_lookup_imap in Hin as (i & p & Htop & Hp).
  exists i. rewrite Htop. split; [exact Hp|].
  intros j q Hq. cbn [fst].
  change (scorePlayerForCPU p roster cfg pick weights (rnd i))
    with ((p, scorePlayerForCPU p roster cfg pick weights (rnd i)).2).
  rewrite <- Htop.
  apply (sortByScore_head top sorted scored Hsort
           (q, scorePlayerForCPU q roster cfg pick weights (rnd j))).
  unfold scored. apply elem_of_lookup_imap. eauto.
Qed.

Lemma critical_position_open roster cfg pos :
  pos ∈ criticalPositions roster cfg → hasCapacity roster cfg pos = true.
Proof.
  unfold criticalPositions. rewrite list_elem_of_In, filter_In.
  intros [Hin Hneed]. apply andb_true_iff in Hneed as [Hneed _].
  unfold hasCapacity. revert Hneed.
  destruct pos; simpl; rewrite ?Z.ltb_lt; try discriminate; lia.
Qed.

Lemma critical_position_primary roster cfg pos :
  pos ∈ criticalPositions roster cfg → pos ∈ primaryPositions.
Proof.
  unfold criticalPositions. rewrite !list_elem_of_In, filter_In. tauto.
Qed.

(** A player who holds a critical position has that slot to fill. *)
Lemma intersects_eligible roster cfg player :
  intersects (criticalPositions roster cfg) player → eligible player roster cfg.
Proof.
  intros (pos & Hholds & Hcrit). unfold eligible. intros Hnil.
  pose proof (includes_available player roster cfg pos) as Hinc.
  rewrite Hnil in Hinc.
  pose proof (critical_position_open roster cfg pos Hcrit) as Hopen.
  pose proof (critical_position_primary roster cfg pos Hcrit) as Hprim.
  apply includes_true in Hholds.
  unfold primaryPositions in Hprim.
  repeat (apply elem_of_cons in Hprim as [->|Hprim]);
    try (simpl in Hinc; rewrite Hholds, Hopen in Hinc; discriminate).
  inversion Hprim.
Qed.

(** C7, amended: for every roster, configuration, pick number, outcome of
    the random draws and pool that is not empty, [selectCPUPick] returns a
    player of the pool.  When the roster has a critical need, more than half
    of its picks are made and some available player holds a critical
    position, the player returned holds a critical position, and so has a
    position to fill.  In the other cases the set of positions the player
    can fill is not looked at. *)
Theorem selectCPUPick_candidates pool roster cfg pick weights rnd :
  pool ≠ [] →
  ∃ chosen,
    selectCPUPick pool roster cfg pick weights rnd = Some chosen
    ∧ chosen ∈ pool
    ∧ ((hasCriticalPositionalNeeds roster cfg).1 = true →
       overHalf (Z.of_nat (length (picks roster))) (calculateTotalRounds cfg) = true →
       (∃ p, p ∈ pool ∧ intersects (criticalPositions roster cfg) p) →
       intersects (criticalPositions roster cfg) chosen
       ∧ eligible chosen roster cfg).
Proof.
  intros Hne. unfold selectCPUPick.
  destruct pool as [|first rest] eqn:Hpool; [congruence|]. rewrite <- Hpool. clear Hne.
  change (hasCriticalPositionalNeeds roster cfg)
    with ((0 <? Z.of_nat (length (criticalPositions roster cfg))),
          criticalPositions roster cfg). cbv zeta. cbn [fst].
  set (cps := criticalPositions roster cfg).
  set (those := List.filter (fillsCritical cps) pool).
  match goal with
  | |- context [if ?c then those else pool] => set (cands := if c then those else pool)
  end.
  match goal with
  | |- context [imap ?f cands] => set (scored := imap f cands)
  end.
  assert (Hthose : ∀ p, p ∈ those ↔ p ∈ pool ∧ intersects cps p)
    by (intros p; apply elem_of_need_players).
  assert (Hcands : cands ≠ []).
  { unfold cands. destruct (_ && _) eqn:Hc.
    - apply andb_true_iff in Hc as [_ Hc]. apply Z.ltb_lt in Hc.
      destruct those; [simpl in Hc; lia|discriminate].
    - rewrite Hpool. discriminate. }
  destruct (sortByScore scored) as [|top sorted] eqn:Hsort.
  { apply sortByScore_nil in Hsort. exfalso. apply Hcands.
    apply (f_equal length) in Hsort. unfold scored in Hsort.
    rewrite length_imap in Hsort. destruct cands; [reflexivity|discriminate]. }
  assert (Htop : top.1 ∈ cands).
  { assert (Hin : top ∈ scored) by (apply sortByScore_elem; rewrite Hsort; left).
    unfold scored in Hin. apply elem_of_lookup_imap in Hin as (i & p & -> & Hp).
    simpl. eapply list_elem_of_lookup_2. exact Hp. }
  exists top.1. split; [reflexivity|]. split.
  - unfold cands in Htop. destruct (_ && _); [apply Hthose in Htop; tauto|assumption].
  - intros Hneeds Hhalf (p & Hp). cbn [fst] in Hneeds.
    assert (Hin : top.1 ∈ those).
    { unfold cands in Htop. rewrite Hneeds, Hhalf in Htop.
      apply Hthose in Hp. destruct those; [inversion Hp|]. exact Htop. }
    apply Hthose in Hin as [_ Hin].
    split; [exact Hin|]. apply intersects_eligible. exact Hin.
Qed.

Lemma selectCPUPick_candidates_witness :
  ∃ chosen,
    selectCPUPick flexPool flexTeam flexConfig 5 DEFAULT_CPU_WEIGHTS (λ _, (1 # 2)%Q)
    = Some chosen
    ∧ chosen ∈ flexPool
    ∧ eligible chosen flexTeam flexConfig.
Proof.
  destruct (selectCPUPick_candidates flexPool flexTeam flexConfig 5
              DEFAULT_CPU_WEIGHTS (λ _, (1 # 2)%Q))
    as (chosen & Hsel & Hin & Hcrit).
  - discriminate.
  - exists chosen. split; [exact Hsel|]. split; [exact Hin|].
    apply Hcrit.
    + reflexivity.
    + reflexivity.
    + exists goalieA. split; [right; left|]. exists G. split; left.
Defined.

(** * Sessions, callers and the setup page *)

(** ** The draft order, slot by slot *)

Lemma roundStep_no_teams numTeams user st round :
  numTeams ≤ 0 → roundStep numTeams user st round = st.
Proof. intros Hn. unfold roundStep. rewrite seqZ_nil by lia. reflexivity. Qed.

Lemma generate_nil numTeams numRounds user :
  numTeams ≤ 0 ∨ numRounds ≤ 0 → generateSnakeDraftOrder numTeams numRounds user = [].
Proof.
  unfold generateSnakeDraftOrder. intros [Hn|Hr].
  - assert (H : ∀ rounds st, foldl (roundStep numTeams user) st rounds = st).
    { induction rounds as [|r rounds IH]; intros st; [reflexivity|].
      simpl. rewrite roundStep_no_teams by assumption. apply IH. }
    rewrite H. reflexivity.
  - rewrite seqZ_nil by lia. reflexivity.
Qed.

Lemma elem_of_generate numTeams numRounds user p :
  p ∈ generateSnakeDraftOrder numTeams numRounds user →
  ∃ round i, 1 ≤ round ≤ numRounds ∧ 1 ≤ i ≤ numTeams
             ∧ p = slotOf numTeams user round i.
Proof.
  destruct (decide (numTeams ≤ 0)) as [Hn|Hn].
  { rewrite generate_nil by auto. intros H. inversion H. }
  rewrite generateSnakeDraftOrder_closed by lia.
  intros Hp. apply list_elem_of_join in Hp as (blk & Hp & Hblk).
  apply list_elem_of_fmap in Hblk as (r & -> & Hr).
  apply list_elem_of_fmap in Hp as (i & -> & Hi).
  apply elem_of_seqZ in Hr. apply elem_of_seqZ in Hi.
  exists r, i. repeat split; lia.
Qed.

Lemma teamOf_range numTeams round i :
  1 ≤ i ≤ numTeams → 0 ≤ teamOf numTeams round i < numTeams.
Proof. intros Hi. unfold teamOf. destruct (_ =? 0); lia. Qed.

(** What every slot of a generated order looks like. *)
Lemma generate_slot numTeams numRounds user p :
  p ∈ generateSnakeDraftOrder numTeams numRounds user →
  eraseSlot p = p
  ∧ 0 ≤ DraftPick.teamIndex p < numTeams
  ∧ DraftPick.isUserPick p = (DraftPick.teamIndex p =? user - 1)
  ∧ 1 ≤ DraftPick.round p ≤ numRounds
  ∧ DraftPick.overallPick p
    = (DraftPick.round p - 1) * numTeams + DraftPick.pickInRound p.
Proof.
  intros Hp. apply elem_of_generate in Hp as (r & i & Hr & Hi & ->).
  unfold slotOf. simpl. repeat split; try lia; apply teamOf_range; assumption.
Qed.

Lemma generate_erased numTeams numRounds user :
  eraseSlot <$> generateSnakeDraftOrder numTeams numRounds user
  = generateSnakeDraftOrder numTeams numRounds user.
Proof.
  rewrite <- (list_fmap_id (generateSnakeDraftOrder _ _ _)) at 2.
  apply list_fmap_ext. intros i p Hp. apply list_elem_of_lookup_2 in Hp.
  apply generate_slot in Hp. simpl. tauto.
Qed.

Lemma generate_overallPick numTeams numRounds user (i : nat) p :
  generateSnakeDraftOrder numTeams numRounds user !! i = Some p →
  DraftPick.overallPick p = Z.of_nat i + 1.
Proof.
  destruct (decide (numTeams ≤ 0 ∨ numRounds ≤ 0)) as [Hn|Hn].
  { rewrite generate_nil by assumption. rewrite lookup_nil. discriminate. }
  intros Hp.
  assert (Hov : (DraftPick.overallPick
                   <$> generateSnakeDraftOrder numTeams numRounds user) !! i
                = Some (DraftPick.overallPick p))
    by (rewrite list_lookup_fmap, Hp; reflexivity).
  rewrite generateSnakeDraftOrder_closed in Hov by lia.
  rewrite <- (Z2Nat.id numRounds) in Hov by lia.
  rewrite overallPick_rounds in Hov by lia.
  apply lookup_seqZ in Hov. lia.
Qed.

Lemma filter_singleton_NoDup (l : list Z) (c : Z) :
  NoDup l → c ∈ l → filter (λ i, i = c) l = [c].
Proof.
  induction l as [|x l IH]; intros Hnd Hin; [inversion Hin|].
  apply NoDup_cons in Hnd as [Hx Hnd].
  destruct (decide (x = c)) as [->|Hne].
  - rewrite filter_cons_True by reflexivity. f_equal.
    clear IH Hin. induction l as [|y l IH]; [reflexivity|].
    apply not_elem_of_cons in Hx as [Hy Hx].
    rewrite filter_cons_False by congruence. apply NoDup_cons in Hnd as [_ Hnd]. auto.
  - rewrite filter_cons_False by assumption. apply IH; [assumption|].
    apply elem_of_cons in Hin as [->|Hin]; [congruence|assumption].
Qed.

Lemma filter_fmap' {A B : Type} (f : A → B) (P : B → Prop) `{∀ y, Decision (P y)}
    (l : list A) :
  filter P (f <$> l) = f <$> filter (λ x, P (f x)) l.
Proof.
  induction l as [|x l IH]; [reflexivity|].
  rewrite fmap_cons. destruct (decide (P (f x))) as [Hp|Hp].
  - rewrite !filter_cons_True by assumption. rewrite fmap_cons, IH. reflexivity.
  - rewrite !filter_cons_False by assumption. exact IH.
Qed.

(** In a round every team has exactly one slot. *)
Lemma roundSlots_one_per_team numTeams user round t :
  0 ≤ t < numTeams →
  length (filter (λ p, DraftPick.teamIndex p = t) (roundSlots numTeams user round)) = 1%nat.
Proof.
  intros Ht. unfold roundSlots. rewrite filter_fmap', length_fmap.
  set (c := if Z.rem round 2 =? 0 then numTeams - t else t + 1).
  rewrite (list_filter_iff _ (λ i, i = c)).
  - rewrite filter_singleton_NoDup; [reflexivity|apply NoDup_seqZ|].
    apply elem_of_seqZ. unfold c. destruct (_ =? 0); lia.
  - intros i. simpl. unfold teamOf, c. destruct (_ =? 0); lia.
Qed.

Lemma generate_team_slots numTeams numRounds user t :
  0 ≤ t < numTeams → 0 ≤ numRounds →
  length (filter (λ p, DraftPick.teamIndex p = t)
                 (generateSnakeDraftOrder numTeams numRounds user))
  = Z.to_nat numRounds.
Proof.
  intros Ht Hr. rewrite generateSnakeDraftOrder_closed by lia.
  rewrite <- (length_seqZ 1 numRounds).
  induction (seqZ 1 numRounds) as [|r rounds IH]; [reflexivity|].
  rewrite fmap_cons, join_cons', filter_app, length_app, IH.
  rewrite roundSlots_one_per_team by assumption. reflexivity.
Qed.

(** ** The invariant *)

Lemma teamHeader_assign player roster cfg :
  teamHeader (assignPlayerToRoster player roster cfg).2 = teamHeader roster.
Proof.
  rewrite assign_cascade. simpl. destruct (cascade player roster cfg); reflexivity.
Qed.

Lemma teamHeader_teamsAfterPick cfg cur player rosters :
  teamHeader <$> teamsAfterPick cfg cur player rosters = teamHeader <$> rosters.
Proof.
  unfold teamsAfterPick. apply list_eq. intros i.
  rewrite !list_lookup_fmap, list_lookup_imap.
  destruct (rosters !! i) as [team|]; [|reflexivity]. simpl. f_equal.
  destruct (bool_decide _); [reflexivity|]. rewrite teamHeader_assign. reflexivity.
Qed.

Lemma playersOf_app l1 l2 t : playersOf (l1 ++ l2) t = playersOf l1 t ++ playersOf l2 t.
Proof. unfold playersOf. rewrite filter_app, omap_app. reflexivity. Qed.

Lemma playersOf_unfilled l t :
  (∀ p, p ∈ l → DraftPick.player p = None) → playersOf l t = [].
Proof.
  induction l as [|p l IH]; intros Hl; [reflexivity|].
  change (p :: l) with ([p] ++ l). rewrite playersOf_app, IH
    by (intros q Hq; apply Hl; right; exact Hq).
  rewrite app_nil_r. unfold playersOf.
  destruct (decide (DraftPick.teamIndex p = t)) as [Ht|Ht].
  - rewrite filter_cons_True by assumption. simpl.
    rewrite (Hl p) by left. reflexivity.
  - rewrite filter_cons_False by assumption. reflexivity.
Qed.

(** The slots of a team after the slot at [k] of an order filled up to
    [k] is filled. *)
Lemma playersOf_insert order (k : nat) cur player now t :
  order !! k = Some cur →
  DraftPick.player cur = None →
  (∀ (i : nat) p, order !! i = Some p → (k < i)%nat → DraftPick.player p = None) →
  playersOf (<[k := filledSlot cur player now]> order) t
  = playersOf order t
    ++ (if decide (DraftPick.teamIndex cur = t) then [player] else []).
Proof.
  intros Hk Hopen Hafter.
  rewrite insert_take_drop by (apply lookup_lt_Some in Hk; exact Hk).
  rewrite <- (take_drop_middle order k cur Hk) at 3.
  rewrite !(playersOf_app (take k order)).
  change (filledSlot cur player now :: drop (S k) order)
    with ([filledSlot cur player now] ++ drop (S k) order).
  change (cur :: drop (S k) order) with ([cur] ++ drop (S k) order).
  rewrite !playersOf_app.
  rewrite (playersOf_unfilled (drop (S k) order)).
  2:{ intros p Hp. apply list_elem_of_lookup in Hp as [i Hi].
      rewrite lookup_drop in Hi. eapply Hafter; [exact Hi|lia]. }
  rewrite (playersOf_unfilled [cur])
    by (intros p Hp; apply list_elem_of_singleton in Hp as ->; exact Hopen).
  rewrite !app_nil_r. f_equal.
  unfold playersOf.
  destruct (decide (DraftPick.teamIndex cur = t)) as [Ht|Ht].
  - rewrite filter_cons_True by exact Ht. reflexivity.
  - rewrite filter_cons_False by exact Ht. reflexivity.
Qed.

Lemma eraseSlot_filledSlot cur player now :
  eraseSlot (filledSlot cur player now) = eraseSlot cur.
Proof. reflexivity. Qed.

Lemma count_bounds_assign player team cfg :
  withinCapacity emptyCounts (filledPositions team)
  ∧ sumCounts (filledPositions team) ≤ Z.of_nat (length (picks team))
  ∧ (withinCapacity emptyCounts cfg → withinCapacity (filledPositions team) cfg) →
  let team' := (assignPlayerToRoster player (withPick team player) cfg).2 in
  withinCapacity emptyCounts (filledPositions team')
  ∧ sumCounts (filledPositions team') ≤ Z.of_nat (length (picks team'))
  ∧ (withinCapacity emptyCounts cfg → withinCapacity (filledPositions team') cfg).
Proof.
  intros (Hpos & Hsum & Hcap) team'.
  pose proof (assign_one player (withPick team player) cfg) as Hone.
  pose proof (picks_assign player (withPick team player) cfg) as Hpicks.
  fold team' in Hone, Hpicks. rewrite Hpicks. simpl picks. rewrite length_app. simpl.
  destruct (assignPlayerToRoster player (withPick team player) cfg).1 as [pos|].
  - destruct Hone as (Hin & Hroom & ->). simpl.
    split; [|split].
    + revert Hpos. unfold withinCapacity, slots in *.
      repeat (apply elem_of_cons in Hin as [->|Hin]); simpl; try lia. inversion Hin.
    + rewrite sumCounts_incr by assumption. lia.
    + intros Hcfg. apply (withinCapacity_fill (withPick team player) cfg pos Hroom).
      apply Hcap. exact Hcfg.
  - rewrite Hone. simpl. split; [exact Hpos|]. split; [lia|exact Hcap].
Qed.

Section PickKeepsInvariant.
Variables (now : Z) (state : DraftState) (ls : LeagueSettings).
Variables (cur : DraftPick.t) (player : DraftPlayer).
Hypothesis Hcfg : configured ls state.
Hypothesis Hclock : onTheClock state cur.

Lemma clock_lookup :
  0 ≤ currentPickIndex state < Z.of_nat (length (draftOrder state))
  ∧ draftOrder state !! Z.to_nat (currentPickIndex state) = Some cur.
Proof. destruct Hclock as [Hcur _]. apply at_index_Some in Hcur. exact Hcur. Qed.

Lemma configured_after_pick : configured ls (stateAfterPick now state ls cur player).
Proof.
  destruct clock_lookup as [Hrange Hk].
  destruct Hclock as [_ Hopen].
  destruct Hcfg as [Hset Hord Hteams Hidx Hfilled Hstamp Hpicks Hcounts Hpool Hdrafted
                      Hparsed Hcomplete].
  unfold stateAfterPick.
  remember (Z.to_nat (currentPickIndex state)) as k eqn:Ek.
  constructor; simpl.
  - exact Hset.
  - rewrite list_fmap_insert, eraseSlot_filledSlot.
    rewrite list_insert_id by (rewrite list_lookup_fmap, Hk; reflexivity). exact Hord.
  - rewrite teamHeader_teamsAfterPick. exact Hteams.
  - rewrite length_insert. lia.
  - intros i p Hi. destruct (decide (i = k)) as [->|Hne].
    + rewrite list_lookup_insert_eq in Hi by (apply lookup_lt_Some in Hk; exact Hk).
      injection Hi as <-. simpl. split; [lia|eauto].
    + rewrite list_lookup_insert_ne in Hi by congruence.
      rewrite (Hfilled i p Hi). lia.
  - intros p Hp. apply list_elem_of_lookup in Hp as [i Hi].
    destruct (decide (i = k)) as [->|Hne].
    + rewrite list_lookup_insert_eq in Hi by (apply lookup_lt_Some in Hk; exact Hk).
      injection Hi as <-. simpl. split; eauto.
    + rewrite list_lookup_insert_ne in Hi by congruence.
      apply Hstamp. eapply list_elem_of_lookup_2. exact Hi.
  - intros t team' Ht. unfold teamsAfterPick in Ht.
    rewrite list_lookup_imap in Ht.
    destruct (teams state !! t) as [team|] eqn:Hteam; [|discriminate].
    simpl in Ht. injection Ht as <-.
    rewrite (playersOf_insert _ k cur player now _ Hk Hopen).
    2:{ intros i p Hi Hlt. destruct (DraftPick.player p) eqn:Hp; [|reflexivity].
        assert (Hsome : is_Some (DraftPick.player p)) by (rewrite Hp; eauto).
        apply (Hfilled i p Hi) in Hsome. lia. }
    rewrite <- (Hpicks t team Hteam).
    destruct (decide (DraftPick.teamIndex cur = Z.of_nat t)) as [Heq|Hne].
    + rewrite bool_decide_eq_false_2 by (intros H; apply H; symmetry; exact Heq).
      rewrite picks_assign. reflexivity.
    + rewrite bool_decide_eq_true_2 by congruence. rewrite app_nil_r. reflexivity.
  - intros team' Hin. unfold teamsAfterPick in Hin.
    apply elem_of_lookup_imap in Hin as (t & team & -> & Hteam).
    assert (Hold := Hcounts team (list_elem_of_lookup_2 _ _ _ Hteam)).
    destruct (bool_decide _); [exact Hold|].
    apply count_bounds_assign. exact Hold.
  - etrans; [apply sublist_filter|exact Hpool].
  - intros slot p q Hslot Hp Hq.
    apply list_elem_of_filter in Hq as [Hne Hq].
    apply list_elem_of_lookup in Hslot as [i Hi].
    destruct (decide (i = k)) as [->|Hik].
    + rewrite list_lookup_insert_eq in Hi by (apply lookup_lt_Some in Hk; exact Hk).
      injection Hi as <-. simpl in Hp. injection Hp as <-. exact Hne.
    + rewrite list_lookup_insert_ne in Hi by congruence.
      eapply Hdrafted; [eapply list_elem_of_lookup_2; exact Hi|exact Hp|exact Hq].
  - exact Hparsed.
  - rewrite length_insert, Z.leb_le. lia.
Qed.

End PickKeepsInvariant.

Lemma configured_ext ls state state' :
  leagueSettings state' = leagueSettings state →
  allPlayers state' = allPlayers state →
  availablePlayers state' = availablePlayers state →
  draftOrder state' = draftOrder state →
  currentPickIndex state' = currentPickIndex state →
  teams state' = teams state →
  isDraftComplete state' = isDraftComplete state →
  configured ls state → configured ls state'.
Proof.
  destruct state, state'. simpl. intros -> -> -> -> -> -> -> []. simpl in *.
  constructor; simpl; assumption.
Qed.

Lemma invariant_ext state state' :
  leagueSettings state' = leagueSettings state →
  allPlayers state' = allPlayers state →
  availablePlayers state' = availablePlayers state →
  draftOrder state' = draftOrder state →
  currentPickIndex state' = currentPickIndex state →
  teams state' = teams state →
  isDraftComplete state' = isDraftComplete state →
  sessionInvariant state → sessionInvariant state'.
Proof.
  intros H1 H2 H3 H4 H5 H6 H7 [Hun|[ls Hcfg]].
  - left. unfold unconfigured in *. rewrite H1, H2, H3, H4, H5, H6, H7. exact Hun.
  - right. exists ls. eapply configured_ext; eassumption.
Qed.

Lemma unconfigured_stale state : unconfigured state → staleSlot state.
Proof.
  intros (_ & Hord & _). unfold staleSlot, at_index. rewrite Hord.
  destruct (_ <? 0); [exact I|]. rewrite lookup_nil. exact I.
Qed.

Lemma stale_or_clock state :
  staleSlot state ∨ ∃ cur, onTheClock state cur.
Proof.
  unfold staleSlot, onTheClock.
  destruct (at_index _ _) as [cur|]; [|left; exact I].
  destruct (DraftPick.player cur) eqn:Hp; [left; eauto|right; eauto].
Qed.

Lemma makePick_invariant now state player state' :
  sessionInvariant state → makePick now state player = Next state' →
  sessionInvariant state'.
Proof.
  intros Hinv Hstep.
  destruct (stale_or_clock state) as [Hstale|[cur Hcur]].
  - rewrite makePick_stale in Hstep by assumption. injection Hstep as <-. exact Hinv.
  - destruct Hinv as [Hun|[ls Hcfg]].
    + apply unconfigured_stale in Hun. rewrite makePick_stale in Hstep by assumption.
      injection Hstep as <-. left.
      unfold staleSlot in Hun. destruct Hcur as [Hat Hp]. rewrite Hat, Hp in Hun.
      destruct Hun as [? [=]].
    + rewrite (makePick_Next now state ls cur player (cfg_settings _ _ Hcfg) Hcur) in Hstep.
      injection Hstep as <-. right. exists ls.
      apply configured_after_pick; assumption.
Qed.

Lemma autoPick_invariant now state state' :
  sessionInvariant state → autoPick now state = Next state' →
  sessionInvariant state'.
Proof.
  intros Hinv. unfold autoPick.
  destruct (at_index _ _) as [cur|]; [|intros [= <-]; exact Hinv].
  destruct (DraftPick.player cur); [intros [= <-]; exact Hinv|].
  destruct (leagueSettings state); [|discriminate].
  destruct (autoPickPlayer _ _ _) as [[p|]|]; [|intros [= <-]; exact Hinv|discriminate].
  apply makePick_invariant. exact Hinv.
Qed.

Lemma parsePositions_fmap players :
  Forall (λ p, positions p = parsePositions (positionCode p))
    ((λ p, mkPlayer (playerId p) (skaterFullName p) (teamAbbrevs p) (positionCode p)
                    (parsePositions (positionCode p))
                    (espnADP p) (espnPercentOwned p) (espnTotalRanking p)) <$> players).
Proof. apply Forall_fmap, Forall_true. intros p. reflexivity. Qed.

Lemma generate_unfilled numTeams numRounds user p :
  p ∈ generateSnakeDraftOrder numTeams numRounds user →
  DraftPick.player p = None ∧ DraftPick.timestamp p = None.
Proof.
  intros Hp. apply generate_slot in Hp as (Her & _). rewrite <- Her. split; reflexivity.
Qed.

Lemma initialize_configured now state settings players state' :
  draftReducer now state (INITIALIZE_LEAGUE settings players) = Next state' →
  configured settings state'.
Proof.
  simpl. intros [= <-].
  set (order := generateSnakeDraftOrder _ _ _).
  assert (Hun : ∀ p, p ∈ order → DraftPick.player p = None ∧ DraftPick.timestamp p = None)
    by (intros p; apply generate_unfilled).
  constructor; simpl.
  - reflexivity.
  - apply generate_erased.
  - reflexivity.
  - lia.
  - intros i p Hi. apply list_elem_of_lookup_2, Hun in Hi as [-> _].
    split; [intros [? [=]]|lia].
  - intros p Hp. apply Hun in Hp as [-> ->]. split; intros [? [=]].
  - intros t team Ht. rewrite playersOf_unfilled by (intros p Hp; apply Hun, Hp).
    unfold initializeTeamRosters in Ht. rewrite list_lookup_fmap in Ht.
    destruct (seqZ 0 _ !! t); [|discriminate]. injection Ht as <-. reflexivity.
  - intros team Hin. unfold initializeTeamRosters in Hin.
    apply list_elem_of_fmap in Hin as (i & -> & _). simpl.
    split; [unfold withinCapacity; simpl; lia|]. split; [reflexivity|auto].
  - reflexivity.
  - intros slot p q Hslot Hp. apply Hun in Hslot as [Hnone _]. congruence.
  - apply parsePositions_fmap.
  - split; [discriminate|lia].
Qed.

(** Every state of a session meets the invariant. *)
Lemma reachable_invariant state : reachable state → sessionInvariant state.
Proof.
  induction 1 as [|now state action state' Hreach IH Hstep].
  - left. repeat split.
  - destruct action; simpl in Hstep.
    + right. exists settings. apply (initialize_configured now state settings players).
      exact Hstep.
    + injection Hstep as <-. eapply invariant_ext; [..|exact IH]; reflexivity.
    + eapply makePick_invariant; eassumption.
    + eapply autoPick_invariant; eassumption.
    + injection Hstep as <-. eapply invariant_ext; [..|exact IH]; reflexivity.
    + injection Hstep as <-. eapply invariant_ext; [..|exact IH]; reflexivity.
    + injection Hstep as <-. eapply invariant_ext; [..|exact IH]; reflexivity.
    + injection Hstep as <-. eapply invariant_ext; [..|exact IH]; reflexivity.
    + injection Hstep as <-. left. repeat split.
Qed.

Lemma reachable_configured state ls :
  reachable state → leagueSettings state = Some ls → configured ls state.
Proof.
  intros Hreach Hls. destruct (reachable_invariant state Hreach) as [Hun|[ls' Hcfg]].
  - destruct Hun as [Hnone _]. congruence.
  - pose proof (cfg_settings _ _ Hcfg) as Hls'. rewrite Hls in Hls'.
    injection Hls' as <-. exact Hcfg.
Qed.

(** ** The teams and the slots of a session *)

Lemma length_initialize numTeams user :
  length (initializeTeamRosters numTeams user) = Z.to_nat numTeams.
Proof. unfold initializeTeamRosters. rewrite length_fmap, length_seqZ. reflexivity. Qed.

Lemma initialize_lookup numTeams user (t : nat) team :
  initializeTeamRosters numTeams user !! t = Some team →
  team = mkRoster (Z.of_nat t)
           (if Z.of_nat t =? user - 1 then "Your Team"
            else "Team " +:+ pretty (Z.of_nat t + 1))
           (Z.of_nat t =? user - 1) [] emptyCounts.
Proof.
  unfold initializeTeamRosters. rewrite list_lookup_fmap. intros H.
  destruct (seqZ 0 numTeams !! t) as [i|] eqn:Hi; [|discriminate].
  apply lookup_seqZ in Hi as [-> _]. simpl in H. injection H as <-. reflexivity.
Qed.

Lemma configured_teams_length ls state :
  configured ls state → length (teams state) = Z.to_nat (numTeams ls).
Proof.
  intros Hcfg. pose proof (cfg_teams _ _ Hcfg) as Hh.
  apply (f_equal length) in Hh. rewrite !length_fmap, length_initialize in Hh. exact Hh.
Qed.

Lemma configured_team ls state (t : nat) team :
  configured ls state → teams state !! t = Some team →
  Z.of_nat t < numTeams ls ∧ teamIndex team = Z.of_nat t
  ∧ isUser team = (Z.of_nat t =? userDraftPosition ls - 1).
Proof.
  intros Hcfg Ht.
  pose proof (lookup_lt_Some _ _ _ Ht) as Hlt.
  rewrite (configured_teams_length _ _ Hcfg) in Hlt.
  pose proof (cfg_teams _ _ Hcfg) as Hh.
  apply (f_equal (λ l, l !! t)) in Hh. rewrite !list_lookup_fmap, Ht in Hh.
  destruct (initializeTeamRosters _ _ !! t) as [r|] eqn:Hr; [|discriminate].
  apply initialize_lookup in Hr. subst r. simpl in Hh.
  unfold teamHeader in Hh. simpl in Hh. injection Hh as H1 _ H3.
  split; [lia|]. split; assumption.
Qed.

Lemma configured_slot ls state p :
  configured ls state → p ∈ draftOrder state →
  0 ≤ DraftPick.teamIndex p < numTeams ls
  ∧ DraftPick.isUserPick p = (DraftPick.teamIndex p =? userDraftPosition ls - 1)
  ∧ 1 ≤ DraftPick.round p ≤ calculateTotalRounds (rosterConfig ls).
Proof.
  intros Hcfg Hp.
  assert (He : eraseSlot p ∈ generateSnakeDraftOrder (numTeams ls)
                 (calculateTotalRounds (rosterConfig ls)) (userDraftPosition ls)).
  { rewrite <- (cfg_order _ _ Hcfg). apply list_elem_of_fmap. eauto. }
  apply generate_slot in He as (_ & H1 & H2 & H3 & _). simpl in *. auto.
Qed.

(** The team a slot names exists; it is the user's team exactly when the
    slot is a user pick. *)
Lemma configured_slot_team ls state p :
  configured ls state → p ∈ draftOrder state →
  ∃ team, at_index (teams state) (DraftPick.teamIndex p) = Some team
          ∧ teamIndex team = DraftPick.teamIndex p
          ∧ isUser team = DraftPick.isUserPick p.
Proof.
  intros Hcfg Hp. destruct (configured_slot _ _ _ Hcfg Hp) as (Hr & Hu & _).
  destruct (lookup_lt_is_Some_2 (teams state) (Z.to_nat (DraftPick.teamIndex p)))
    as [team Ht].
  { rewrite (configured_teams_length _ _ Hcfg). lia. }
  exists team. destruct (configured_team _ _ _ _ Hcfg Ht) as (_ & Hi & Hus).
  rewrite Z2Nat.id in Hi, Hus by lia.
  split; [|split; [exact Hi|congruence]].
  apply at_index_Some. split; [|exact Ht].
  apply lookup_lt_Some in Ht. lia.
Qed.

Lemma onTheClock_elem state cur : onTheClock state cur → cur ∈ draftOrder state.
Proof.
  intros [Hat _]. apply at_index_Some in Hat as [_ Hat].
  eapply list_elem_of_lookup_2. exact Hat.
Qed.

Lemma selectAutoPick_elem pool roster cfg p :
  selectAutoPick pool roster cfg = Some p → p ∈ pool.
Proof.
  unfold selectAutoPick. destruct pool as [|first rest] eqn:Hpool; [discriminate|].
  rewrite <- Hpool.
  destruct (hasCriticalPositionalNeeds roster cfg) as [hasNeeds cps].
  assert (Hred : ∀ n ns, reduceBestADP n ns ∈ n :: ns).
  { intros n ns. destruct (reduceBestADP_lowest n ns) as (before & after & Heq & _).
    rewrite Heq. apply elem_of_app. right. left. }
  destruct (if hasNeeds then _ else _) as [|n ns] eqn:Hthose; intros [= <-].
  - rewrite Hpool. apply Hred.
  - destruct hasNeeds; [|discriminate].
    assert (Hin : reduceBestADP n ns ∈ List.filter (fillsCritical cps) pool)
      by (rewrite Hthose; apply Hred).
    apply elem_of_need_players in Hin. tauto.
Qed.

Lemma selectAutoPick_Some pool roster cfg :
  pool ≠ [] → is_Some (selectAutoPick pool roster cfg).
Proof.
  unfold selectAutoPick. destruct pool as [|first rest]; [congruence|]. intros _.
  destruct (hasCriticalPositionalNeeds roster cfg) as [hasNeeds cps].
  destruct (if hasNeeds then _ else _); eauto.
Qed.

(** X1: no action dispatched in a session makes the reducer raise: from
    every state of a session every action leads to a next state.  (The
    read of the roster configuration on null league settings and the read of
    an undefined roster are never reached.) *)
Theorem session_never_raises now state action :
  reachable state → ∃ state', draftReducer now state action = Next state'.
Proof.
  intros Hr. destruct action; simpl; eauto.
  - destruct (stale_or_clock state) as [Hs|[cur Hc]].
    + rewrite makePick_stale by exact Hs. eauto.
    + destruct (reachable_onTheClock _ _ Hr Hc) as [ls Hls].
      rewrite (makePick_Next now state ls cur player Hls Hc). eauto.
  - destruct (stale_or_clock state) as [Hs|[cur Hc]].
    + rewrite autoPick_stale by exact Hs. eauto.
    + destruct (reachable_onTheClock _ _ Hr Hc) as [ls Hls].
      pose proof (reachable_configured _ _ Hr Hls) as Hcfg.
      destruct (configured_slot_team _ _ _ Hcfg (onTheClock_elem _ _ Hc))
        as (team & Hteam & _).
      unfold autoPick. destruct Hc as [Hat Hopen].
      rewrite Hat, Hopen, Hls, Hteam. simpl.
      destruct (selectAutoPick _ _ _) as [p|]; [|eauto].
      rewrite (makePick_Next now state ls cur p Hls (conj Hat Hopen)). eauto.
Qed.

Lemma session_never_raises_witness :
  ∃ state', draftReducer 2 (sessionAfter duelStart) AUTO_PICK = Next state'.
Proof. apply session_never_raises. apply sessionAfter_reachable. Defined.

Lemma at_index_of_nat {A : Type} (arr : list A) (i : nat) :
  at_index arr (Z.of_nat i) = arr !! i.
Proof.
  unfold at_index. destruct (Z.ltb_spec (Z.of_nat i) 0); [lia|].
  rewrite Nat2Z.id. reflexivity.
Qed.

Lemma invariant_order state (i : nat) p :
  sessionInvariant state → draftOrder state !! i = Some p →
  ∃ ls, configured ls state.
Proof.
  intros [(_ & Hnil & _)|Hcfg] Hp; [|exact Hcfg].
  rewrite Hnil in Hp. discriminate.
Qed.

Lemma invariant_teams state team :
  sessionInvariant state → team ∈ teams state → ∃ ls, configured ls state.
Proof.
  intros [(_ & _ & Hnil & _)|Hcfg] Hp; [|exact Hcfg].
  rewrite Hnil in Hp. inversion Hp.
Qed.

Lemma configured_overallPick ls state (i : nat) p :
  configured ls state → draftOrder state !! i = Some p →
  DraftPick.overallPick p = Z.of_nat i + 1.
Proof.
  intros Hcfg Hp.
  change (DraftPick.overallPick p) with (DraftPick.overallPick (eraseSlot p)).
  apply (generate_overallPick (numTeams ls) (calculateTotalRounds (rosterConfig ls))
           (userDraftPosition ls)).
  rewrite <- (cfg_order _ _ Hcfg), list_lookup_fmap, Hp. reflexivity.
Qed.

(** X2: in every state of a session the slots are filled in order: the
    slot at index i holds a player exactly when i is below the current pick
    index, a slot has a timestamp exactly when it holds a player, and the
    current pick index lies between 0 and the number of slots.  The slot at
    index i carries the overall pick number i + 1, so that the test
    [pick.overallPick === state.currentPickIndex + 1] of the draft board
    singles out the current slot. *)
Theorem session_slots_in_order state (i : nat) p :
  reachable state → draftOrder state !! i = Some p →
  0 ≤ currentPickIndex state ≤ Z.of_nat (length (draftOrder state))
  ∧ (is_Some (DraftPick.player p) ↔ Z.of_nat i < currentPickIndex state)
  ∧ (is_Some (DraftPick.timestamp p) ↔ is_Some (DraftPick.player p))
  ∧ DraftPick.overallPick p = Z.of_nat i + 1
  ∧ (DraftPick.overallPick p = currentPickIndex state + 1
     ↔ at_index (draftOrder state) (currentPickIndex state) = Some p).
Proof.
  intros Hr Hp.
  destruct (invariant_order _ _ _ (reachable_invariant _ Hr) Hp) as [ls Hcfg].
  pose proof (configured_overallPick _ _ _ _ Hcfg Hp) as Hov.
  split; [exact (cfg_index _ _ Hcfg)|].
  split; [exact (cfg_filled _ _ Hcfg i p Hp)|].
  split; [apply (cfg_stamped _ _ Hcfg); eapply list_elem_of_lookup_2; exact Hp|].
  split; [exact Hov|].
  rewrite Hov. split.
  - intros Hi. assert (currentPickIndex state = Z.of_nat i) as -> by lia.
    rewrite at_index_of_nat. exact Hp.
  - intros Hat. apply at_index_Some in Hat as [Hrange Hat].
    pose proof (configured_overallPick _ _ _ _ Hcfg Hat) as Hov'.
    rewrite Hov in Hov'. lia.
Qed.

Lemma session_slots_in_order_witness :
  (is_Some (DraftPick.player (filledSlot firstSlot centerA 2))
   ↔ Z.of_nat 0 < currentPickIndex (sessionAfter duelOnePick))
  ∧ DraftPick.overallPick (filledSlot firstSlot centerA 2) = Z.of_nat 0 + 1.
Proof.
  pose proof (session_slots_in_order (sessionAfter duelOnePick) 0
                (filledSlot firstSlot centerA 2)
                (sessionAfter_reachable duelOnePick) eq_refl) as (_ & H1 & _ & H2 & _).
  split; [exact H1|exact H2].
Defined.

Lemma length_playersOf order t :
  length (playersOf order t)
  = length (filter (λ p, DraftPick.teamIndex p = t ∧ is_Some (DraftPick.player p)) order).
Proof.
  unfold playersOf. induction order as [|p rest IH]; [reflexivity|].
  rewrite !filter_cons.
  destruct (decide (DraftPick.teamIndex p = t)) as [Ht|Ht].
  - simpl. destruct (DraftPick.player p) as [q|] eqn:Hq.
    + rewrite decide_True by (split; [exact Ht|eauto]).
      simpl. f_equal. exact IH.
    + rewrite decide_False; [exact IH|].
      intros [_ Hs]. destruct Hs; discriminate.
  - rewrite decide_False by tauto. exact IH.
Qed.

(** X3: in every state of a session the roster of a team sits at the
    index its [teamIndex] names, and its [picks] are exactly the players of
    the filled slots of that team in the draft order, in slot order; so the
    pick count the draft board computes from the draft order is the length
    of the roster's pick list. *)
Theorem session_rosters_follow_order state team :
  reachable state → team ∈ teams state →
  at_index (teams state) (teamIndex team) = Some team
  ∧ picks team = playersOf (draftOrder state) (teamIndex team)
  ∧ pickCount (draftOrder state) team = Z.of_nat (length (picks team)).
Proof.
  intros Hr Hin.
  destruct (invariant_teams _ _ (reachable_invariant _ Hr) Hin) as [ls Hcfg].
  apply list_elem_of_lookup in Hin as [t Ht].
  destruct (configured_team _ _ _ _ Hcfg Ht) as (_ & Hidx & _).
  pose proof (cfg_picks _ _ Hcfg t team Ht) as Hpicks. rewrite <- Hidx in Hpicks.
  split; [rewrite Hidx, at_index_of_nat; exact Ht|].
  split; [exact Hpicks|].
  unfold pickCount, teamPicks. rewrite Hpicks, length_playersOf. reflexivity.
Qed.

Lemma session_rosters_follow_order_witness :
  picks goalieTeam = playersOf (draftOrder (sessionAfter duelTwoPicks)) (teamIndex goalieTeam)
  ∧ pickCount (draftOrder (sessionAfter duelTwoPicks)) goalieTeam
    = Z.of_nat (length (picks goalieTeam)).
Proof.
  apply (session_rosters_follow_order (sessionAfter duelTwoPicks) goalieTeam).
  - apply sessionAfter_reachable.
  - vm_compute. right. left.
Defined.

(** X4: in every state of a session the available pool is a sub-list of
    the full player list (same relative order), every available player
    carries the positions parsed from its position code, and no available
    player has the identifier of a player that sits in a slot of the draft
    order or in the pick list of a team. *)
Theorem session_pool state :
  reachable state →
  availablePlayers state `sublist_of` allPlayers state
  ∧ (∀ q, q ∈ availablePlayers state → positions q = parsePositions (positionCode q))
  ∧ (∀ slot p q, slot ∈ draftOrder state → DraftPick.player slot = Some p →
                 q ∈ availablePlayers state → playerId q ≠ playerId p)
  ∧ (∀ team p q, team ∈ teams state → p ∈ picks team →
                 q ∈ availablePlayers state → playerId q ≠ playerId p).
Proof.
  intros Hr. destruct (reachable_invariant _ Hr) as [Hun|[ls Hcfg]].
  - destruct Hun as (_ & Ho & Ht & Hall & Hav & _). rewrite Ho, Ht, Hall, Hav.
    split; [reflexivity|].
    split; [intros q Hq; inversion Hq|].
    split; [intros slot p q Hs; inversion Hs|intros team p q Hs; inversion Hs].
  - split; [exact (cfg_pool _ _ Hcfg)|].
    split.
    { intros q Hq. pose proof (cfg_parsed _ _ Hcfg) as Hall.
      rewrite Forall_forall in Hall. apply Hall.
      eapply elem_of_sublist; [exact Hq|exact (cfg_pool _ _ Hcfg)]. }
    split; [exact (cfg_drafted _ _ Hcfg)|].
    intros team p q Hteam Hp Hq.
    apply list_elem_of_lookup in Hteam as [t Ht].
    rewrite (cfg_picks _ _ Hcfg t team Ht) in Hp.
    unfold playersOf in Hp. apply list_elem_of_omap in Hp as (slot & Hslot & Hplayer).
    apply list_elem_of_filter in Hslot as [_ Hslot].
    exact (cfg_drafted _ _ Hcfg slot p q Hslot Hplayer Hq).
Qed.

Lemma session_pool_witness :
  availablePlayers (sessionAfter duelTwoPicks) `sublist_of` allPlayers (sessionAfter duelTwoPicks)
  ∧ ∀ q, q ∈ availablePlayers (sessionAfter duelTwoPicks) → playerId q ≠ playerId goalieA.
Proof.
  destruct (session_pool (sessionAfter duelTwoPicks) (sessionAfter_reachable duelTwoPicks))
    as (H1 & _ & _ & H2).
  split; [exact H1|].
  intros q Hq. apply (H2 goalieTeam goalieA q); [|left|exact Hq].
  vm_compute. right. left.
Defined.

Lemma configured_picks_bound ls state team :
  configured ls state → team ∈ teams state →
  Z.of_nat (length (picks team)) ≤ Z.max 0 (calculateTotalRounds (rosterConfig ls)).
Proof.
  intros Hcfg Hin. apply list_elem_of_lookup in Hin as [t Ht].
  destruct (configured_team _ _ _ _ Hcfg Ht) as (Hlt & _).
  rewrite (cfg_picks _ _ Hcfg t team Ht).
  unfold playersOf.
  assert (Hle : (length (omap DraftPick.player
                    (filter (λ p, DraftPick.teamIndex p = Z.of_nat t) (draftOrder state)))
                 ≤ length (filter (λ p, DraftPick.teamIndex p = Z.of_nat t)
                             (eraseSlot <$> draftOrder state)))%nat).
  { assert (Hom : ∀ l : list DraftPick.t,
              (length (omap DraftPick.player l) ≤ length l)%nat).
    { intros l. induction l as [|p l IH]; [reflexivity|].
      cbn. destruct (DraftPick.player p); cbn; lia. }
    rewrite filter_fmap', length_fmap. apply Hom. }
  rewrite (cfg_order _ _ Hcfg) in Hle.
  destruct (Z.le_gt_cases 0 (calculateTotalRounds (rosterConfig ls))) as [Hpos|Hneg].
  - rewrite generate_team_slots in Hle by lia. lia.
  - rewrite generate_nil in Hle by lia. simpl in Hle. lia.
Qed.

(** X5: in every state of a session, for every team, each filled-count is
    at least 0 and the filled-counts sum to at most the number of picks of
    the team, which is at most the number of rounds; when no capacity of the
    roster configuration is negative, no filled-count exceeds its
    capacity. *)
Theorem session_capacity state ls team :
  reachable state → leagueSettings state = Some ls → team ∈ teams state →
  withinCapacity emptyCounts (filledPositions team)
  ∧ sumCounts (filledPositions team) ≤ Z.of_nat (length (picks team))
  ∧ Z.of_nat (length (picks team)) ≤ Z.max 0 (calculateTotalRounds (rosterConfig ls))
  ∧ (withinCapacity emptyCounts (rosterConfig ls) →
     withinCapacity (filledPositions team) (rosterConfig ls)).
Proof.
  intros Hr Hls Hin. pose proof (reachable_configured _ _ Hr Hls) as Hcfg.
  destruct (cfg_counts _ _ Hcfg team Hin) as (H1 & H2 & H3).
  split; [exact H1|]. split; [exact H2|].
  split; [exact (configured_picks_bound _ _ _ Hcfg Hin)|exact H3].
Qed.

Lemma session_capacity_witness :
  sumCounts (filledPositions goalieTeam) ≤ Z.of_nat (length (picks goalieTeam))
  ∧ withinCapacity (filledPositions goalieTeam) centerGoalieConfig.
Proof.
  destruct (session_capacity (sessionAfter duelTwoPicks) duelSettings goalieTeam
              (sessionAfter_reachable duelTwoPicks) eq_refl) as (_ & H1 & _ & H2).
  - vm_compute. right. left.
  - split; [exact H1|]. apply H2. vm_compute. intuition discriminate.
Defined.

Lemma filter_iff_in {A : Type} (P1 P2 : A → Prop)
    `{∀ x, Decision (P1 x)} `{∀ x, Decision (P2 x)} (l : list A) :
  (∀ x, x ∈ l → P1 x ↔ P2 x) → filter P1 l = filter P2 l.
Proof.
  induction l as [|a l IH]; intros Hall; [reflexivity|].
  rewrite !filter_cons.
  pose proof (Hall a (list_elem_of_here a l)) as Ha.
  rewrite IH by (intros x Hx; apply Hall; right; exact Hx).
  destruct (decide (P1 a)), (decide (P2 a)); tauto || reflexivity.
Qed.

Lemma length_playersOf_filled order t :
  (∀ p, p ∈ order → is_Some (DraftPick.player p)) →
  length (playersOf order t) = length (filter (λ p, DraftPick.teamIndex p = t) order).
Proof.
  intros Hall. rewrite length_playersOf. f_equal.
  apply filter_iff_in. intros p Hp. specialize (Hall p Hp). tauto.
Qed.

Lemma configured_team_slots ls state (t : nat) team :
  configured ls state → teams state !! t = Some team →
  0 ≤ calculateTotalRounds (rosterConfig ls) →
  length (filter (λ p, DraftPick.teamIndex p = Z.of_nat t) (draftOrder state))
  = Z.to_nat (calculateTotalRounds (rosterConfig ls)).
Proof.
  intros Hcfg Ht Hpos.
  destruct (configured_team _ _ _ _ Hcfg Ht) as (Hlt & _).
  rewrite <- (generate_team_slots (numTeams ls) (calculateTotalRounds (rosterConfig ls))
                (userDraftPosition ls) (Z.of_nat t)) by lia.
  rewrite <- (cfg_order _ _ Hcfg), filter_fmap', length_fmap. reflexivity.
Qed.

Lemma configured_rounds_pos ls state :
  configured ls state → draftOrder state ≠ [] →
  0 < calculateTotalRounds (rosterConfig ls).
Proof.
  intros Hcfg Hne.
  destruct (Z.le_gt_cases (calculateTotalRounds (rosterConfig ls)) 0) as [Hle|Hgt]; [|lia].
  exfalso. apply Hne. apply fmap_nil_inv with (f := eraseSlot).
  rewrite (cfg_order _ _ Hcfg). apply generate_nil. right. exact Hle.
Qed.

(** X6: in every state of a session the flag [isDraftComplete] is set
    exactly when the draft order is not empty and every slot of it holds a
    player.  When it is set there is no current slot any more (a further
    pick changes nothing) and every team holds exactly as many picks as the
    roster configuration has rounds. *)
Theorem draft_completion state ls :
  reachable state → leagueSettings state = Some ls →
  (isDraftComplete state = true
   ↔ draftOrder state ≠ [] ∧ ∀ p, p ∈ draftOrder state → is_Some (DraftPick.player p))
  ∧ (isDraftComplete state = true →
     staleSlot state
     ∧ ∀ team, team ∈ teams state →
         Z.of_nat (length (picks team)) = calculateTotalRounds (rosterConfig ls)).
Proof.
  intros Hr Hls. pose proof (reachable_configured _ _ Hr Hls) as Hcfg.
  pose proof (cfg_index _ _ Hcfg) as Hidx.
  assert (Hiff : isDraftComplete state = true
                 ↔ draftOrder state ≠ []
                   ∧ ∀ p, p ∈ draftOrder state → is_Some (DraftPick.player p)).
  { rewrite (cfg_complete _ _ Hcfg). split.
    - intros [Hpos Hlen]. split.
      + intros Hnil. rewrite Hnil in Hidx. simpl in Hidx. lia.
      + intros p Hp. apply list_elem_of_lookup in Hp as [i Hi].
        apply (cfg_filled _ _ Hcfg i p Hi).
        apply lookup_lt_Some in Hi. lia.
    - intros [Hne Hall].
      destruct (draftOrder state) as [|p0 rest] eqn:Hord; [congruence|].
      assert (Hlast : is_Some ((p0 :: rest) !! length rest)).
      { apply lookup_lt_is_Some. simpl. lia. }
      destruct Hlast as [p Hp]. rewrite <- Hord in Hp, Hall.
      pose proof (proj1 (cfg_filled _ _ Hcfg _ p Hp)
                    (Hall p (list_elem_of_lookup_2 _ _ _ Hp))) as Hlt.
      simpl length in *. lia. }
  split; [exact Hiff|].
  intros Hdone. pose proof (proj1 Hiff Hdone) as [Hne Hall].
  apply (cfg_complete _ _ Hcfg) in Hdone as [Hpos Hlen].
  split.
  - unfold staleSlot.
    destruct (at_index (draftOrder state) (currentPickIndex state)) as [cur|] eqn:Hat;
      [|exact I].
    apply at_index_Some in Hat as [Hrange _]. lia.
  - intros team Hin. apply list_elem_of_lookup in Hin as [t Ht].
    pose proof (configured_rounds_pos _ _ Hcfg Hne) as Hrounds.
    rewrite (cfg_picks _ _ Hcfg t team Ht), (length_playersOf_filled _ _ Hall).
    rewrite (configured_team_slots _ _ _ _ Hcfg Ht) by lia. lia.
Qed.

Lemma draft_completion_witness :
  isDraftComplete (sessionAfter duelFinished) = true
  ∧ staleSlot (sessionAfter duelFinished)
  ∧ ∀ team, team ∈ teams (sessionAfter duelFinished) →
      Z.of_nat (length (picks team)) = calculateTotalRounds (rosterConfig duelSettings).
Proof.
  destruct (draft_completion (sessionAfter duelFinished) duelSettings
              (sessionAfter_reachable duelFinished) eq_refl) as [_ H].
  split; [reflexivity|]. apply H. reflexivity.
Defined.

(** X7: in a state of a session with an open current slot and a pool that
    is not empty, [AUTO_PICK] is the [MAKE_PICK] of the player
    [selectAutoPick] returns for the team of the slot; that player is in
    the pool, the pick index advances by one, the pool gets strictly
    shorter and holds no player with the identifier of the pick any more. *)
Theorem autoPick_drafts_from_pool now state cur :
  reachable state → onTheClock state cur → availablePlayers state ≠ [] →
  ∃ ls team p state',
    leagueSettings state = Some ls
    ∧ at_index (teams state) (DraftPick.teamIndex cur) = Some team
    ∧ selectAutoPick (availablePlayers state) team (rosterConfig ls) = Some p
    ∧ p ∈ availablePlayers state
    ∧ draftReducer now state AUTO_PICK = Next state'
    ∧ draftReducer now state (MAKE_PICK p) = Next state'
    ∧ currentPickIndex state' = currentPickIndex state + 1
    ∧ (length (availablePlayers state') < length (availablePlayers state))%nat
    ∧ ∀ q, q ∈ availablePlayers state' → playerId q ≠ playerId p.
Proof.
  intros Hr Hc Hpool.
  destruct (reachable_onTheClock _ _ Hr Hc) as [ls Hls].
  pose proof (reachable_configured _ _ Hr Hls) as Hcfg.
  destruct (configured_slot_team _ _ _ Hcfg (onTheClock_elem _ _ Hc))
    as (team & Hteam & _).
  destruct (selectAutoPick_Some (availablePlayers state) team (rosterConfig ls) Hpool)
    as [p Hsel].
  pose proof (selectAutoPick_elem _ _ _ _ Hsel) as Hin.
  exists ls, team, p, (stateAfterPick now state ls cur p).
  split; [exact Hls|]. split; [exact Hteam|]. split; [exact Hsel|]. split; [exact Hin|].
  split.
  { simpl. unfold autoPick. destruct Hc as [Hat Hopen].
    rewrite Hat, Hopen, Hls, Hteam. simpl. rewrite Hsel.
    apply (makePick_Next now state ls cur p Hls (conj Hat Hopen)). }
  split; [exact (makePick_Next now state ls cur p Hls Hc)|].
  split; [reflexivity|]. simpl. split.
  - apply (length_filter_lt _ _ p Hin). intros Hne. apply Hne. reflexivity.
  - intros q Hq. apply list_elem_of_filter in Hq as [Hq _]. exact Hq.
Qed.

Lemma autoPick_drafts_from_pool_witness :
  ∃ ls team p state',
    leagueSettings (sessionAfter duelStart) = Some ls
    ∧ at_index (teams (sessionAfter duelStart)) (DraftPick.teamIndex firstSlot) = Some team
    ∧ selectAutoPick (availablePlayers (sessionAfter duelStart)) team (rosterConfig ls)
      = Some p
    ∧ p ∈ availablePlayers (sessionAfter duelStart)
    ∧ draftReducer 2 (sessionAfter duelStart) AUTO_PICK = Next state'
    ∧ draftReducer 2 (sessionAfter duelStart) (MAKE_PICK p) = Next state'
    ∧ currentPickIndex state' = currentPickIndex (sessionAfter duelStart) + 1
    ∧ (length (availablePlayers state')
       < length (availablePlayers (sessionAfter duelStart)))%nat
    ∧ ∀ q, q ∈ availablePlayers state' → playerId q ≠ playerId p.
Proof.
  apply (autoPick_drafts_from_pool 2 (sessionAfter duelStart) firstSlot).
  - apply sessionAfter_reachable.
  - split; reflexivity.
  - discriminate.
Defined.

Lemma cpuCandidates_elem pool roster cfg p :
  p ∈ cpuCandidates pool roster cfg → p ∈ pool.
Proof.
  unfold cpuCandidates. destruct (_ && _); [|tauto].
  intros Hp. apply elem_of_need_players in Hp. tauto.
Qed.

Lemma cpuCandidates_nil pool roster cfg :
  cpuCandidates pool roster cfg = [] → pool = [].
Proof.
  unfold cpuCandidates. destruct (_ && _) eqn:Hc; [|tauto].
  apply andb_true_iff in Hc as [_ Hc]. apply Z.ltb_lt in Hc.
  intros Hnil. rewrite Hnil in Hc. simpl in Hc. lia.
Qed.

Lemma selectCPUPick_cpuCandidates pool roster cfg pick weights rnd :
  selectCPUPick pool roster cfg pick weights rnd
  = (λ top : DraftPlayer * Q, top.1)
    <$> head (sortByScore
                (imap (λ i player,
                         (player, scorePlayerForCPU player roster cfg pick weights (rnd i)))
                      (cpuCandidates pool roster cfg))).
Proof.
  unfold selectCPUPick. destruct pool as [|first rest] eqn:Hpool.
  { unfold cpuCandidates. simpl. destruct (_ && _); reflexivity. }
  rewrite <- Hpool.
  change (hasCriticalPositionalNeeds roster cfg)
    with ((hasCriticalPositionalNeeds roster cfg).1, criticalPositions roster cfg).
  cbv beta iota zeta.
  match goal with
  | |- context [imap ?f ?l] => change l with (cpuCandidates pool roster cfg)
  end.
  destruct (sortByScore _); reflexivity.
Qed.

Lemma selectCPUPick_Some pool roster cfg pick weights rnd :
  pool ≠ [] → is_Some (selectCPUPick pool roster cfg pick weights rnd).
Proof.
  intros Hne. rewrite selectCPUPick_cpuCandidates.
  destruct (sortByScore _) as [|top sorted] eqn:Hsort; [|simpl; eauto].
  apply sortByScore_nil in Hsort. exfalso. apply Hne.
  apply (cpuCandidates_nil pool roster cfg).
  apply (f_equal length) in Hsort. rewrite length_imap in Hsort.
  destruct (cpuCandidates pool roster cfg); [reflexivity|discriminate].
Qed.

Lemma selectCPUPick_elem pool roster cfg pick weights rnd p :
  selectCPUPick pool roster cfg pick weights rnd = Some p → p ∈ pool.
Proof.
  intros Hsel. apply selectCPUPick_top_score in Hsel as (i & Hi & _).
  apply (cpuCandidates_elem pool roster cfg). eapply list_elem_of_lookup_2. exact Hi.
Qed.

(** On an open slot [processCPUPick] reads the league settings and the
    team of the slot, both of which are there, and asks [selectCPUPick] with
    the pick number of the slot. *)
Lemma processCPUPick_open state rnd cur :
  reachable state → onTheClock state cur →
  ∃ ls team,
    leagueSettings state = Some ls
    ∧ at_index (teams state) (DraftPick.teamIndex cur) = Some team
    ∧ isUser team = DraftPick.isUserPick cur
    ∧ processCPUPick state rnd
      = Dispatches (MAKE_PICK <$> selectCPUPick (availablePlayers state) team
                                    (rosterConfig ls) (currentPickIndex state + 1)
                                    DEFAULT_CPU_WEIGHTS rnd).
Proof.
  intros Hr Hc. destruct (reachable_onTheClock _ _ Hr Hc) as [ls Hls].
  pose proof (reachable_configured _ _ Hr Hls) as Hcfg.
  destruct (configured_slot_team _ _ _ Hcfg (onTheClock_elem _ _ Hc))
    as (team & Hteam & _ & Huser).
  assert (Hov : DraftPick.overallPick cur = currentPickIndex state + 1).
  { destruct Hc as [Hat _]. apply at_index_Some in Hat as [Hrange Hat].
    rewrite (configured_overallPick _ _ _ _ Hcfg Hat). lia. }
  exists ls, team. split; [exact Hls|]. split; [exact Hteam|]. split; [exact Huser|].
  unfold processCPUPick. destruct Hc as [Hat Hopen].
  rewrite Hat, Hopen, Hls, Hteam, Hov. reflexivity.
Qed.

Lemma processCPUPick_stale state rnd :
  staleSlot state → processCPUPick state rnd = Dispatches None.
Proof.
  unfold processCPUPick, staleSlot.
  destruct (at_index (draftOrder state) (currentPickIndex state)) as [cur|];
    [|reflexivity].
  intros [p ->]. reflexivity.
Qed.

(** X8: in every state of a session [processCPUPick] never raises.  It
    dispatches nothing when the current slot is missing or filled or when
    the pool is empty; on an open slot with a pool that is not empty it
    dispatches [MAKE_PICK] of the player [selectCPUPick] returns for the
    team of the slot, scored at pick number [currentPickIndex + 1]; that
    player is in the pool. *)
Theorem processCPUPick_dispatch state rnd :
  reachable state →
  (staleSlot state ∨ availablePlayers state = [] →
   processCPUPick state rnd = Dispatches None)
  ∧ (∀ cur, onTheClock state cur → availablePlayers state ≠ [] →
       ∃ ls team p,
         leagueSettings state = Some ls
         ∧ at_index (teams state) (DraftPick.teamIndex cur) = Some team
         ∧ isUser team = DraftPick.isUserPick cur
         ∧ selectCPUPick (availablePlayers state) team (rosterConfig ls)
                         (currentPickIndex state + 1) DEFAULT_CPU_WEIGHTS rnd = Some p
         ∧ p ∈ availablePlayers state
         ∧ processCPUPick state rnd = Dispatches (Some (MAKE_PICK p))).
Proof.
  intros Hr. split.
  - intros [Hs|Hnil]; [exact (processCPUPick_stale _ _ Hs)|].
    destruct (stale_or_clock state) as [Hs|[cur Hc]];
      [exact (processCPUPick_stale _ _ Hs)|].
    destruct (processCPUPick_open state rnd cur Hr Hc) as (ls & team & _ & _ & _ & ->).
    rewrite Hnil. reflexivity.
  - intros cur Hc Hne.
    destruct (processCPUPick_open state rnd cur Hr Hc)
      as (ls & team & Hls & Hteam & Huser & Hp).
    destruct (selectCPUPick_Some (availablePlayers state) team (rosterConfig ls)
                (currentPickIndex state + 1) DEFAULT_CPU_WEIGHTS rnd Hne) as [p Hsel].
    exists ls, team, p.
    split; [exact Hls|]. split; [exact Hteam|]. split; [exact Huser|].
    split; [exact Hsel|]. split; [exact (selectCPUPick_elem _ _ _ _ _ _ _ Hsel)|].
    rewrite Hp, Hsel. reflexivity.
Qed.

Lemma processCPUPick_dispatch_witness :
  ∃ ls team p,
    leagueSettings (sessionAfter duelOnePick) = Some ls
    ∧ at_index (teams (sessionAfter duelOnePick)) (DraftPick.teamIndex secondSlot)
      = Some team
    ∧ isUser team = DraftPick.isUserPick secondSlot
    ∧ selectCPUPick (availablePlayers (sessionAfter duelOnePick)) team (rosterConfig ls)
                    (currentPickIndex (sessionAfter duelOnePick) + 1)
                    DEFAULT_CPU_WEIGHTS (λ _, 0%Q) = Some p
    ∧ p ∈ availablePlayers (sessionAfter duelOnePick)
    ∧ processCPUPick (sessionAfter duelOnePick) (λ _, 0%Q)
      = Dispatches (Some (MAKE_PICK p)).
Proof.
  apply (processCPUPick_dispatch (sessionAfter duelOnePick) (λ _, 0%Q)
           (sessionAfter_reachable duelOnePick)).
  - split; reflexivity.
  - discriminate.
Defined.

(** X9: when [handleDraftPlayer] dispatches in a state of a session, it
    dispatches [MAKE_PICK] of the player clicked, the current slot is open
    and belongs to the user's team (the team at index
    [userDraftPosition - 1]), the reducer appends the player to the pick
    list of that team and leaves every other team as it is. *)
Theorem handleDraftPlayer_user_pick now state player action :
  reachable state → handleDraftPlayer state player = Some action →
  ∃ cur ls (t : nat) team state',
    action = MAKE_PICK player
    ∧ onTheClock state cur ∧ DraftPick.isUserPick cur = true
    ∧ leagueSettings state = Some ls
    ∧ Z.of_nat t = userDraftPosition ls - 1
    ∧ teams state !! t = Some team ∧ isUser team = true
    ∧ draftReducer now state action = Next state'
    ∧ (∃ team', teams state' !! t = Some team' ∧ picks team' = picks team ++ [player])
    ∧ (∀ t' : nat, t' ≠ t → teams state' !! t' = teams state !! t').
Proof.
  intros Hr. unfold handleDraftPlayer, getCurrentPickInfo. cbn [PickInfo.isUserTurn].
  destruct (negb _ || _) eqn:Hguard; [discriminate|]. intros [= <-].
  apply orb_false_iff in Hguard as [Huser Hdone]. apply negb_false_iff in Huser.
  destruct (at_index (draftOrder state) (currentPickIndex state)) as [cur|] eqn:Hat;
    [|discriminate].
  simpl in Huser.
  pose proof Hat as Hlook. apply at_index_Some in Hlook as [Hrange Hlook].
  destruct (invariant_order _ _ _ (reachable_invariant _ Hr) Hlook) as [ls Hcfg].
  assert (Hopen : DraftPick.player cur = None).
  { destruct (DraftPick.player cur) as [q|] eqn:Hq; [|reflexivity].
    assert (Hs : is_Some (DraftPick.player cur)) by (rewrite Hq; eauto).
    apply (cfg_filled _ _ Hcfg _ cur Hlook) in Hs. lia. }
  assert (Hc : onTheClock state cur) by (split; assumption).
  pose proof (cfg_settings _ _ Hcfg) as Hls.
  destruct (configured_slot _ _ _ Hcfg (onTheClock_elem _ _ Hc)) as (Hteamrange & Hu & _).
  destruct (configured_slot_team _ _ _ Hcfg (onTheClock_elem _ _ Hc))
    as (team & Hteam & _ & Husr).
  rewrite Huser in Hu. symmetry in Hu. apply Z.eqb_eq in Hu.
  apply at_index_Some in Hteam as [_ Hteam].
  exists cur, ls, (Z.to_nat (DraftPick.teamIndex cur)), team,
    (stateAfterPick now state ls cur player).
  split; [reflexivity|]. split; [exact Hc|]. split; [exact Huser|].
  split; [exact Hls|]. split; [lia|]. split; [exact Hteam|].
  split; [congruence|].
  split; [exact (makePick_Next now state ls cur player Hls Hc)|].
  cbn [teams stateAfterPick]. split.
  - eexists. split.
    + rewrite <- at_index_of_nat, at_index_teamsAfterPick, at_index_of_nat, Hteam.
      simpl. rewrite decide_True by lia. reflexivity.
    + rewrite picks_assign. reflexivity.
  - intros t' Hne.
    rewrite <- !at_index_of_nat, at_index_teamsAfterPick.
    destruct (at_index (teams state) (Z.of_nat t')); [|reflexivity].
    simpl. rewrite decide_False by lia. reflexivity.
Qed.

Lemma handleDraftPlayer_user_pick_witness :
  ∃ cur ls (t : nat) team state',
    MAKE_PICK centerA = MAKE_PICK centerA
    ∧ onTheClock (sessionAfter duelStart) cur ∧ DraftPick.isUserPick cur = true
    ∧ leagueSettings (sessionAfter duelStart) = Some ls
    ∧ Z.of_nat t = userDraftPosition ls - 1
    ∧ teams (sessionAfter duelStart) !! t = Some team ∧ isUser team = true
    ∧ draftReducer 2 (sessionAfter duelStart) (MAKE_PICK centerA) = Next state'
    ∧ (∃ team', teams state' !! t = Some team' ∧ picks team' = picks team ++ [centerA])
    ∧ (∀ t' : nat, t' ≠ t → teams state' !! t' = teams (sessionAfter duelStart) !! t').
Proof.
  apply (handleDraftPlayer_user_pick 2 (sessionAfter duelStart) centerA).
  - apply sessionAfter_reachable.
  - reflexivity.
Defined.

Lemma length_filter_split {A : Type} (P Q : A → Prop)
    `{∀ x, Decision (P x)} `{∀ x, Decision (Q x)} (l : list A) :
  (length (filter (λ x, P x ∧ Q x) l) + length (filter (λ x, P x ∧ ¬ Q x) l)
   = length (filter P l))%nat.
Proof.
  induction l as [|a l IH]; [reflexivity|].
  rewrite !filter_cons.
  destruct (decide (P a)), (decide (Q a)).
  - rewrite decide_True, decide_False by tauto. simpl. lia.
  - rewrite decide_False, decide_True by tauto. simpl. lia.
  - rewrite !decide_False by tauto. exact IH.
  - rewrite !decide_False by tauto. exact IH.
Qed.

Lemma configured_remaining ls state (t : nat) team :
  configured ls state → teams state !! t = Some team → isUser team = true →
  remainingUserPicks (draftOrder state) + Z.of_nat (length (picks team))
  = Z.max 0 (calculateTotalRounds (rosterConfig ls)).
Proof.
  intros Hcfg Ht Husr.
  destruct (configured_team _ _ _ _ Hcfg Ht) as (Hlt & _ & Hu).
  rewrite Husr in Hu. symmetry in Hu. apply Z.eqb_eq in Hu.
  rewrite (cfg_picks _ _ Hcfg t team Ht), length_playersOf.
  unfold remainingUserPicks.
  rewrite (filter_iff_in
             (λ p, DraftPick.isUserPick p = true ∧ DraftPick.player p = None)
             (λ p, DraftPick.teamIndex p = Z.of_nat t ∧ ¬ is_Some (DraftPick.player p))).
  2:{ intros p Hp. destruct (configured_slot _ _ _ Hcfg Hp) as (_ & Hup & _).
      rewrite Hup, Z.eqb_eq, <- Hu, <- eq_None_not_Some. reflexivity. }
  rewrite <- Nat2Z.inj_add, Nat.add_comm.
  rewrite (length_filter_split (λ p, DraftPick.teamIndex p = Z.of_nat t)
             (λ p, is_Some (DraftPick.player p))).
  destruct (Z.le_gt_cases 0 (calculateTotalRounds (rosterConfig ls))) as [Hpos|Hneg].
  - rewrite (configured_team_slots _ _ _ _ Hcfg Ht Hpos). lia.
  - assert (Hnil : draftOrder state = []).
    { apply fmap_nil_inv with (f := eraseSlot).
      rewrite (cfg_order _ _ Hcfg). apply generate_nil. right. lia. }
    rewrite Hnil. simpl. lia.
Qed.

(** X10: in every state of a session, the number of picks the team page
    shows as remaining for the user (the user slots of the draft order
    without a player) plus the number of picks of the user's team is the
    number of rounds (0 when the roster configuration sums to a negative
    number). *)
Theorem remaining_user_picks state ls team :
  reachable state → leagueSettings state = Some ls →
  team ∈ teams state → isUser team = true →
  remainingUserPicks (draftOrder state) + Z.of_nat (length (picks team))
  = Z.max 0 (calculateTotalRounds (rosterConfig ls)).
Proof.
  intros Hr Hls Hin Husr. apply list_elem_of_lookup in Hin as [t Ht].
  exact (configured_remaining _ _ _ _ (reachable_configured _ _ Hr Hls) Ht Husr).
Qed.

Lemma remaining_user_picks_witness :
  remainingUserPicks (draftOrder (sessionAfter duelOnePick))
  + Z.of_nat (length (picks (mkRoster 0 "Your Team" true [centerA]
                               (mkCounts 1 0 0 0 0 0 0 0))))
  = Z.max 0 (calculateTotalRounds (rosterConfig duelSettings)).
Proof.
  apply (remaining_user_picks (sessionAfter duelOnePick) duelSettings).
  - apply sessionAfter_reachable.
  - reflexivity.
  - vm_compute. left.
  - reflexivity.
Defined.

Lemma length_generate numTeams numRounds user :
  0 ≤ numTeams → 0 ≤ numRounds →
  Z.of_nat (length (generateSnakeDraftOrder numTeams numRounds user))
  = numTeams * numRounds.
Proof.
  intros Hn Hr. rewrite (generateSnakeDraftOrder_closed _ _ Hn).
  rewrite <- (Z2Nat.id numRounds) at 1 by exact Hr.
  rewrite length_rounds. lia.
Qed.

Lemma validateSettings_None numTeams pos cfg :
  validateSettings numTeams pos cfg = None
  ↔ 2 ≤ numTeams ≤ 16 ∧ 1 ≤ pos ≤ numTeams ∧ 1 ≤ calculateTotalRounds cfg ≤ 30.
Proof.
  unfold validateSettings.
  destruct (Z.ltb_spec numTeams 2), (Z.ltb_spec 16 numTeams),
    (Z.ltb_spec pos 1), (Z.ltb_spec numTeams pos),
    (Z.ltb_spec (calculateTotalRounds cfg) 1), (Z.ltb_spec 30 (calculateTotalRounds cfg));
    simpl; split; try discriminate; try lia; reflexivity.
Qed.

(** X11: on integer settings [validateSettings] accepts exactly those with
    2 to 16 teams, a draft position from 1 to the number of teams and a
    roster of 1 to 30 slots.  For accepted settings [INITIALIZE_LEAGUE]
    builds, from any state, a draft order of numTeams·rounds slots (2 to 480
    of them), numTeams teams of which exactly the one at index
    [userDraftPosition - 1] is the user's, and the user has as many picks to
    make as there are rounds. *)
Theorem validated_setup now state numTeams pos timer cfg players :
  (validateSettings numTeams pos cfg = None
   ↔ 2 ≤ numTeams ≤ 16 ∧ 1 ≤ pos ≤ numTeams ∧ 1 ≤ calculateTotalRounds cfg ≤ 30)
  ∧ (validateSettings numTeams pos cfg = None →
     ∃ s team,
       draftReducer now state
         (INITIALIZE_LEAGUE (mkSettings numTeams snake pos timer cfg) players) = Next s
       ∧ Z.of_nat (length (draftOrder s)) = numTeams * calculateTotalRounds cfg
       ∧ 2 ≤ Z.of_nat (length (draftOrder s)) ≤ 480
       ∧ Z.of_nat (length (teams s)) = numTeams
       ∧ teams s !! Z.to_nat (pos - 1) = Some team
       ∧ isUser team = true ∧ teamName team = "Your Team"
       ∧ (∀ (t : nat) other, teams s !! t = Some other → isUser other = true →
                             t = Z.to_nat (pos - 1))
       ∧ remainingUserPicks (draftOrder s) = calculateTotalRounds cfg).
Proof.
  split; [apply validateSettings_None|].
  intros Hok. apply validateSettings_None in Hok as (Hn & Hp & Hrounds).
  set (ls := mkSettings numTeams snake pos timer cfg).
  pose proof (initialize_configured now state ls players _ eq_refl) as Hcfg.
  destruct (lookup_lt_is_Some_2 (initializeTeamRosters numTeams pos) (Z.to_nat (pos - 1)))
    as [team Hteam].
  { rewrite length_initialize. lia. }
  eexists. exists team. split; [reflexivity|].
  cbn [draftOrder teams]. simpl.
  assert (Hlen : Z.of_nat (length (generateSnakeDraftOrder numTeams
                                     (calculateTotalRounds cfg) pos))
                 = numTeams * calculateTotalRounds cfg)
    by (apply length_generate; lia).
  split; [exact Hlen|]. split; [rewrite Hlen; nia|].
  split; [rewrite length_initialize; lia|].
  split; [exact Hteam|].
  pose proof (initialize_lookup _ _ _ _ Hteam) as Heq.
  rewrite Z2Nat.id, Z.eqb_refl in Heq by lia.
  split; [rewrite Heq; reflexivity|]. split; [rewrite Heq; reflexivity|].
  split.
  - intros t other Hother Husr. apply initialize_lookup in Hother. subst other.
    simpl in Husr. apply Z.eqb_eq in Husr. lia.
  - pose proof (configured_remaining _ _ _ _ Hcfg Hteam) as Hrem.
    rewrite Heq in Hrem. simpl in Hrem. specialize (Hrem eq_refl).
    cbn [draftOrder] in Hrem. lia.
Qed.

Lemma validated_setup_witness :
  ∃ s team,
    draftReducer 0 initialState
      (INITIALIZE_LEAGUE (mkSettings 2 snake 1 60 centerGoalieConfig) []) = Next s
    ∧ Z.of_nat (length (draftOrder s)) = 2 * calculateTotalRounds centerGoalieConfig
    ∧ 2 ≤ Z.of_nat (length (draftOrder s)) ≤ 480
    ∧ Z.of_nat (length (teams s)) = 2
    ∧ teams s !! Z.to_nat (1 - 1) = Some team
    ∧ isUser team = true ∧ teamName team = "Your Team"
    ∧ (∀ (t : nat) other, teams s !! t = Some other → isUser other = true →
                          t = Z.to_nat (1 - 1))
    ∧ remainingUserPicks (draftOrder s) = calculateTotalRounds centerGoalieConfig.
Proof.
  apply (proj2 (validated_setup 0 initialState 2 1 60 centerGoalieConfig [])).
  reflexivity.
Defined.

Lemma generate_first numTeams numRounds user :
  1 ≤ numTeams → 1 ≤ numRounds →
  generateSnakeDraftOrder numTeams numRounds user !! 0%nat
  = Some (DraftPick.mk 1 1 1 0 None None (0 =? user - 1)).
Proof.
  intros Hn Hr. rewrite generateSnakeDraftOrder_closed by lia.
  rewrite seqZ_cons by lia. rewrite fmap_cons, join_cons'.
  unfold roundSlots at 1. rewrite seqZ_cons by lia. reflexivity.
Qed.

(** X12: [INITIALIZE_LEAGUE] followed by [START_DRAFT] leads to one and
    the same state from every state and at every time: nothing of an
    earlier draft survives.  In that state the draft is started and not
    complete, the pick index is 0, the whole player list is available and
    the timer shows the configured seconds; with at least one team and one
    round the timer runs exactly when the user drafts first.
    [INITIALIZE_LEAGUE] alone carries the two timer fields of the earlier
    state over. *)
Theorem setup_then_start now1 now2 state settings players :
  ∃ s0 s,
    draftReducer now1 state (INITIALIZE_LEAGUE settings players) = Next s0
    ∧ pickTimerRemaining s0 = pickTimerRemaining state
    ∧ isTimerActive s0 = isTimerActive state
    ∧ runActions state [(now1, INITIALIZE_LEAGUE settings players); (now2, START_DRAFT)]
      = Next s
    ∧ (∀ now1' now2' state',
         runActions state' [(now1', INITIALIZE_LEAGUE settings players);
                            (now2', START_DRAFT)] = Next s)
    ∧ isDraftStarted s = true ∧ isDraftComplete s = false ∧ currentPickIndex s = 0
    ∧ availablePlayers s = allPlayers s
    ∧ length (allPlayers s) = length players
    ∧ pickTimerRemaining s = draftTimerSeconds settings
    ∧ (1 ≤ numTeams settings → 1 ≤ calculateTotalRounds (rosterConfig settings) →
       (isTimerActive s = true ↔ userDraftPosition settings = 1)).
Proof.
  eexists. eexists. split; [reflexivity|]. split; [reflexivity|]. split; [reflexivity|].
  split; [reflexivity|]. split; [reflexivity|].
  split; [reflexivity|]. split; [reflexivity|]. split; [reflexivity|].
  split; [reflexivity|]. cbn [allPlayers]. split; [apply length_fmap|].
  split.
  - cbn [pickTimerRemaining]. unfold timerSeconds. cbn [leagueSettings].
    destruct (Z.eqb_spec (draftTimerSeconds settings) 0) as [->|]; reflexivity.
  - intros Hn Hr. cbn [isTimerActive draftOrder].
    rewrite generate_first by assumption. cbn [userPickAt DraftPick.isUserPick].
    rewrite Z.eqb_eq. lia.
Qed.

Lemma setup_then_start_witness :
  ∃ s, runActions (sessionAfter duelFinished) duelStart = Next s
       ∧ s = sessionAfter duelStart
       ∧ (isTimerActive s = true ↔ userDraftPosition duelSettings = 1).
Proof.
  destruct (setup_then_start 0 1 (sessionAfter duelFinished) duelSettings
              [centerA; centerB; goalieA; goalieB])
    as (s0 & s & _ & _ & _ & Hrun & Hany & _ & _ & _ & _ & _ & _ & Htimer).
  exists s. split; [exact Hrun|]. split.
  - specialize (Hany 0 1 initialState). unfold sessionAfter.
    change (runActions initialState duelStart) with
      (runActions initialState
         [(0, INITIALIZE_LEAGUE duelSettings [centerA; centerB; goalieA; goalieB]);
          (1, START_DRAFT)]).
    rewrite Hany. reflexivity.
  - apply Htimer; vm_compute; discriminate.
Defined.

(** ** The positions a player can fill *)

Lemma List_filter_sublist {A : Type} (f : A → bool) (l : list A) :
  List.filter f l `sublist_of` l.
Proof.
  induction l as [|a l IH]; simpl; [constructor|].
  destruct (f a); [apply sublist_skip|apply sublist_cons]; exact IH.
Qed.

Lemma available_head player roster cfg :
  head (getAvailablePositionsForPlayer player (filledPositions roster) cfg)
  = cascade player roster cfg.
Proof.
  unfold cascade, getAvailablePositionsForPlayer, positionTypes, holds, hasCapacity.
  simpl.
  repeat match goal with
         | |- context [if ?b then _ else _] => destruct b; simpl; try reflexivity
         end.
Qed.

(** X13: the position [assignPlayerToRoster] returns is always the first
    entry of [getAvailablePositionsForPlayer] (so the fall-back on
    [available[0]] never gives a different answer than the priority
    search).  That list is a sub-list of C, LW, RW, D, G, F, UTIL, BENCH in
    this order, and holds exactly the slots with room that the player can
    fill, BENCH needing room only. *)
Theorem assignPlayerToRoster_first_available player roster cfg :
  let available := getAvailablePositionsForPlayer player (filledPositions roster) cfg in
  (assignPlayerToRoster player roster cfg).1 = head available
  ∧ available `sublist_of` slots
  ∧ ∀ pos, pos ∈ available
           ↔ pos ∈ slots ∧ hasCapacity roster cfg pos = true
             ∧ (pos = BENCH ∨ canFillPosition player pos = true).
Proof.
  intros available. split; [|split].
  - unfold available. rewrite available_head, assign_cascade. reflexivity.
  - unfold available, getAvailablePositionsForPlayer.
    change slots with (positionTypes ++ [BENCH]).
    destruct (_ <? _).
    + apply sublist_app; [apply List_filter_sublist|reflexivity].
    + rewrite <- (app_nil_r (List.filter _ _)).
      apply sublist_app; [apply List_filter_sublist|apply sublist_nil_l].
  - intros pos. rewrite <- includes_true. unfold available.
    rewrite includes_available. unfold slots.
    destruct pos; simpl; rewrite ?andb_true_iff;
      repeat setoid_rewrite elem_of_cons;
      intuition (discriminate || eauto 10).
Qed.

Lemma assignPlayerToRoster_first_available_witness :
  (assignPlayerToRoster dualCenter centerFilled smallConfig).1
  = head (getAvailablePositionsForPlayer dualCenter (filledPositions centerFilled)
            smallConfig)
  ∧ (LW ∈ getAvailablePositionsForPlayer dualCenter (filledPositions centerFilled)
            smallConfig).
Proof.
  destruct (assignPlayerToRoster_first_available dualCenter centerFilled smallConfig)
    as (H1 & _ & H2).
  split; [exact H1|]. apply H2.
  split; [right; left|]. split; [reflexivity|right; reflexivity].
Defined.

Lemma needs_nonneg roster cfg : withinCapacity emptyCounts (getPositionalNeeds roster cfg).
Proof. unfold withinCapacity, getPositionalNeeds. simpl. lia. Qed.

(** X14: after [assignPlayerToRoster] has returned a position, the
    remaining need of that position is lower by exactly one and the needs
    of all other positions are as before, so the needs sum to one less;
    when it returns no position the needs are unchanged.  Needs are never
    negative, and while no filled-count exceeds its capacity they sum to the
    number of rounds less the number of slots filled. *)
Theorem needs_after_assignment player roster cfg :
  let r := assignPlayerToRoster player roster cfg in
  match r.1 with
  | Some pos =>
      (∀ q, count_get (getPositionalNeeds r.2 cfg) q
            = if decide (q = pos)
              then Z.pred <$> count_get (getPositionalNeeds roster cfg) q
              else count_get (getPositionalNeeds roster cfg) q)
      ∧ sumCounts (getPositionalNeeds r.2 cfg)
        = sumCounts (getPositionalNeeds roster cfg) - 1
  | None => getPositionalNeeds r.2 cfg = getPositionalNeeds roster cfg
  end
  ∧ withinCapacity emptyCounts (getPositionalNeeds roster cfg)
  ∧ (withinCapacity (filledPositions roster) cfg →
     sumCounts (getPositionalNeeds roster cfg)
     = calculateTotalRounds cfg - sumCounts (filledPositions roster)).
Proof.
  intros r. split; [|split; [apply needs_nonneg|]].
  - unfold r. pose proof (assign_one player roster cfg) as Hone.
    destruct (assignPlayerToRoster player roster cfg).1 as [pos|].
    + destruct Hone as (Hslot & Hcap & ->).
      unfold slots in Hslot. unfold hasCapacity in Hcap.
      repeat (apply elem_of_cons in Hslot as [->|Hslot]);
        try (simpl in Hcap; apply Z.ltb_lt in Hcap;
             split; [intros q; destruct q; simpl; try reflexivity; f_equal; lia
                    |unfold sumCounts, getPositionalNeeds; simpl; lia]).
      inversion Hslot.
    + rewrite Hone. reflexivity.
  - unfold withinCapacity, sumCounts, getPositionalNeeds, calculateTotalRounds. simpl. lia.
Qed.

Lemma needs_after_assignment_witness :
  sumCounts (getPositionalNeeds
               (assignPlayerToRoster dualCenter centerFilled smallConfig).2 smallConfig)
  = sumCounts (getPositionalNeeds centerFilled smallConfig) - 1
  ∧ sumCounts (getPositionalNeeds centerFilled smallConfig)
    = calculateTotalRounds smallConfig - sumCounts (filledPositions centerFilled).
Proof.
  pose proof (needs_after_assignment dualCenter centerFilled smallConfig) as (H1 & _ & H2).
  split.
  - exact (proj2 H1).
  - apply H2. vm_compute. intuition discriminate.
Defined.

Lemma elem_of_criticalPositions roster cfg pos :
  pos ∈ criticalPositions roster cfg
  ↔ pos ∈ primaryPositions
    ∧ pos_read (count_get cfg pos) = true
    ∧ hasCapacity roster cfg pos = true.
Proof.
  unfold criticalPositions. rewrite !list_elem_of_In, filter_In, andb_true_iff.
  change criticalPosTypes with primaryPositions.
  split.
  - intros (Hin & Hneed & Hcap). split; [exact Hin|]. split; [exact Hcap|].
    apply critical_position_open.
    unfold criticalPositions. rewrite list_elem_of_In, filter_In, andb_true_iff. auto.
  - intros (Hin & Hcap & Hopen). split; [exact Hin|]. split; [|exact Hcap].
    unfold hasCapacity in Hopen. revert Hopen.
    destruct pos; simpl; rewrite ?Z.ltb_lt; try discriminate; lia.
Qed.

(** X15: a position is a critical need exactly when it is one of C, LW,
    RW, D, G, its capacity is positive and its filled-count is below the
    capacity; the flag [hasNeeds] says that there is such a position, and
    the positions are listed in the order C, LW, RW, D, G. *)
Theorem critical_needs_characterised roster cfg :
  (∀ pos, pos ∈ criticalPositions roster cfg
          ↔ pos ∈ primaryPositions
            ∧ pos_read (count_get cfg pos) = true
            ∧ hasCapacity roster cfg pos = true)
  ∧ ((hasCriticalPositionalNeeds roster cfg).1 = true
     ↔ ∃ pos, pos ∈ criticalPositions roster cfg)
  ∧ (hasCriticalPositionalNeeds roster cfg).2 = criticalPositions roster cfg
  ∧ criticalPositions roster cfg `sublist_of` primaryPositions.
Proof.
  split; [apply elem_of_criticalPositions|].
  split; [|split; [reflexivity|apply List_filter_sublist]].
  unfold hasCriticalPositionalNeeds. cbn [fst]. rewrite Z.ltb_lt.
  destruct (criticalPositions roster cfg) as [|pos rest]; simpl.
  - split; [lia|]. intros [pos Hpos]. inversion Hpos.
  - split; [|lia]. intros _. exists pos. left.
Qed.

Lemma critical_player_cascade player roster cfg :
  withinCapacity emptyCounts (filledPositions roster) →
  intersects (criticalPositions roster cfg) player →
  ∃ pos, (assignPlayerToRoster player roster cfg).1 = Some pos
         ∧ pos ∈ criticalPositions roster cfg
         ∧ holds player pos = true
         ∧ (assignPlayerToRoster player roster cfg).2 = fill roster pos.
Proof.
  intros Hfilled (pos0 & Hholds0 & Hcrit0).
  apply elem_of_criticalPositions in Hcrit0 as (Hprim0 & _ & Hopen0).
  apply includes_true in Hholds0. fold (holds player pos0) in Hholds0.
  rewrite assign_cascade. cbn [fst snd].
  assert (Hcrit : ∀ pos, pos ∈ primaryPositions →
            holds player pos && hasCapacity roster cfg pos = true →
            pos ∈ criticalPositions roster cfg ∧ holds player pos = true).
  { intros pos Hprim Hc. apply andb_true_iff in Hc as [Hh Hcap].
    split; [|exact Hh]. apply elem_of_criticalPositions.
    split; [exact Hprim|]. split; [|exact Hcap].
    unfold hasCapacity in Hcap. unfold withinCapacity in Hfilled. simpl in Hfilled.
    revert Hcap. destruct pos; simpl; rewrite ?Z.ltb_lt; try discriminate; lia. }
  unfold cascade.
  destruct (holds player C && hasCapacity roster cfg C) eqn:HC.
  { exists C. split; [reflexivity|]. split; [|split]; try apply Hcrit; try exact HC;
      try reflexivity; unfold primaryPositions; set_solver. }
  destruct (holds player LW && hasCapacity roster cfg LW) eqn:HLW.
  { exists LW. split; [reflexivity|]. split; [|split]; try apply Hcrit; try exact HLW;
      try reflexivity; unfold primaryPositions; set_solver. }
  destruct (holds player RW && hasCapacity roster cfg RW) eqn:HRW.
  { exists RW. split; [reflexivity|]. split; [|split]; try apply Hcrit; try exact HRW;
      try reflexivity; unfold primaryPositions; set_solver. }
  destruct (holds player D && hasCapacity roster cfg D) eqn:HD.
  { exists D. split; [reflexivity|]. split; [|split]; try apply Hcrit; try exact HD;
      try reflexivity; unfold primaryPositions; set_solver. }
  destruct (holds player G && hasCapacity roster cfg G) eqn:HG.
  { exists G. split; [reflexivity|]. split; [|split]; try apply Hcrit; try exact HG;
      try reflexivity; unfold primaryPositions; set_solver. }
  exfalso. unfold primaryPositions in Hprim0.
  repeat (apply elem_of_cons in Hprim0 as [->|Hprim0]);
    try (rewrite Hholds0, Hopen0 in *; discriminate).
  inversion Hprim0.
Qed.

(** X16: on a roster without a negative filled-count, a player who holds
    a critical position is assigned a critical position that the player
    holds; the filled-count of that position goes up by exactly one, every
    other filled-count and the picks of the roster stay as they are. *)
Theorem critical_player_fills_critical_slot player roster cfg :
  withinCapacity emptyCounts (filledPositions roster) →
  intersects (criticalPositions roster cfg) player →
  ∃ pos x,
    (assignPlayerToRoster player roster cfg).1 = Some pos
    ∧ pos ∈ criticalPositions roster cfg
    ∧ pos ∈ positions player
    ∧ count_get (filledPositions roster) pos = Some x
    ∧ count_get (filledPositions (assignPlayerToRoster player roster cfg).2) pos
      = Some (x + 1)
    ∧ (∀ q, q ≠ pos →
            count_get (filledPositions (assignPlayerToRoster player roster cfg).2) q
            = count_get (filledPositions roster) q)
    ∧ picks (assignPlayerToRoster player roster cfg).2 = picks roster.
Proof.
  intros Hfilled Hcrit.
  destruct (critical_player_cascade player roster cfg Hfilled Hcrit)
    as (pos & Hpos & Hin & Hholds & Hfill).
  assert (Hx : ∃ x, count_get (filledPositions roster) pos = Some x).
  { apply critical_position_primary in Hin. unfold primaryPositions in Hin.
    repeat (apply elem_of_cons in Hin as [->|Hin]); simpl; eauto. inversion Hin. }
  destruct Hx as [x Hx]. exists pos, x.
  split; [exact Hpos|]. split; [exact Hin|].
  split; [apply includes_true; exact Hholds|]. split; [exact Hx|].
  rewrite Hfill. cbn [fill filledPositions picks].
  split; [|split; [|reflexivity]].
  - rewrite count_get_incr, decide_True by reflexivity. rewrite Hx. reflexivity.
  - intros q Hne. rewrite count_get_incr, decide_False by exact Hne. reflexivity.
Qed.

Lemma critical_player_fills_critical_slot_witness :
  ∃ pos x,
    (assignPlayerToRoster goalieB cpuTeam centerGoalieConfig).1 = Some pos
    ∧ pos ∈ criticalPositions cpuTeam centerGoalieConfig
    ∧ pos ∈ positions goalieB
    ∧ count_get (filledPositions cpuTeam) pos = Some x
    ∧ count_get (filledPositions
                   (assignPlayerToRoster goalieB cpuTeam centerGoalieConfig).2) pos
      = Some (x + 1)
    ∧ (∀ q, q ≠ pos →
            count_get (filledPositions
                         (assignPlayerToRoster goalieB cpuTeam centerGoalieConfig).2) q
            = count_get (filledPositions cpuTeam) q)
    ∧ picks (assignPlayerToRoster goalieB cpuTeam centerGoalieConfig).2 = picks cpuTeam.
Proof.
  apply critical_player_fills_critical_slot.
  - vm_compute. intuition discriminate.
  - exists G. split; left.
Defined.

(** ** Roster completion and the pick window *)

Lemma completion_value roster cfg :
  0 < calculateTotalRounds cfg →
  (getRosterCompletion roster cfg * inject_Z (calculateTotalRounds cfg)
   == inject_Z (Z.of_nat (length (picks roster))) * 100)%Q.
Proof.
  intros Hpos. unfold getRosterCompletion.
  destruct (Z.ltb_spec 0 (calculateTotalRounds cfg)) as [_|]; [|lia].
  assert (Hne : ¬ (inject_Z (calculateTotalRounds cfg) == 0)%Q).
  { change 0%Q with (inject_Z 0). rewrite inject_Z_injective. lia. }
  field. exact Hne.
Qed.

(** X17: [getRosterCompletion] is never negative and is 0 for a roster
    configuration without slots.  When the configuration has slots, it is
    at most 100 exactly when the team has no more picks than slots, is 100
    exactly when the two numbers agree, and is above 50 exactly when the
    test [picks / totalRounds > 0.5] of [selectCPUPick] holds. *)
Theorem getRosterCompletion_bounds roster cfg :
  let total := calculateTotalRounds cfg in
  let made := Z.of_nat (length (picks roster)) in
  (0 <= getRosterCompletion roster cfg)%Q
  ∧ (total ≤ 0 → getRosterCompletion roster cfg = 0%Q)
  ∧ (0 < total →
     ((getRosterCompletion roster cfg <= 100)%Q ↔ made ≤ total)
     ∧ ((getRosterCompletion roster cfg == 100)%Q ↔ made = total)
     ∧ ((50 < getRosterCompletion roster cfg)%Q ↔ overHalf made total = true)).
Proof.
  intros total made.
  assert (Hzero : total ≤ 0 → getRosterCompletion roster cfg = 0%Q).
  { intros Hle. unfold getRosterCompletion. fold total.
    destruct (Z.ltb_spec 0 total); [lia|reflexivity]. }
  assert (Hmade : (0 <= inject_Z made)%Q).
  { change 0%Q with (inject_Z 0). rewrite <- Zle_Qle. unfold made. lia. }
  assert (Hpos : 0 < total →
            (0 < inject_Z total)%Q
            ∧ (getRosterCompletion roster cfg * inject_Z total == inject_Z made * 100)%Q).
  { intros Ht. split; [|apply completion_value; exact Ht].
    change 0%Q with (inject_Z 0). rewrite <- Zlt_Qlt. exact Ht. }
  split; [|split; [exact Hzero|]].
  - destruct (Z.le_gt_cases total 0) as [Hle|Hgt].
    + rewrite (Hzero Hle). apply Qle_refl.
    + destruct (Hpos ltac:(lia)) as [HT Hval].
      apply Qnot_lt_le. intros Hneg.
      apply (Qmult_lt_r _ 0 (inject_Z total) HT) in Hneg. lra.
  - intros Ht. destruct (Hpos Ht) as [HT Hval].
    set (x := getRosterCompletion roster cfg) in *.
    split; [|split].
    + rewrite (Zle_Qle made total), <- (Qmult_le_r x 100 (inject_Z total) HT), Hval.
      split; intros H; lra.
    + rewrite <- (inject_Z_injective made total).
      split; intros H.
      * rewrite H in Hval. lra.
      * apply (Qmult_inj_r x 100 (inject_Z total)); [lra|]. rewrite Hval, H. ring.
    + unfold overHalf. destruct (Z.eqb_spec total 0); [lia|].
      destruct (Z.ltb_spec 0 total); [|lia].
      rewrite Z.ltb_lt, (Zlt_Qlt total (2 * made)), inject_Z_mult.
      rewrite <- (Qmult_lt_r 50 x (inject_Z total) HT), Hval.
      change (inject_Z 2) with 2%Q. split; intros Hhalf; lra.
Qed.

Lemma getRosterCompletion_bounds_witness :
  ((getRosterCompletion goalieTeam centerGoalieConfig <= 100)%Q
   ↔ Z.of_nat (length (picks goalieTeam)) ≤ calculateTotalRounds centerGoalieConfig)
  ∧ ((50 < getRosterCompletion goalieTeam centerGoalieConfig)%Q
     ↔ overHalf (Z.of_nat (length (picks goalieTeam)))
                (calculateTotalRounds centerGoalieConfig) = true).
Proof.
  destruct (getRosterCompletion_bounds goalieTeam centerGoalieConfig) as (_ & _ & H).
  destruct H as (H1 & _ & H2); [vm_compute; reflexivity|].
  split; [exact H1|exact H2].
Defined.

Lemma slice_window {A : Type} (arr : list A) (i : Z) :
  0 ≤ i → slice arr (i + 1) (i + 4) = take 3 (drop (S (Z.to_nat i)) arr).
Proof.
  intros Hi. unfold slice, sliceIndex.
  destruct (Z.ltb_spec (i + 1) 0); [lia|]. destruct (Z.ltb_spec (i + 4) 0); [lia|].
  set (len := Z.of_nat (length arr)).
  destruct (Z.le_gt_cases len (i + 1)) as [Hout|Hin].
  - rewrite Z.min_r by lia. rewrite !drop_ge by lia. rewrite !take_nil. reflexivity.
  - rewrite (Z.min_l (i + 1)) by lia.
    replace (Z.to_nat (i + 1)) with (S (Z.to_nat i)) by lia.
    destruct (Z.le_gt_cases (i + 4) len) as [Hall|Hpart].
    + rewrite Z.min_l by lia. f_equal. lia.
    + rewrite Z.min_r by lia. rewrite !take_ge; [reflexivity| |];
        rewrite length_drop; lia.
Qed.

(** X18: for a pick index that is not negative, [getCurrentPickInfo]
    returns the slot at the index (or none past the end) and, as the next
    picks, the up to three slots that follow it, in order; their number is
    the number of slots left after the current one, capped at three.  It is
    the user's turn exactly when there is a slot at the index and it is a
    user pick. *)
Theorem getCurrentPickInfo_window idx order :
  let info := getCurrentPickInfo idx order in
  (0 ≤ idx →
   PickInfo.currentPick info = order !! Z.to_nat idx
   ∧ PickInfo.nextPicks info = take 3 (drop (S (Z.to_nat idx)) order)
   ∧ Z.of_nat (length (PickInfo.nextPicks info))
     = Z.max 0 (Z.min 3 (Z.of_nat (length order) - idx - 1))
   ∧ ∀ j : nat, (j < 3)%nat →
       PickInfo.nextPicks info !! j = order !! (Z.to_nat idx + 1 + j)%nat)
  ∧ (PickInfo.isUserTurn info = true
     ↔ ∃ cur, at_index order idx = Some cur ∧ DraftPick.isUserPick cur = true).
Proof.
  intros info. split.
  - intros Hidx. unfold info, getCurrentPickInfo. cbn [PickInfo.currentPick PickInfo.nextPicks].
    rewrite slice_window by exact Hidx.
    split; [unfold at_index; destruct (Z.ltb_spec idx 0); [lia|reflexivity]|].
    split; [reflexivity|]. split.
    + rewrite length_take, length_drop. lia.
    + intros j Hj. rewrite lookup_take_lt by exact Hj. rewrite lookup_drop.
      f_equal. lia.
  - unfold info, getCurrentPickInfo. cbn [PickInfo.isUserTurn]. unfold userPickAt.
    destruct (at_index order idx) as [cur|].
    + split; [eauto|]. intros (cur' & [= <-] & H). exact H.
    + split; [discriminate|]. intros (cur' & [=] & _).
Qed.

Lemma getCurrentPickInfo_window_witness :
  PickInfo.nextPicks (getCurrentPickInfo 2 (draftOrder (sessionAfter duelStart)))
  = take 3 (drop (S (Z.to_nat 2)) (draftOrder (sessionAfter duelStart)))
  ∧ Z.of_nat (length (PickInfo.nextPicks
                        (getCurrentPickInfo 2 (draftOrder (sessionAfter duelStart)))))
    = 1.
Proof.
  destruct (getCurrentPickInfo_window 2 (draftOrder (sessionAfter duelStart)))
    as [H _].
  destruct H as (_ & H1 & H2 & _); [lia|].
  split; [exact H1|]. rewrite H2. reflexivity.
Defined.

(** ** Position codes *)

Lemma splitSlash_nonempty s : splitSlash s ≠ [].
Proof.
  destruct s as [|c s]; simpl; [discriminate|].
  destruct (Ascii.eqb c "/"); [discriminate|].
  destruct (splitSlash s); discriminate.
Qed.

Lemma splitSlash_slot pos :
  pos ∈ slots → splitSlash (positionString pos) = [positionString pos].
Proof.
  unfold slots. intros Hpos.
  repeat (apply elem_of_cons in Hpos as [->|Hpos]); try reflexivity. inversion Hpos.
Qed.

Lemma splitSlash_slot_more pos rest :
  pos ∈ slots →
  splitSlash (positionString pos +:+ "/" +:+ rest) = positionString pos :: splitSlash rest.
Proof.
  unfold slots. intros Hpos.
  repeat (apply elem_of_cons in Hpos as [->|Hpos]); try reflexivity. inversion Hpos.
Qed.

Lemma asPosition_slot pos :
  pos ∈ slots → asPosition (trim (positionString pos)) = pos.
Proof.
  unfold slots. intros Hpos.
  repeat (apply elem_of_cons in Hpos as [->|Hpos]); try reflexivity. inversion Hpos.
Qed.

(** X19: [parsePositions] never returns an empty list, and it reads back
    every position code written as slot names joined by a slash: for a list
    of slot names that is not empty, parsing the joined code gives the
    list. *)
Theorem parsePositions_round_trip :
  (∀ code, parsePositions code ≠ [])
  ∧ (∀ ps, ps ≠ [] → Forall (λ pos, pos ∈ slots) ps →
           parsePositions (String.concat "/" (positionString <$> ps)) = ps).
Proof.
  split.
  - intros code Hnil. apply fmap_nil_inv in Hnil. exact (splitSlash_nonempty code Hnil).
  - intros ps. induction ps as [|pos rest IH]; [congruence|].
    intros _ Hall. apply Forall_cons in Hall as [Hpos Hrest].
    destruct rest as [|pos' rest'].
    + unfold parsePositions. simpl String.concat.
      rewrite splitSlash_slot by exact Hpos. simpl.
      rewrite asPosition_slot by exact Hpos. reflexivity.
    + specialize (IH ltac:(discriminate) Hrest).
      unfold parsePositions in *.
      change (String.concat "/" (positionString <$> pos :: pos' :: rest'))
        with (positionString pos +:+ "/"
              +:+ String.concat "/" (positionString <$> pos' :: rest')).
      rewrite splitSlash_slot_more by exact Hpos.
      rewrite fmap_cons, IH, asPosition_slot by exact Hpos. reflexivity.
Qed.

Lemma parsePositions_round_trip_witness : parsePositions "C/LW" = [C; LW].
Proof.
  apply (proj2 parsePositions_round_trip [C; LW]).
  - discriminate.
  - repeat constructor.
Defined.

(** ** The draft order by index *)

Lemma roundSlots_lookup numTeams user r (k : nat) :
  Z.of_nat k < numTeams →
  roundSlots numTeams user r !! k = Some (slotOf numTeams user r (1 + Z.of_nat k)).
Proof.
  intros Hk. unfold roundSlots. rewrite list_lookup_fmap, lookup_seqZ_lt by lia.
  reflexivity.
Qed.

Lemma generate_lookup numTeams numRounds user (i : nat) :
  1 ≤ numTeams → 0 ≤ numRounds → Z.of_nat i < numTeams * numRounds →
  generateSnakeDraftOrder numTeams numRounds user !! i
  = Some (slotOf numTeams user (Z.of_nat i / numTeams + 1)
                 (Z.of_nat i mod numTeams + 1)).
Proof.
  intros Hn Hr Hi. rewrite generateSnakeDraftOrder_closed by lia.
  pose proof (Z.div_mod (Z.of_nat i) numTeams ltac:(lia)) as Hdm.
  pose proof (Z.mod_pos_bound (Z.of_nat i) numTeams ltac:(lia)) as Hm.
  pose proof (Z.div_pos (Z.of_nat i) numTeams ltac:(lia) ltac:(lia)) as Hq.
  set (q := Z.of_nat i / numTeams) in *. set (m := Z.of_nat i mod numTeams) in *.
  assert (Hqr : q < numRounds) by nia.
  replace i with (Z.to_nat q * Z.to_nat numTeams + Z.to_nat m)%nat at 1 by nia.
  apply join_lookup_Some_same_length'.
  - apply Forall_fmap, Forall_forall. intros r _. apply length_roundSlots.
  - lia.
  - exists (roundSlots numTeams user (1 + q)). split.
    + rewrite list_lookup_fmap, lookup_seqZ_lt by lia. rewrite Z2Nat.id by lia. reflexivity.
    + rewrite roundSlots_lookup by lia. rewrite Z2Nat.id by lia.
      f_equal. f_equal; lia.
Qed.

Lemma length_generate_nat numTeams numRounds user (i : nat) p :
  generateSnakeDraftOrder numTeams numRounds user !! i = Some p →
  1 ≤ numTeams ∧ 1 ≤ numRounds ∧ Z.of_nat i < numTeams * numRounds.
Proof.
  intros Hp.
  destruct (Z.le_gt_cases numTeams 0) as [Hn|Hn];
    [rewrite generate_nil in Hp by lia; discriminate|].
  destruct (Z.le_gt_cases numRounds 0) as [Hr|Hr];
    [rewrite generate_nil in Hp by lia; discriminate|].
  apply lookup_lt_Some in Hp.
  pose proof (length_generate numTeams numRounds user ltac:(lia) ltac:(lia)). lia.
Qed.

Lemma teamOf_even_round numTeams round place :
  0 ≤ round →
  teamOf numTeams round (place + 1)
  = if Z.even round then numTeams - 1 - place else place.
Proof.
  intros Hr. unfold teamOf.
  rewrite Z.rem_mod_nonneg by lia. rewrite Zeven_mod.
  destruct (round mod 2 =? 0); lia.
Qed.

(** X20: with at least one team, the slot at index i of the draft order
    is pick number i + 1; it lies in round i div numTeams + 1 at place
    i mod numTeams + 1; its team is the place less one in an odd round and
    counts down from the last team in an even round; it is a user pick
    exactly when that team is the user's; it holds no player and no
    timestamp. *)
Theorem snake_slot_at_index numTeams numRounds user (i : nat) :
  1 ≤ numTeams → 0 ≤ numRounds → Z.of_nat i < numTeams * numRounds →
  let round := Z.of_nat i / numTeams + 1 in
  let place := Z.of_nat i mod numTeams in
  let team := if Z.even round then numTeams - 1 - place else place in
  generateSnakeDraftOrder numTeams numRounds user !! i
  = Some (DraftPick.mk (Z.of_nat i + 1) round (place + 1) team None None
                       (team =? user - 1)).
Proof.
  intros Hn Hr Hi round place team.
  rewrite generate_lookup by assumption. unfold slotOf. fold round place.
  pose proof (Z.div_pos (Z.of_nat i) numTeams ltac:(lia) ltac:(lia)) as Hq.
  rewrite teamOf_even_round by (unfold round; lia). fold team.
  f_equal. f_equal.
  pose proof (Z.div_mod (Z.of_nat i) numTeams ltac:(lia)) as Hdm.
  unfold round, place. lia.
Qed.

Lemma snake_slot_at_index_witness :
  generateSnakeDraftOrder 4 2 1 !! 5%nat
  = Some (DraftPick.mk 6 2 2 2 None None false).
Proof.
  apply (snake_slot_at_index 4 2 1 5); lia.
Defined.

(** X21: with at least two teams, two slots that follow one another in
    the draft order lie in the same round or in consecutive rounds, and
    they belong to the same team exactly when the second one opens a new
    round: the team that picks last in a round picks first in the next, and
    no team picks twice in a row within a round. *)
Theorem snake_turn numTeams numRounds user (i : nat) p q :
  2 ≤ numTeams →
  generateSnakeDraftOrder numTeams numRounds user !! i = Some p →
  generateSnakeDraftOrder numTeams numRounds user !! S i = Some q →
  (DraftPick.round q = DraftPick.round p ∨ DraftPick.round q = DraftPick.round p + 1)
  ∧ (DraftPick.teamIndex q = DraftPick.teamIndex p
     ↔ DraftPick.round q = DraftPick.round p + 1).
Proof.
  intros Hn Hp Hq.
  destruct (length_generate_nat _ _ _ _ _ Hp) as (_ & Hr & Hi).
  destruct (length_generate_nat _ _ _ _ _ Hq) as (_ & _ & Hi').
  rewrite generate_lookup in Hp, Hq by lia.
  injection Hp as <-. injection Hq as <-. unfold slotOf. cbn [DraftPick.round DraftPick.teamIndex].
  pose proof (Z.div_mod (Z.of_nat i) numTeams ltac:(lia)) as Hdm.
  pose proof (Z.mod_pos_bound (Z.of_nat i) numTeams ltac:(lia)) as Hm.
  pose proof (Z.div_pos (Z.of_nat i) numTeams ltac:(lia) ltac:(lia)) as Hq0.
  set (a := Z.of_nat i / numTeams) in *. set (m := Z.of_nat i mod numTeams) in *.
  destruct (Z_lt_dec (m + 1) numTeams) as [Hin|Hlast].
  - assert (Ha : Z.of_nat (S i) / numTeams = a)
      by (symmetry; apply (Z.div_unique_pos _ _ a (m + 1)); lia).
    assert (Hm' : Z.of_nat (S i) mod numTeams = m + 1)
      by (symmetry; apply (Z.mod_unique_pos _ _ a (m + 1)); lia).
    rewrite Ha, Hm', !teamOf_even_round by lia. split; [left; reflexivity|].
    destruct (Z.even (a + 1)); lia.
  - assert (Ha : Z.of_nat (S i) / numTeams = a + 1)
      by (symmetry; apply (Z.div_unique_pos _ _ (a + 1) 0); lia).
    assert (Hm' : Z.of_nat (S i) mod numTeams = 0)
      by (symmetry; apply (Z.mod_unique_pos _ _ (a + 1) 0); lia).
    rewrite Ha, Hm', !teamOf_even_round by lia.
    split; [right; reflexivity|].
    replace (a + 1 + 1) with (Z.succ (a + 1)) by lia.
    rewrite Z.even_succ, <- Z.negb_even.
    destruct (Z.even (a + 1)); simpl; lia.
Qed.

Lemma snake_turn_witness :
  DraftPick.teamIndex (DraftPick.mk 5 2 1 3 None None false)
  = DraftPick.teamIndex (DraftPick.mk 4 1 4 3 None None false)
  ↔ DraftPick.round (DraftPick.mk 5 2 1 3 None None false)
    = DraftPick.round (DraftPick.mk 4 1 4 3 None None false) + 1.
Proof.
  apply (snake_turn 4 2 1 3); [lia|reflexivity|reflexivity].
Defined.

Lemma filter_round_generate numTeams numRounds user r :
  0 ≤ numTeams → 1 ≤ r ≤ numRounds →
  filter (λ p, DraftPick.round p = r) (generateSnakeDraftOrder numTeams numRounds user)
  = roundSlots numTeams user r.
Proof.
  intros Hn Hr. rewrite generateSnakeDraftOrder_closed by lia.
  apply filter_rounds; [apply NoDup_seqZ|]. apply elem_of_seqZ. lia.
Qed.

(** X22: every team of the league owns exactly one slot of every round of
    the draft order, and so exactly numRounds slots in all. *)
Theorem snake_one_slot_per_round numTeams numRounds user t :
  0 ≤ t < numTeams → 0 ≤ numRounds →
  let order := generateSnakeDraftOrder numTeams numRounds user in
  length (filter (λ p, DraftPick.teamIndex p = t) order) = Z.to_nat numRounds
  ∧ ∀ r, 1 ≤ r ≤ numRounds →
      length (filter (λ p, DraftPick.teamIndex p = t ∧ DraftPick.round p = r) order)
      = 1%nat.
Proof.
  intros Ht Hr order. split; [apply generate_team_slots; assumption|].
  intros r Hround. unfold order.
  rewrite <- (list_filter_filter (λ p, DraftPick.teamIndex p = t)
                (λ p, DraftPick.round p = r)).
  rewrite filter_round_generate by lia.
  apply roundSlots_one_per_team. exact Ht.
Qed.

Lemma snake_one_slot_per_round_witness :
  length (filter (λ p, DraftPick.teamIndex p = 1) (generateSnakeDraftOrder 2 2 1))
  = Z.to_nat 2
  ∧ ∀ r, 1 ≤ r ≤ 2 →
      length (filter (λ p, DraftPick.teamIndex p = 1 ∧ DraftPick.round p = r)
                     (generateSnakeDraftOrder 2 2 1))
      = 1%nat.
Proof.
  apply (snake_one_slot_per_round 2 2 1 1); lia.
Defined.

(** ** Recommendations *)

Lemma slice_from_start {A : Type} (arr : list A) (count : Z) :
  slice arr 0 count = take (Z.to_nat (sliceIndex (Z.of_nat (length arr)) count)) arr.
Proof.
  unfold slice. replace (sliceIndex (Z.of_nat (length arr)) 0) with 0.
  - rewrite Z.sub_0_r. reflexivity.
  - unfold sliceIndex. simpl. lia.
Qed.

Lemma insertRecommendation_elem a b sorted :
  b ∈ insertRecommendation a sorted ↔ b = a ∨ b ∈ sorted.
Proof.
  induction sorted as [|c rest IH]; simpl.
  - rewrite list_elem_of_singleton, elem_of_nil. tauto.
  - destruct (Qle_bool _ _); rewrite !elem_of_cons, ?IH; tauto.
Qed.

Lemma sortRecommendations_elem b scored : b ∈ sortRecommendations scored ↔ b ∈ scored.
Proof.
  induction scored as [|a rest IH]; simpl; [reflexivity|].
  rewrite insertRecommendation_elem, IH, elem_of_cons. reflexivity.
Qed.

Lemma length_insertRecommendation a sorted :
  length (insertRecommendation a sorted) = S (length sorted).
Proof.
  induction sorted as [|c rest IH]; simpl; [reflexivity|].
  destruct (Qle_bool _ _); simpl; [reflexivity|]. rewrite IH. reflexivity.
Qed.

Lemma length_sortRecommendations scored :
  length (sortRecommendations scored) = length scored.
Proof.
  induction scored as [|a rest IH]; simpl; [reflexivity|].
  rewrite length_insertRecommendation, IH. reflexivity.
Qed.

Lemma insertRecommendation_sorted a sorted :
  StronglySorted rankedBelow sorted →
  StronglySorted rankedBelow (insertRecommendation a sorted).
Proof.
  induction 1 as [|b rest Hsorted IH Hb]; simpl.
  - constructor; constructor.
  - destruct (Qle_bool (Recommendation.score b) (Recommendation.score a)) eqn:Hcmp.
    + apply Qle_bool_iff in Hcmp.
      constructor; [constructor; assumption|].
      constructor; [exact Hcmp|].
      eapply Forall_impl; [exact Hb|]. unfold rankedBelow. intros c Hc. lra.
    + assert (Hlt : (Recommendation.score a < Recommendation.score b)%Q).
      { apply Qnot_le_lt. intros Hle. apply Qle_bool_iff in Hle. congruence. }
      constructor; [exact IH|].
      apply Forall_forall. intros c Hc.
      apply insertRecommendation_elem in Hc as [->|Hc].
      * unfold rankedBelow. lra.
      * rewrite Forall_forall in Hb. apply Hb. exact Hc.
Qed.

Lemma sortRecommendations_sorted scored :
  StronglySorted rankedBelow (sortRecommendations scored).
Proof.
  induction scored as [|a rest IH]; simpl; [constructor|].
  apply insertRecommendation_sorted. exact IH.
Qed.

Lemma StronglySorted_take {A : Type} (R : A → A → Prop) (l : list A) (n : nat) :
  StronglySorted R l → StronglySorted R (take n l).
Proof.
  intros Hs. revert n. induction Hs as [|a l Hs IH Ha]; intros [|n]; simpl;
    try constructor.
  - apply IH.
  - apply Forall_forall. intros b Hb. rewrite Forall_forall in Ha. apply Ha.
    eapply subseteq_take. exact Hb.
Qed.

Lemma scoredPlayer_insert a sorted :
  scoredPlayer <$> insertRecommendation a sorted
  = insertByScore (scoredPlayer a) (scoredPlayer <$> sorted).
Proof.
  induction sorted as [|b rest IH]; simpl; [reflexivity|].
  destruct (Qle_bool _ _); simpl; [reflexivity|]. f_equal. exact IH.
Qed.

Lemma scoredPlayer_sort scored :
  scoredPlayer <$> sortRecommendations scored = sortByScore (scoredPlayer <$> scored).
Proof.
  induction scored as [|a rest IH]; [reflexivity|].
  cbn [sortRecommendations foldr]. fold (sortRecommendations rest).
  rewrite scoredPlayer_insert, IH. reflexivity.
Qed.

(** The reason of a recommendation, case by case. *)
Lemma recommendationReason_cases player roster cfg pick :
  let cps := criticalPositions roster cfg in
  let fit := List.filter (λ pos, pos_read (count_get (getPositionalNeeds roster cfg) pos))
                         (positions player) in
  let reason := recommendationReason player (getPositionalNeeds roster cfg) cps pick in
  (intersects cps player →
   reason = "Fills critical need: "
            +:+ String.concat ", "
                  (positionString
                     <$> List.filter (λ pos, bool_decide (pos ∈ positions player)) cps))
  ∧ (¬ intersects cps player →
     ((espnADP player <= inject_Z (pick + 10))%Q →
      reason = "Best available (great value)")
     ∧ ((inject_Z (pick + 10) < espnADP player)%Q →
        (espnADP player <= inject_Z (pick + 20))%Q →
        reason = "Good value at this pick")
     ∧ ((inject_Z (pick + 20) < espnADP player)%Q → fit ≠ [] →
        reason = "Fills need: " +:+ String.concat ", " (positionString <$> fit))
     ∧ ((inject_Z (pick + 20) < espnADP player)%Q → fit = [] →
        reason = "Best available")).
Proof.
  intros cps fit reason. unfold reason, recommendationReason. fold cps. fold fit.
  assert (Hle : ∀ x y : Q, (x <= y)%Q → Qle_bool x y = true)
    by (intros x y; apply Qle_bool_iff).
  assert (Hgt : ∀ x y : Q, (y < x)%Q → Qle_bool x y = false).
  { intros x y Hlt. destruct (Qle_bool x y) eqn:Hb; [|reflexivity].
    apply Qle_bool_iff in Hb. exfalso. exact (Qlt_not_le _ _ Hlt Hb). }
  split.
  - intros Hcrit. apply fillsCritical_intersects in Hcrit. rewrite Hcrit. reflexivity.
  - intros Hnot.
    assert (Hfalse : fillsCritical cps player = false).
    { destruct (fillsCritical cps player) eqn:Hb; [|reflexivity].
      exfalso. apply Hnot. apply fillsCritical_intersects. exact Hb. }
    rewrite Hfalse. split; [|split; [|split]].
    + intros H10. rewrite (Hle _ _ H10). reflexivity.
    + intros H10 H20. rewrite (Hgt _ _ H10), (Hle _ _ H20). reflexivity.
    + intros H20 Hfit.
      assert (H10 : (inject_Z (pick + 10) < espnADP player)%Q).
      { eapply Qle_lt_trans; [|exact H20]. rewrite <- Zle_Qle. lia. }
      rewrite (Hgt _ _ H10), (Hgt _ _ H20).
      destruct fit as [|pos rest]; [congruence|]. reflexivity.
    + intros H20 Hfit.
      assert (H10 : (inject_Z (pick + 10) < espnADP player)%Q).
      { eapply Qle_lt_trans; [|exact H20]. rewrite <- Zle_Qle. lia. }
      rewrite (Hgt _ _ H10), (Hgt _ _ H20), Hfit. reflexivity.
Qed.

(** X23: [getDraftRecommendations] returns, for a count that is not
    negative, as many recommendations as asked for or as the pool has
    players, whichever is less (a negative count drops that many from the
    end instead).  Every recommendation is for a player of the pool, with
    the score [scorePlayerForCPU] gives that player under the default
    weights.  Its reason names the critical positions the player holds when
    the player holds one; else it is the great-value text for an ADP of at
    most the pick number plus 10, the good-value text for an ADP of at most
    the pick number plus 20, and beyond that the positions of the player
    with an open need, or the plain text when there is none.  The list is
    in descending order of score. *)
Theorem getDraftRecommendations_ranked pool roster cfg pick count rnd :
  let recs := getDraftRecommendations pool roster cfg pick count rnd in
  (0 ≤ count → Z.of_nat (length recs) = Z.min count (Z.of_nat (length pool)))
  ∧ (count < 0 → Z.of_nat (length recs) = Z.max 0 (Z.of_nat (length pool) + count))
  ∧ (∀ r, r ∈ recs →
       let player := Recommendation.player r in
       let cps := criticalPositions roster cfg in
       let fit :=
         List.filter (λ pos, pos_read (count_get (getPositionalNeeds roster cfg) pos))
                     (positions player) in
       (∃ i, pool !! i = Some player
             ∧ Recommendation.score r
               = scorePlayerForCPU player roster cfg pick DEFAULT_CPU_WEIGHTS (rnd i))
       ∧ (intersects cps player →
          Recommendation.reason r
          = "Fills critical need: "
            +:+ String.concat ", "
                  (positionString
                     <$> List.filter (λ pos, bool_decide (pos ∈ positions player)) cps))
       ∧ (¬ intersects cps player →
          ((espnADP player <= inject_Z (pick + 10))%Q →
           Recommendation.reason r = "Best available (great value)")
          ∧ ((inject_Z (pick + 10) < espnADP player)%Q →
             (espnADP player <= inject_Z (pick + 20))%Q →
             Recommendation.reason r = "Good value at this pick")
          ∧ ((inject_Z (pick + 20) < espnADP player)%Q → fit ≠ [] →
             Recommendation.reason r
             = "Fills need: " +:+ String.concat ", " (positionString <$> fit))
          ∧ ((inject_Z (pick + 20) < espnADP player)%Q → fit = [] →
             Recommendation.reason r = "Best available")))
  ∧ StronglySorted rankedBelow recs.
Proof.
  intros recs. unfold recs, getDraftRecommendations.
  destruct pool as [|first rest] eqn:Hpool.
  { split; [simpl; lia|]. split; [simpl; lia|].
    split; [intros r Hr; inversion Hr|constructor]. }
  rewrite <- Hpool. clear Hpool. cbv zeta.
  match goal with
  | |- context [imap ?f pool] => set (scored := imap f pool)
  end.
  rewrite slice_from_start, length_take, length_sortRecommendations.
  assert (Hlen : length scored = length pool) by apply length_imap.
  rewrite Hlen. unfold sliceIndex.
  split; [destruct (Z.ltb_spec count 0); lia|].
  split; [destruct (Z.ltb_spec count 0); lia|].
  split.
  - intros r Hr. apply subseteq_take in Hr.
    apply (proj1 (sortRecommendations_elem _ _)) in Hr. unfold scored in Hr.
    apply elem_of_lookup_imap in Hr as (i & p & -> & Hp).
    cbn [Recommendation.player Recommendation.score Recommendation.reason].
    split; [exists i; split; [exact Hp|reflexivity]|].
    exact (recommendationReason_cases p roster cfg pick).
  - apply StronglySorted_take, sortRecommendations_sorted.
Qed.

Lemma getDraftRecommendations_ranked_witness :
  Z.of_nat (length (getDraftRecommendations flexPool flexTeam flexConfig 5 2 (λ _, 0%Q)))
  = Z.min 2 (Z.of_nat (length flexPool))
  ∧ (∀ r, r ∈ getDraftRecommendations flexPool flexTeam flexConfig 5 2 (λ _, 0%Q) →
          Recommendation.player r = goalieA →
          Recommendation.reason r = "Fills critical need: G")
  ∧ (∀ r, r ∈ getDraftRecommendations flexPool flexTeam flexConfig 5 2 (λ _, 0%Q) →
          Recommendation.player r = dualCenter →
          Recommendation.reason r = "Best available (great value)").
Proof.
  destruct (getDraftRecommendations_ranked flexPool flexTeam flexConfig 5 2 (λ _, 0%Q))
    as (Hlen & _ & Hrec & _).
  split; [apply Hlen; lia|]. split.
  - intros r Hr Hplayer. destruct (Hrec r Hr) as (_ & Hcrit & _).
    rewrite Hplayer in Hcrit. apply Hcrit. exists G. split; left.
  - intros r Hr Hplayer. destruct (Hrec r Hr) as (_ & _ & Hnot).
    rewrite Hplayer in Hnot. apply Hnot.
    + intros (pos & Hpos & Hc). vm_compute in Hc, Hpos.
      apply list_elem_of_singleton in Hc. subst pos.
      repeat (apply elem_of_cons in Hpos as [Hpos|Hpos]; [discriminate|]).
      inversion Hpos.
    + apply Qle_bool_iff. reflexivity.
Defined.

(** X24: while a team has made no more than half of its picks, the first
    recommendation (when at least one is asked for) is for the player
    [selectCPUPick] returns from the same pool under the default weights
    and the same random draws. *)
Theorem top_recommendation_is_cpu_pick pool roster cfg pick count rnd :
  1 ≤ count →
  overHalf (Z.of_nat (length (picks roster))) (calculateTotalRounds cfg) = false →
  Recommendation.player <$> head (getDraftRecommendations pool roster cfg pick count rnd)
  = selectCPUPick pool roster cfg pick DEFAULT_CPU_WEIGHTS rnd.
Proof.
  intros Hcount Hhalf. rewrite selectCPUPick_cpuCandidates.
  unfold cpuCandidates. rewrite Hhalf, andb_false_r, andb_false_l.
  unfold getDraftRecommendations.
  destruct pool as [|first rest] eqn:Hpool; [reflexivity|].
  rewrite <- Hpool. cbv zeta.
  match goal with
  | |- context [sortRecommendations (imap ?f pool)] => set (scored := imap f pool)
  end.
  assert (Hscored : scoredPlayer <$> scored
                    = imap (λ i player,
                              (player, scorePlayerForCPU player roster cfg pick
                                         DEFAULT_CPU_WEIGHTS (rnd i))) pool).
  { unfold scored. rewrite fmap_imap. apply imap_ext. reflexivity. }
  rewrite <- Hscored, <- scoredPlayer_sort, slice_from_start.
  assert (Hlen : length (sortRecommendations scored) = length pool).
  { rewrite length_sortRecommendations. apply length_imap. }
  destruct (sortRecommendations scored) as [|top sorted]; [rewrite take_nil; reflexivity|].
  rewrite Hpool in Hlen. simpl length in Hlen.
  unfold sliceIndex. destruct (Z.ltb_spec count 0); [lia|].
  destruct (Z.to_nat (Z.min count (Z.of_nat (length (top :: sorted))))) as [|n] eqn:Hn.
  { simpl length in Hn. lia. }
  reflexivity.
Qed.

Lemma top_recommendation_is_cpu_pick_witness :
  Recommendation.player
    <$> head (getDraftRecommendations [centerB; goalieA] cpuTeam centerGoalieConfig 3 5
                (λ _, 0%Q))
  = selectCPUPick [centerB; goalieA] cpuTeam centerGoalieConfig 3 DEFAULT_CPU_WEIGHTS
                  (λ _, 0%Q).
Proof.
  apply top_recommendation_is_cpu_pick; [lia|reflexivity].
Defined.

(** ** The turn of a CPU team *)

Lemma cpuOnTheClock_open state :
  cpuOnTheClock state = true →
  ∃ cur, onTheClock state cur ∧ DraftPick.isUserPick cur = false
         ∧ isDraftStarted state = true ∧ isDraftComplete state = false.
Proof.
  unfold cpuOnTheClock. rewrite !andb_true_iff. intros [[[Hstarted Hdone] _] Hcur].
  destruct (at_index (draftOrder state) (currentPickIndex state)) as [cur|] eqn:Hat;
    [|discriminate].
  apply andb_true_iff in Hcur as [Huser Hopen].
  exists cur. split; [split; [exact Hat|]|].
  - destruct (DraftPick.player cur); [discriminate|reflexivity].
  - split; [apply negb_true_iff; exact Huser|].
    split; [exact Hstarted|apply negb_true_iff; exact Hdone].
Qed.

(** X25: in a state of a session in which the provider schedules
    [processCPUPick] (the draft is started and not complete and the current
    slot is an open slot of a CPU team), and with a pool that is not empty,
    the callback dispatches [MAKE_PICK] of a player of the pool; the reducer
    accepts it, the pick index advances by one, the draft stays started and
    the roster of the user is left as it is. *)
Theorem cpu_turn_progress now state rnd :
  reachable state → cpuOnTheClock state = true → availablePlayers state ≠ [] →
  ∃ cur p state',
    onTheClock state cur ∧ DraftPick.isUserPick cur = false
    ∧ p ∈ availablePlayers state
    ∧ processCPUPick state rnd = Dispatches (Some (MAKE_PICK p))
    ∧ draftReducer now state (MAKE_PICK p) = Next state'
    ∧ currentPickIndex state' = currentPickIndex state + 1
    ∧ isDraftStarted state' = true
    ∧ ∀ (t : nat) team, teams state !! t = Some team → isUser team = true →
                        teams state' !! t = Some team.
Proof.
  intros Hr Hcpu Hne.
  destruct (cpuOnTheClock_open _ Hcpu) as (cur & Hc & Hnotuser & Hstarted & _).
  destruct (processCPUPick_open state rnd cur Hr Hc)
    as (ls & team & Hls & Hteam & Huser & Hp).
  destruct (selectCPUPick_Some (availablePlayers state) team (rosterConfig ls)
              (currentPickIndex state + 1) DEFAULT_CPU_WEIGHTS rnd Hne) as [p Hsel].
  pose proof (reachable_configured _ _ Hr Hls) as Hcfg.
  exists cur, p, (stateAfterPick now state ls cur p).
  split; [exact Hc|]. split; [exact Hnotuser|].
  split; [exact (selectCPUPick_elem _ _ _ _ _ _ _ Hsel)|].
  split; [rewrite Hp, Hsel; reflexivity|].
  split; [exact (makePick_Next now state ls cur p Hls Hc)|].
  split; [reflexivity|]. split; [exact Hstarted|].
  intros t other Hother Hisuser. cbn [teams stateAfterPick].
  destruct (configured_team _ _ _ _ Hcfg Hother) as (_ & _ & Hu).
  destruct (configured_slot _ _ _ Hcfg (onTheClock_elem _ _ Hc)) as (_ & Hslot & _).
  rewrite Hisuser in Hu. rewrite Hnotuser in Hslot.
  symmetry in Hu. apply Z.eqb_eq in Hu. symmetry in Hslot. apply Z.eqb_neq in Hslot.
  rewrite <- at_index_of_nat, at_index_teamsAfterPick, at_index_of_nat, Hother.
  simpl. rewrite decide_False by lia. reflexivity.
Qed.

Lemma cpu_turn_progress_witness :
  ∃ cur p state',
    onTheClock (sessionAfter duelOnePick) cur ∧ DraftPick.isUserPick cur = false
    ∧ p ∈ availablePlayers (sessionAfter duelOnePick)
    ∧ processCPUPick (sessionAfter duelOnePick) (λ _, 0%Q)
      = Dispatches (Some (MAKE_PICK p))
    ∧ draftReducer 3 (sessionAfter duelOnePick) (MAKE_PICK p) = Next state'
    ∧ currentPickIndex state' = currentPickIndex (sessionAfter duelOnePick) + 1
    ∧ isDraftStarted state' = true
    ∧ ∀ (t : nat) team, teams (sessionAfter duelOnePick) !! t = Some team →
                        isUser team = true → teams state' !! t = Some team.
Proof.
  apply (cpu_turn_progress 3 (sessionAfter duelOnePick) (λ _, 0%Q)).
  - apply sessionAfter_reachable.
  - reflexivity.
  - discriminate.
Defined.

(** ** The stock of the pool *)

Lemma length_filter_playerId pool p :
  NoDup (playerId <$> pool) →
  (length pool ≤ S (length (filter (λ q, playerId q ≠ playerId p) pool)))%nat.
Proof.
  induction pool as [|a l IH]; intros Hdup; [simpl; lia|].
  rewrite fmap_cons in Hdup. apply NoDup_cons in Hdup as [Ha Hl].
  rewrite filter_cons. destruct (decide (playerId a ≠ playerId p)) as [Hne|Heq].
  - simpl. specialize (IH Hl). lia.
  - rewrite filter_all; [simpl; lia|].
    intros q Hq Hid. apply Ha. apply list_elem_of_fmap. exists q. split; [|exact Hq].
    destruct (decide (playerId a = playerId p)) as [->|Hn]; [congruence|tauto].
Qed.

Lemma pick_keeps_stock now state ls cur player :
  availablePlayers state `sublist_of` allPlayers state →
  NoDup (playerId <$> allPlayers state) →
  Z.of_nat (length (allPlayers state))
  ≤ Z.of_nat (length (availablePlayers state)) + currentPickIndex state →
  Z.of_nat (length (allPlayers (stateAfterPick now state ls cur player)))
  ≤ Z.of_nat (length (availablePlayers (stateAfterPick now state ls cur player)))
    + currentPickIndex (stateAfterPick now state ls cur player).
Proof.
  intros Hsub Hdup Hle. cbn [allPlayers availablePlayers currentPickIndex stateAfterPick].
  assert (Hpool : NoDup (playerId <$> availablePlayers state)).
  { eapply sublist_NoDup; [exact Hdup|]. apply fmap_sublist. exact Hsub. }
  pose proof (length_filter_playerId (availablePlayers state) player Hpool). lia.
Qed.

(** While the identifiers of the player list are distinct, the pool has
    lost at most one player per pick made. *)
Lemma reachable_stock state :
  reachable state →
  NoDup (playerId <$> allPlayers state) →
  Z.of_nat (length (allPlayers state))
  ≤ Z.of_nat (length (availablePlayers state)) + currentPickIndex state.
Proof.
  induction 1 as [|now state action state' Hr IH Hstep]; [simpl; lia|].
  assert (Hpick : ∀ player, makePick now state player = Next state' →
            NoDup (playerId <$> allPlayers state') →
            Z.of_nat (length (allPlayers state'))
            ≤ Z.of_nat (length (availablePlayers state')) + currentPickIndex state').
  { intros player Hmake.
    destruct (stale_or_clock state) as [Hs|[cur Hc]].
    - rewrite makePick_stale in Hmake by exact Hs. injection Hmake as <-. exact IH.
    - destruct (reachable_onTheClock _ _ Hr Hc) as [ls Hls].
      rewrite (makePick_Next now state ls cur player Hls Hc) in Hmake.
      injection Hmake as <-. intros Hdup.
      apply pick_keeps_stock; [|exact Hdup|exact (IH Hdup)].
      exact (cfg_pool _ _ (reachable_configured _ _ Hr Hls)). }
  destruct action; simpl in Hstep;
    try (injection Hstep as <-; simpl; first [exact IH | lia]).
  - exact (Hpick player Hstep).
  - unfold autoPick in Hstep.
    destruct (at_index (draftOrder state) (currentPickIndex state)) as [cur|];
      [|injection Hstep as <-; exact IH].
    destruct (DraftPick.player cur); [injection Hstep as <-; exact IH|].
    destruct (leagueSettings state) as [ls|]; [|discriminate].
    destruct (autoPickPlayer _ _ _) as [[p|]|]; [|injection Hstep as <-; exact IH|discriminate].
    exact (Hpick p Hstep).
Qed.

(** X26: in a state of a session whose player list has distinct
    identifiers and at least as many players as the draft order has slots,
    an open current slot always finds players in the pool: at least as many
    as there are slots left to fill.  So neither [AUTO_PICK] nor a CPU turn
    is ever left without a player to take. *)
Theorem stocked_pool_never_runs_dry state cur :
  reachable state →
  NoDup (playerId <$> allPlayers state) →
  (length (draftOrder state) ≤ length (allPlayers state))%nat →
  onTheClock state cur →
  availablePlayers state ≠ []
  ∧ Z.of_nat (length (draftOrder state)) - currentPickIndex state
    ≤ Z.of_nat (length (availablePlayers state)).
Proof.
  intros Hr Hdup Hlen [Hat _].
  pose proof (reachable_stock _ Hr Hdup) as Hstock.
  apply at_index_Some in Hat as [Hrange _].
  split; [|lia]. intros Hnil. rewrite Hnil in Hstock. simpl in Hstock. lia.
Qed.

Lemma stocked_pool_never_runs_dry_witness :
  availablePlayers (sessionAfter duelTwoPicks) ≠ []
  ∧ Z.of_nat (length (draftOrder (sessionAfter duelTwoPicks)))
    - currentPickIndex (sessionAfter duelTwoPicks)
    ≤ Z.of_nat (length (availablePlayers (sessionAfter duelTwoPicks))).
Proof.
  apply (stocked_pool_never_runs_dry (sessionAfter duelTwoPicks) thirdSlot).
  - apply sessionAfter_reachable.
  - vm_compute. repeat constructor; set_solver.
  - vm_compute. lia.
  - split; reflexivity.
Defined.

(** ** The setup page *)




Lemma handleRosterChange_nonneg prev pos value :
  withinCapacity emptyCounts prev →
  withinCapacity emptyCounts (handleRosterChange prev pos value).
Proof.
  unfold withinCapacity, handleRosterChange. destruct pos; simpl; lia.
Qed.

(** X28: whatever integers [handleRosterChange] is called with, in
    whatever order, from the default roster of the page on, no capacity of
    the roster configuration is negative, so that the number of rounds is
    not negative; a call sets the capacity of its position to the value, or
    to 0 for a negative value, and leaves the other capacities as they
    are. *)
Theorem rosterConfig_never_negative changes :
  withinCapacity emptyCounts (rosterAfter changes)
  ∧ 0 ≤ calculateTotalRounds (rosterAfter changes)
  ∧ ∀ pos value q,
      pos ∈ slots →
      count_get (handleRosterChange (rosterAfter changes) pos value) q
      = if decide (q = pos) then Some (Z.max 0 value)
        else count_get (rosterAfter changes) q.
Proof.
  assert (Hnonneg : withinCapacity emptyCounts (rosterAfter changes)).
  { unfold rosterAfter. induction changes as [|change rest IH] using rev_ind.
    - vm_compute. intuition discriminate.
    - rewrite foldl_app. simpl. apply handleRosterChange_nonneg. exact IH. }
  split; [exact Hnonneg|]. split.
  - unfold withinCapacity in Hnonneg. simpl in Hnonneg.
    unfold calculateTotalRounds. lia.
  - intros pos value q Hpos. unfold slots in Hpos.
    repeat (apply elem_of_cons in Hpos as [->|Hpos]);
      try (destruct q; reflexivity).
    inversion Hpos.
Qed.

Lemma rosterConfig_never_negative_witness :
  count_get (handleRosterChange (rosterAfter [(G, 0)]) BENCH (-3)) BENCH = Some 0
  ∧ count_get (handleRosterChange (rosterAfter [(G, 0)]) BENCH (-3)) G = Some 0.
Proof.
  destruct (rosterConfig_never_negative [(G, 0)]) as (_ & _ & H).
  split.
  - apply (H BENCH (-3) BENCH). unfold slots. set_solver.
  - apply (H BENCH (-3) G). unfold slots. set_solver.
Defined.
